(** * DNSSEC reply augmentation of SkyDNS ([dnssec.go])

    A shallow embedding of the NSEC3 white-lie synthesizer, the signature
    cache, the single-flight registry and the signer of [dnssec.go], and the
    properties of them that the specification states.

    Conventions.
    - A Go [byte], [uint16] or [uint32] is a [Z]; wrap-around is written out
      with [mod].  A [[]byte] is a [list Z].
    - A Go [string] is a [string]; [bytes_of_string] and [string_of_bytes]
      are the conversions [[]byte(s)] and [string(b)].
    - A Go map is a [gmap]; a pointer to a [call] is an index into the store
      of allocated calls.
    - A run-time panic (index out of range, nil dereference) and a caller
      blocked for ever are [None].
    - Calls of the logger are left out; the statistics counter is kept. *)

From stdpp Require Import gmap strings list fin_maps.
From Stdlib Require Import ZArith Lia String Ascii.

Open Scope Z_scope.

(** ** Bytes and strings *)

Definition is_byte (x : Z) : Prop := 0 <= x < 256.

Definition bytes_of_string (s : string) : list Z :=
  map (fun a => Z.of_N (N_of_ascii a)) (list_ascii_of_string s).

Definition string_of_bytes (b : list Z) : string :=
  string_of_list_ascii (map (fun x => ascii_of_N (Z.to_N x)) b).

(** ** Hash-space arithmetic: [byteArith] *)

(** The first loop of [byteArith], over the bytes from the last index down
    ([r] is the slice reversed).  The boolean tells whether the loop left
    through its [return]; when it is [false] the loop ran off the front of
    the slice, having set every byte to zero. *)
Fixpoint incLoop (r : list Z) : list Z * bool :=
  match r with
  | [] => ([], false)
  | x :: r' =>
      if x =? 255 then
        let '(r'', returned) := incLoop r' in (0 :: r'', returned)
      else ((x + 1) mod 256 :: r', true)
  end.

(** The second loop of [byteArith], on the reversed slice. *)
Fixpoint decLoop (r : list Z) : list Z :=
  match r with
  | [] => []
  | x :: r' =>
      if x =? 0 then 255 :: decLoop r'
      else (x - 1) mod 256 :: r'
  end.

(** [byteArith b x]: the slice [b] after the call.  With [x] set, the
    function returns from inside the first loop; when that loop ends without
    returning, control falls through to the second loop. *)
Definition byteArith (b : list Z) (x : bool) : list Z :=
  if x then
    let '(r, returned) := incLoop (rev b) in
    if returned then rev r else rev (decLoop r)
  else rev (decLoop (rev b)).

(** ** Base-32 text ([encoding/base32], [HexEncoding])

    The standard library's padded base-32 codec over the extended hex
    alphabet, on which [packBase32] and [unpackBase32] rest.  The program
    hands the decoder the text of a 20-byte digest, which has no padding,
    alone or followed by a dot and a domain name, and the name of a
    wildcard. *)

Definition encodeHex : list Z :=
  bytes_of_string "0123456789ABCDEFGHIJKLMNOPQRSTUV".

(** [b << n] and [b >> n] on a byte. *)
Definition shl8 (b n : Z) : Z := Z.shiftl b n mod 256.
Definition shr8 (b n : Z) : Z := Z.shiftr b n.

(** The eight 5-bit blocks of a quantum of up to five bytes; a byte the
    source does not have contributes nothing. *)
Definition unpackQuantum (s0 s1 s2 s3 s4 : Z) : list Z :=
  [ shr8 s0 3;
    Z.lor (Z.land (shl8 s0 2) 31) (Z.land (shr8 s1 6) 31);
    Z.land (shr8 s1 1) 31;
    Z.lor (Z.land (shl8 s1 4) 31) (Z.land (shr8 s2 4) 31);
    Z.lor (Z.land (shl8 s2 1) 31) (shr8 s3 7);
    Z.land (shr8 s3 2) 31;
    Z.lor (Z.land (shl8 s3 3) 31) (shr8 s4 5);
    Z.land s4 31 ].

Definition encodeBlocks (blocks : list Z) : list Z :=
  map (fun v => nth (Z.to_nat v) encodeHex 0) blocks.

(** ASCII [=]. *)
Definition padChar : Z := 61.

(** [Encode]: full quanta give eight characters each; the final, short
    quantum is padded with [=]. *)
Fixpoint Encode (src : list Z) : list Z :=
  match src with
  | [] => []
  | [s0] =>
      take 2 (encodeBlocks (unpackQuantum s0 0 0 0 0)) ++ replicate 6 padChar
  | [s0; s1] =>
      take 4 (encodeBlocks (unpackQuantum s0 s1 0 0 0)) ++ replicate 4 padChar
  | [s0; s1; s2] =>
      take 5 (encodeBlocks (unpackQuantum s0 s1 s2 0 0)) ++ replicate 3 padChar
  | [s0; s1; s2; s3] =>
      take 7 (encodeBlocks (unpackQuantum s0 s1 s2 s3 0)) ++ replicate 1 padChar
  | s0 :: s1 :: s2 :: s3 :: s4 :: rest =>
      encodeBlocks (unpackQuantum s0 s1 s2 s3 s4) ++ Encode rest
  end.

Fixpoint indexOf (c : Z) (l : list Z) (i : Z) : option Z :=
  match l with
  | [] => None
  | x :: l' => if x =? c then Some i else indexOf c l' (i + 1)
  end.

(** The decoding table: the value of a character of the alphabet, [0xFF]
    for any other byte. *)
Definition decodeMap (c : Z) : Z :=
  match indexOf c encodeHex 0 with
  | Some v => v
  | None => 255
  end.

(** The five bytes of a quantum of eight 5-bit blocks. *)
Definition packQuantum (dbuf : list Z) : list Z :=
  let d i := nth i dbuf 0 in
  [ Z.lor (shl8 (d 0%nat) 3) (shr8 (d 1%nat) 2);
    Z.lor (Z.lor (shl8 (d 1%nat) 6) (shl8 (d 2%nat) 1)) (shr8 (d 3%nat) 4);
    Z.lor (shl8 (d 3%nat) 4) (shr8 (d 4%nat) 1);
    Z.lor (Z.lor (shl8 (d 4%nat) 7) (shl8 (d 5%nat) 2)) (shr8 (d 6%nat) 3);
    Z.lor (shl8 (d 6%nat) 5) (d 7%nat) ].

(** Bytes a quantum of [dlen] characters yields. *)
Definition quantumBytes (dlen : nat) : nat :=
  match dlen with
  | 2 => 1 | 4 => 2 | 5 => 3 | 7 => 4 | 8 => 5
  | _ => 0
  end%nat.

(** [stripNewlines]: the input without its carriage returns and line
    feeds. *)
Fixpoint stripNewlines (src : list Z) : list Z :=
  match src with
  | [] => []
  | c :: src' =>
      if (c =? 13) || (c =? 10) then stripNewlines src'
      else c :: stripNewlines src'
  end.

(** The decoding loop, as the bytes it leaves in [dst[:n]].  [j] counts
    the characters read into the current quantum [dbuf], [out] holds the
    bytes of the quanta completed so far.  At a byte outside the alphabet,
    or when the input ends inside a quantum, decoding stops with an error
    and [n] counts the completed quanta only.  A last quantum of 2, 4, 5 or
    7 characters may be filled up with [=]. *)
Fixpoint decode (src : list Z) (j : nat) (dbuf out : list Z) : list Z :=
  match src with
  | [] => out
  | c :: src' =>
      if (c =? padChar) && (2 <=? j)%nat && (List.length src' <? 8)%nat then
        if (List.length src' + j <? 7)%nat then out
        else if existsb (fun x => negb (x =? padChar)) (take (7 - j) src')
        then out
        else if (j =? 3)%nat || (j =? 6)%nat then out
        else out ++ take (quantumBytes j) (packQuantum dbuf)
      else
        let v := decodeMap c in
        if v =? 255 then out
        else if (j =? 7)%nat
        then decode src' 0%nat [] (out ++ packQuantum (dbuf ++ [v]))
        else decode src' (S j) (dbuf ++ [v]) out
  end.

(** [Decode]: the line breaks are stripped from the whole input, then the
    loop runs. *)
Definition Decode (src : list Z) : list Z :=
  decode (stripNewlines src) 0%nat [] [].

(** [packBase32]: the decoded bytes of [s]; the decoder's error is
    dropped and whatever was decoded before it is kept. *)
Definition packBase32 (s : string) : list Z :=
  Decode (bytes_of_string s).

Definition unpackBase32 (b : list Z) : string :=
  string_of_bytes (Encode b).

(** [strings.ToLower], on the ASCII range (the program applies it to
    base-32 text only). *)
Definition ToLower (s : string) : string :=
  string_of_bytes
    (map (fun c => if (65 <=? c) && (c <=? 90) then c + 32 else c)
       (bytes_of_string s)).

(** ** Resource records (package [dns]) *)

Definition error : Type := string.

Definition TypeA : Z := 1.
Definition TypeNS : Z := 2.
Definition TypeSOA : Z := 6.
Definition TypeTXT : Z := 16.
Definition TypeAAAA : Z := 28.
Definition TypeSRV : Z := 33.
Definition TypeOPT : Z := 41.
Definition TypeRRSIG : Z := 46.
Definition TypeDNSKEY : Z := 48.
Definition TypeNSEC3 : Z := 50.
Definition ClassINET : Z := 1.
Definition RcodeSuccess : Z := 0.
Definition RcodeNameError : Z := 3.
Definition SHA1 : Z := 1.

Record RR_Header : Type := mkHeader {
  hdr_Name : string;
  hdr_Rrtype : Z;
  hdr_Class : Z;
  hdr_Ttl : Z;
  hdr_Rdlength : Z
}.

Record NSEC3 : Type := mkNSEC3 {
  nsec3_Hdr : RR_Header;
  nsec3_Hash : Z;
  nsec3_Flags : Z;
  nsec3_Iterations : Z;
  nsec3_SaltLength : Z;
  nsec3_Salt : string;
  nsec3_HashLength : Z;
  nsec3_NextDomain : string;
  nsec3_TypeBitMap : list Z
}.

Record RRSIG : Type := mkRRSIG {
  rrsig_Hdr : RR_Header;
  rrsig_TypeCovered : Z;
  rrsig_Algorithm : Z;
  rrsig_Labels : Z;
  rrsig_OrigTtl : Z;
  rrsig_Expiration : Z;
  rrsig_Inception : Z;
  rrsig_KeyTag : Z;
  rrsig_SignerName : string;
  rrsig_Signature : string
}.

Record DNSKEY : Type := mkDNSKEY {
  dnskey_Hdr : RR_Header;
  dnskey_Flags : Z;
  dnskey_Protocol : Z;
  dnskey_Algorithm : Z;
  dnskey_PublicKey : string
}.

(** The interface [dns.RR] with the concrete record types the program
    tells apart; [RR_other] stands for every other type. *)
Inductive RR : Type :=
| RR_SOA (h : RR_Header) (ns mbox : string)
         (serial refresh retry expire minttl : Z)
| RR_SRV (h : RR_Header) (priority weight port : Z) (target : string)
| RR_A (h : RR_Header) (a : list Z)
| RR_AAAA (h : RR_Header) (aaaa : list Z)
| RR_NSEC3 (n : NSEC3)
| RR_DNSKEY (k : DNSKEY)
| RR_NS (h : RR_Header) (ns : string)
| RR_TXT (h : RR_Header) (txt : list string)
| RR_RRSIG (sig : RRSIG)
| RR_OPT (h : RR_Header)
| RR_other (h : RR_Header) (rdata : list Z).

Definition Header (r : RR) : RR_Header :=
  match r with
  | RR_SOA h _ _ _ _ _ _ _ => h
  | RR_SRV h _ _ _ _ => h
  | RR_A h _ => h
  | RR_AAAA h _ => h
  | RR_NSEC3 n => nsec3_Hdr n
  | RR_DNSKEY k => dnskey_Hdr k
  | RR_NS h _ => h
  | RR_TXT h _ => h
  | RR_RRSIG sig => rrsig_Hdr sig
  | RR_OPT h => h
  | RR_other h _ => h
  end.

(** The type assertion of [r] to a pointer to [dns.SOA]. *)
Definition is_SOA (r : RR) : bool :=
  match r with
  | RR_SOA _ _ _ _ _ _ _ _ => true
  | _ => false
  end.

Record Question : Type := mkQuestion {
  q_Name : string;
  q_Qtype : Z;
  q_Qclass : Z
}.

Record Msg : Type := mkMsg {
  msg_Rcode : Z;
  msg_Truncated : bool;
  msg_Question : list Question;
  msg_Answer : list RR;
  msg_Ns : list RR;
  msg_Extra : list RR
}.

(** ** What the program calls and does not define

    The operations of package [dns] and of the Go runtime that [dnssec.go]
    uses, left open.
    - [HashName label ha iter salt] is the NSEC3 hash of a name as base-32
      text.
    - [Sign n k sig rrset] is [sig.Sign(k, rrset)]: the record [sig] as the
      call leaves it, and the error.  [n] counts the signing operations made
      before this one: the outcome need not be a function of the arguments
      alone.
    - [ValidityPeriod sig t] is [sig.ValidityPeriod(t)], [t] in seconds
      since the epoch.
    - [Msg_Len m] is [m.Len()].
    - [rangeMap m] is the order in which a [range] over the map [m] visits
      its entries, some enumeration of them. *)
Class Extern : Type := {
  PrivateKey : Type;
  HashName : string -> Z -> Z -> string -> string;
  Sign : nat -> PrivateKey -> RRSIG -> list RR -> RRSIG * option error;
  ValidityPeriod : RRSIG -> Z -> bool;
  Msg_Len : Msg -> Z;
  rangeMap :
    gmap (string * Z) (list RR) -> list ((string * Z) * list RR);
  rangeMap_perm : forall m, rangeMap m ≡ₚ map_to_list m
}.

(** The fields of [s.config] that [dnssec.go] reads.  The two precomputed
    records are pointers, taken to be set. *)
Record Config `{Extern} : Type := mkConfig {
  cfg_Domain : string;
  cfg_PubKey : DNSKEY;
  cfg_KeyTag : Z;
  cfg_PrivKey : PrivateKey;
  cfg_Ttl : Z;
  cfg_MinTtl : Z;
  cfg_ClosestEncloser : NSEC3;
  cfg_DenyWildcard : NSEC3
}.

(** ** The NSEC3 synthesizer *)

Section Synthesizer.
Context `{Extern}.

Definition NewNSEC3NameError (s : Config) (qname : string) : NSEC3 :=
  let covername := HashName qname SHA1 0 "" in
  let buf := packBase32 covername in
  let buf := byteArith buf false in
  let name := ToLower (unpackBase32 buf) +:+ "." +:+ cfg_Domain s in
  let buf := byteArith buf true in
  let buf := byteArith buf true in
  {| nsec3_Hdr := mkHeader name TypeNSEC3 ClassINET (cfg_MinTtl s) 0;
     nsec3_Hash := SHA1; nsec3_Flags := 0; nsec3_Iterations := 0;
     nsec3_SaltLength := 0; nsec3_Salt := ""; nsec3_HashLength := 0;
     nsec3_NextDomain := unpackBase32 buf;
     nsec3_TypeBitMap := [] |}.

Definition NewNSEC3NoData (s : Config) (qname : string) : NSEC3 :=
  let name := HashName qname SHA1 0 "" in
  let buf := packBase32 name in
  let buf := byteArith buf true in
  {| nsec3_Hdr :=
       mkHeader (name +:+ "." +:+ cfg_Domain s) TypeNSEC3 ClassINET
         (cfg_MinTtl s) 0;
     nsec3_Hash := SHA1; nsec3_Flags := 0; nsec3_Iterations := 0;
     nsec3_SaltLength := 0; nsec3_Salt := ""; nsec3_HashLength := 0;
     nsec3_NextDomain := unpackBase32 buf;
     nsec3_TypeBitMap := [] |}.

(** The type bitmap the second record is left with is [nil], which is not
    told apart from an empty slice here. *)
Definition newNSEC3CEandWildcard (apex ce : string) (ttl : Z)
  : NSEC3 * NSEC3 :=
  let name1 := HashName ce SHA1 0 "" +:+ "." +:+ apex in
  let buf := packBase32 name1 in
  let buf := byteArith buf true in
  let n1 :=
    {| nsec3_Hdr := mkHeader name1 TypeNSEC3 ClassINET ttl 0;
       nsec3_Hash := SHA1; nsec3_Flags := 0; nsec3_Iterations := 0;
       nsec3_SaltLength := 0; nsec3_Salt := ""; nsec3_HashLength := 0;
       nsec3_NextDomain := unpackBase32 buf;
       nsec3_TypeBitMap := [] |} in
  let buf := packBase32 ("*." +:+ apex) in
  let buf := byteArith buf false in
  let name2 := ToLower (unpackBase32 buf) +:+ "." +:+ apex in
  let buf := byteArith buf true in
  let buf := byteArith buf true in
  let n2 :=
    {| nsec3_Hdr := mkHeader name2 TypeNSEC3 ClassINET ttl 0;
       nsec3_Hash := SHA1; nsec3_Flags := 0; nsec3_Iterations := 0;
       nsec3_SaltLength := 0; nsec3_Salt := ""; nsec3_HashLength := 0;
       nsec3_NextDomain := unpackBase32 buf;
       nsec3_TypeBitMap := [] |} in
  (n1, n2).

Definition set_Ns (m : Msg) (ns : list RR) : Msg :=
  {| msg_Rcode := msg_Rcode m; msg_Truncated := msg_Truncated m;
     msg_Question := msg_Question m; msg_Answer := msg_Answer m;
     msg_Ns := ns; msg_Extra := msg_Extra m |}.

(** The first block of [Denial]; [m.Question[0]] panics on a message
    without a question. *)
Definition Denial_NameError (s : Config) (m : Msg) : option Msg :=
  if msg_Rcode m =? RcodeNameError then
    q ← head (msg_Question m);
    let nsec3 := NewNSEC3NameError s (q_Name q) in
    let ns := msg_Ns m ++ [RR_NSEC3 nsec3] in
    let ns :=
      if decide (hdr_Name (nsec3_Hdr nsec3)
                 <> hdr_Name (nsec3_Hdr (cfg_ClosestEncloser s)))
      then ns ++ [RR_NSEC3 (cfg_ClosestEncloser s)] else ns in
    let ns :=
      if decide (hdr_Name (nsec3_Hdr nsec3)
                 <> hdr_Name (nsec3_Hdr (cfg_DenyWildcard s)))
      then ns ++ [RR_NSEC3 (cfg_DenyWildcard s)] else ns in
    Some (set_Ns m ns)
  else Some m.

(** The second block of [Denial]. *)
Definition Denial_NoData (s : Config) (m : Msg) : option Msg :=
  if (msg_Rcode m =? RcodeSuccess) && (Z.of_nat (List.length (msg_Ns m)) =? 1)
  then
    r ← head (msg_Ns m);
    if is_SOA r then
      q ← head (msg_Question m);
      Some (set_Ns m (msg_Ns m ++ [RR_NSEC3 (NewNSEC3NoData s (q_Name q))]))
    else Some m
  else Some m.

Definition Denial (s : Config) (m : Msg) : option Msg :=
  m1 ← Denial_NameError s m;
  Denial_NoData s m1.

End Synthesizer.

(** ** The RRset grouper *)

(** [rrSets]: the records of a section grouped by owner name and type, each
    group in the order of the section.  The [nil] map returned for an empty
    section ranges like the empty map and is not told apart from it. *)
Definition rrSets (rrs : list RR) : gmap (string * Z) (list RR) :=
  foldl
    (fun m r =>
       let k := (hdr_Name (Header r), hdr_Rrtype (Header r)) in
       match m !! k with
       | Some s => <[k := s ++ [r]]> m
       | None => <[k := [r]]> m
       end)
    ∅ rrs.

(** ** The signature cache *)

Definition packUint16 (i : Z) : list Z :=
  [Z.shiftr i 8 mod 256; i mod 256].

Definition packUint32 (i : Z) : list Z :=
  [Z.shiftr i 24 mod 256; Z.shiftr i 16 mod 256; Z.shiftr i 8 mod 256;
   i mod 256].

(** The SHA-1 digest of the empty input.  [key] never writes to the hash
    it creates, and [h.Sum(i)] appends the digest of what was written to
    [i]. *)
Definition sha1_empty : list Z :=
  [218; 57; 163; 238; 94; 107; 75; 13; 50; 85;
   191; 239; 149; 96; 24; 144; 175; 216; 7; 9].

(** What one record adds to the key: the body of the type switch. *)
Definition key_fields (r : RR) : list Z :=
  match r with
  | RR_SOA _ _ _ serial _ _ _ _ => packUint32 serial
  | RR_SRV _ priority weight _ target =>
      packUint16 priority ++ packUint16 weight ++ packUint16 weight
        ++ bytes_of_string target
  | RR_A _ a => a
  | RR_AAAA _ aaaa => aaaa
  | RR_NSEC3 n => bytes_of_string (nsec3_NextDomain n)
  | _ => []
  end.

(** [sigCache.key]; [rrs[0]] panics on an empty set. *)
Definition sigCache_key (rrs : list RR) : option string :=
  r0 ← head rrs;
  let i := bytes_of_string (hdr_Name (Header r0))
             ++ packUint16 (hdr_Rrtype (Header r0)) in
  let i := foldl (fun i r => i ++ key_fields r) i rrs in
  Some (string_of_bytes (i ++ sha1_empty)).

Definition newCache : gmap string RRSIG := ∅.

Definition sigCache_remove (c : gmap string RRSIG) (s : string)
  : gmap string RRSIG :=
  delete s c.

Definition sigCache_insert (c : gmap string RRSIG) (s : string) (r : RRSIG)
  : gmap string RRSIG :=
  match c !! s with
  | Some _ => c
  | None => <[s := r]> c
  end.

(** [sigCache.search]: a copy of the stored record, [None] for [nil]. *)
Definition sigCache_search (c : gmap string RRSIG) (s : string)
  : option RRSIG :=
  c !! s.

(** ** The single-flight registry *)

Record call : Type := mkCall {
  call_wg : Z;
  call_val : option RRSIG;
  call_err : option error;
  call_dups : Z
}.

(** [single]: the map from keys to pointers to calls, with the store of the
    calls allocated so far; a pointer is an index into the store.  A [nil]
    map is the empty map. *)
Record single : Type := mkSingle {
  single_m : gmap string nat;
  single_calls : list call
}.

Definition newSingle : single := mkSingle ∅ [].

Inductive role : Type :=
| Leader (c : nat)
| Follower (c : nat).

(** The first critical section of [Do]: a caller that finds a call under
    [key] counts itself in and becomes a follower; otherwise it allocates a
    call, adds one to its wait group and registers it. *)
Definition Do_enter (key : string) (g : single) : single * role :=
  match single_m g !! key with
  | Some c =>
      (mkSingle (single_m g)
         (alter
            (fun cl =>
               mkCall (call_wg cl) (call_val cl) (call_err cl)
                 (call_dups cl + 1))
            c (single_calls g)),
       Follower c)
  | None =>
      let c := List.length (single_calls g) in
      (mkSingle (<[key := c]> (single_m g))
         (single_calls g ++ [mkCall 1 None None 0]),
       Leader c)
  end.

(** The leader runs [fn], stores what it returns in the call and signals
    the wait group.  [fn] acts on the state [W] outside the registry. *)
Definition Do_call {W : Type} (c : nat)
    (fn : W -> W * (RRSIG * option error)) (g : single) (w : W)
  : single * W :=
  let '(w', (v, e)) := fn w in
  (mkSingle (single_m g)
     (alter
        (fun cl => mkCall (call_wg cl - 1) (Some v) e (call_dups cl))
        c (single_calls g)),
   w').

(** The second critical section of the leader, and what it returns. *)
Definition Do_leave (key : string) (c : nat) (g : single)
  : option (single * (option RRSIG * option error * bool)) :=
  cl ← single_calls g !! c;
  Some (mkSingle (delete key (single_m g)) (single_calls g),
        (call_val cl, call_err cl, 0 <? call_dups cl)).

(** A follower waits for the wait group of the call; it is blocked while
    the count is not zero. *)
Definition Do_wait (c : nat) (g : single)
  : option (option RRSIG * option error * bool) :=
  cl ← single_calls g !! c;
  if call_wg cl =? 0 then Some (call_val cl, call_err cl, true) else None.

(** Other callers going through the first critical section of [Do], one
    after the other, with the keys [keys]. *)
Definition others_enter (keys : list string) (g : single) : single :=
  foldl (fun g k => fst (Do_enter k g)) g keys.

(** One call of [Do] among other callers: after this caller's first
    critical section the callers [joins1] enter while [fn] runs, then the
    callers [joins2] between the signal and the second critical section. *)
Definition Do_among {W : Type} (key : string)
    (fn : W -> W * (RRSIG * option error))
    (joins1 joins2 : list string) (g : single) (w : W)
  : option (single * W * (option RRSIG * option error * bool)) :=
  match Do_enter key g with
  | (g1, Leader c) =>
      let g2 := others_enter joins1 g1 in
      let '(g3, w') := Do_call c fn g2 w in
      let g4 := others_enter joins2 g3 in
      '(g5, r) ← Do_leave key c g4;
      Some (g5, w', r)
  | (g1, Follower c) =>
      r ← Do_wait c g1;
      Some (g1, w, r)
  end.

(** [single.Do] with no other caller at work. *)
Definition single_Do {W : Type} (key : string)
    (fn : W -> W * (RRSIG * option error)) (g : single) (w : W)
  : option (single * W * (option RRSIG * option error * bool)) :=
  Do_among key fn [] [] g w.

(** No pointer of the registry dangles. *)
Definition single_wf (g : single) : Prop :=
  forall k c, single_m g !! k = Some c ->
              (c < List.length (single_calls g))%nat.

(** The call [c] is registered under [key] and under no other key. *)
Definition registered (key : string) (c : nat) (g : single) : Prop :=
  single_m g !! key = Some c /\
  (forall k, single_m g !! k = Some c -> k = key) /\
  single_wf g.

(** A stand-in for the operation handed to [Do]: it counts its runs and
    returns the record [v] and the error [e]. *)
Definition countingFn (v : RRSIG) (e : option error)
  : nat -> nat * (RRSIG * option error) :=
  fun n => (S n, (v, e)).

(** ** The signer *)

(** The package-level state: [cache], [inflight], the cache-miss counter,
    and the number of signing operations made so far. *)
Record State : Type := mkState {
  cache : gmap string RRSIG;
  inflight : single;
  StatsDnssecCacheMiss : Z;
  signs : nat
}.

Definition uint32 (x : Z) : Z := x mod 2 ^ 32.

(** The inception and expiration that [sign] computes from the clock,
    [now] in seconds since the epoch. *)
Definition inception (now : Z) : Z := uint32 (now - 3 * 3600).
Definition expiration (now : Z) : Z := uint32 (now + 7 * 24 * 3600).

(** The state [signSet] leaves when it runs the signing operation with no
    call registered under [key] and the operation returns [sig] and [err]:
    the stale entry is gone from the cache and the signature is stored
    unless signing failed, the call allocated for the operation stays in
    the store, unregistered, and both counters went up by one. *)
Definition after_sign (st : State) (key : string) (sig : RRSIG)
    (err : option error) : State :=
  mkState
    (match err with
     | Some _ => delete key (cache st)
     | None => <[key := sig]> (cache st)
     end)
    (mkSingle (single_m (inflight st))
       (single_calls (inflight st) ++ [mkCall 0 (Some sig) err 0]))
    (StatsDnssecCacheMiss st + 1)
    (S (signs st)).

Section Signer.
Context `{Extern}.

Definition NewRRSIG (s : Config) (incep expir : Z) : RRSIG :=
  {| rrsig_Hdr := mkHeader "" TypeRRSIG 0 (cfg_Ttl s) 0;
     rrsig_TypeCovered := 0;
     rrsig_Algorithm := dnskey_Algorithm (cfg_PubKey s);
     rrsig_Labels := 0;
     rrsig_OrigTtl := cfg_Ttl s;
     rrsig_Expiration := expir;
     rrsig_Inception := incep;
     rrsig_KeyTag := cfg_KeyTag s;
     rrsig_SignerName := hdr_Name (dnskey_Hdr (cfg_PubKey s));
     rrsig_Signature := "" |}.

Definition set_Hdr_Ttl (sig : RRSIG) (ttl : Z) : RRSIG :=
  {| rrsig_Hdr :=
       mkHeader (hdr_Name (rrsig_Hdr sig)) (hdr_Rrtype (rrsig_Hdr sig))
         (hdr_Class (rrsig_Hdr sig)) ttl (hdr_Rdlength (rrsig_Hdr sig));
     rrsig_TypeCovered := rrsig_TypeCovered sig;
     rrsig_Algorithm := rrsig_Algorithm sig;
     rrsig_Labels := rrsig_Labels sig;
     rrsig_OrigTtl := rrsig_OrigTtl sig;
     rrsig_Expiration := rrsig_Expiration sig;
     rrsig_Inception := rrsig_Inception sig;
     rrsig_KeyTag := rrsig_KeyTag sig;
     rrsig_SignerName := rrsig_SignerName sig;
     rrsig_Signature := rrsig_Signature sig |}.

Definition set_OrigTtl (sig : RRSIG) (ttl : Z) : RRSIG :=
  {| rrsig_Hdr := rrsig_Hdr sig;
     rrsig_TypeCovered := rrsig_TypeCovered sig;
     rrsig_Algorithm := rrsig_Algorithm sig;
     rrsig_Labels := rrsig_Labels sig;
     rrsig_OrigTtl := ttl;
     rrsig_Expiration := rrsig_Expiration sig;
     rrsig_Inception := rrsig_Inception sig;
     rrsig_KeyTag := rrsig_KeyTag sig;
     rrsig_SignerName := rrsig_SignerName sig;
     rrsig_Signature := rrsig_Signature sig |}.

(** The record the closure of [signSet] builds and hands to [Sign]. *)
Definition signSet_sig1 (s : Config) (r0 : RR) (incep expir : Z) : RRSIG :=
  let sig1 := NewRRSIG s incep expir in
  let sig1 := set_Hdr_Ttl sig1 (hdr_Ttl (Header r0)) in
  if hdr_Rrtype (Header r0) =? TypeTXT then set_OrigTtl sig1 0 else sig1.

(** Whether the lookup of [signSet] at time [now] finds a signature it
    returns: one stored under [key] and valid a day later. *)
Definition cache_fresh (c : gmap string RRSIG) (key : string) (now : Z)
  : bool :=
  match sigCache_search c key with
  | Some sig => ValidityPeriod sig (now + 24 * 3600)
  | None => false
  end.

(** The closure of [signSet], on the count of signing operations. *)
Definition signSet_fn (s : Config) (r0 : RR) (r : list RR) (incep expir : Z)
  : nat -> nat * (RRSIG * option error) :=
  fun n => (S n, Sign n (cfg_PrivKey s) (signSet_sig1 s r0 incep expir) r).

(** [signSet] from the cache miss on: the statistics counter, the
    single-flight call and the insertion into the cache.  A [nil] signature
    without an error would make [dns.Copy] panic. *)
Definition signSet_miss (s : Config) (key : string) (r0 : RR) (r : list RR)
    (incep expir : Z) (st : State) : option (State * (RRSIG + error)) :=
  let misses := StatsDnssecCacheMiss st + 1 in
  match
    single_Do key (signSet_fn s r0 r incep expir) (inflight st) (signs st)
  with
  | None => None
  | Some (g, n, (_, Some e, _)) => Some (mkState (cache st) g misses n, inr e)
  | Some (g, n, (None, None, _)) => None
  | Some (g, n, (Some sig, None, shared)) =>
      let c := if (shared : bool) then cache st
               else sigCache_insert (cache st) key sig in
      Some (mkState c g misses n, inl sig)
  end.

(** [signSet]; [now] is in seconds since the epoch.  A result [inl sig]
    is the return [(sig, nil)], a result [inr e] the return [(nil, e)]. *)
Definition signSet (s : Config) (r : list RR) (now incep expir : Z)
    (st : State) : option (State * (RRSIG + error)) :=
  key ← sigCache_key r;
  r0 ← head r;
  match sigCache_search (cache st) key with
  | Some sig =>
      if ValidityPeriod sig (now + 24 * 3600) then Some (st, inl sig)
      else
        signSet_miss s key r0 r incep expir
          (mkState (sigCache_remove (cache st) key) (inflight st)
             (StatsDnssecCacheMiss st) (signs st))
  | None => signSet_miss s key r0 r incep expir st
  end.

(** One of the three loops of [sign]: the groups [sets] of a section in
    the order the loop visits them, [sec] the section as it grows. *)
Fixpoint signSets (s : Config) (now incep expir : Z)
    (sets : list ((string * Z) * list RR)) (sec : list RR) (st : State)
  : option (State * list RR) :=
  match sets with
  | [] => Some (st, sec)
  | (_, r) :: sets' =>
      r0 ← head r;
      if hdr_Rrtype (Header r0) =? TypeRRSIG
      then signSets s now incep expir sets' sec st
      else
        '(st', res) ← signSet s r now incep expir st;
        match res with
        | inl sig =>
            signSets s now incep expir sets' (sec ++ [RR_RRSIG sig]) st'
        | inr _ => signSets s now incep expir sets' sec st'
        end
  end.

(** The OPT record [sign] appends: [SetDo] sets the DO bit in the header's
    TTL, [SetUDPSize] stores the size in the header's class. *)
Definition optRecord : RR :=
  RR_OPT (mkHeader "." TypeOPT 4096 (Z.lor 0 (Z.shiftl 1 15)) 0).

(** [sign]; [now] is the value read from the clock. *)
Definition sign (s : Config) (m : Msg) (bufsize : Z) (now : Z) (st : State)
  : option (State * Msg) :=
  let incep := inception now in
  let expir := expiration now in
  '(st1, answer) ←
    signSets s now incep expir (rangeMap (rrSets (msg_Answer m)))
      (msg_Answer m) st;
  '(st2, ns) ←
    signSets s now incep expir (rangeMap (rrSets (msg_Ns m))) (msg_Ns m) st1;
  '(st3, extra) ←
    signSets s now incep expir (rangeMap (rrSets (msg_Extra m)))
      (msg_Extra m) st2;
  let m1 := mkMsg (msg_Rcode m) (msg_Truncated m) (msg_Question m)
              answer ns extra in
  let truncated :=
    if (512 <=? bufsize) || (bufsize <=? 4096)
    then bufsize <? Msg_Len m1 else msg_Truncated m1 in
  Some (st3,
        mkMsg (msg_Rcode m) truncated (msg_Question m)
          answer ns (extra ++ [optRecord])).

End Signer.

(** ** The signer among other callers *)

Section SignerAmong.
Context `{Extern}.

(** [signSet] from the cache miss on, with other callers entering [Do]
    while this caller's call is registered: [signSet_miss] with [Do_among]
    for [single_Do]. *)
Definition signSet_miss_among (s : Config) (key : string) (r0 : RR)
    (r : list RR) (incep expir : Z) (joins1 joins2 : list string)
    (st : State) : option (State * (RRSIG + error)) :=
  let misses := StatsDnssecCacheMiss st + 1 in
  match
    Do_among key (signSet_fn s r0 r incep expir) joins1 joins2
      (inflight st) (signs st)
  with
  | None => None
  | Some (g, n, (_, Some e, _)) => Some (mkState (cache st) g misses n, inr e)
  | Some (g, n, (None, None, _)) => None
  | Some (g, n, (Some sig, None, shared)) =>
      let c := if (shared : bool) then cache st
               else sigCache_insert (cache st) key sig in
      Some (mkState c g misses n, inl sig)
  end.

(** [signSet] among other callers. *)
Definition signSet_among (s : Config) (r : list RR) (now incep expir : Z)
    (joins1 joins2 : list string) (st : State)
  : option (State * (RRSIG + error)) :=
  key ← sigCache_key r;
  r0 ← head r;
  match sigCache_search (cache st) key with
  | Some sig =>
      if ValidityPeriod sig (now + 24 * 3600) then Some (st, inl sig)
      else
        signSet_miss_among s key r0 r incep expir joins1 joins2
          (mkState (sigCache_remove (cache st) key) (inflight st)
             (StatsDnssecCacheMiss st) (signs st))
  | None => signSet_miss_among s key r0 r incep expir joins1 joins2 st
  end.

End SignerAmong.

(** ** A concrete environment

    An instance of [Extern] on which the model is evaluated in the examples
    below. *)

Definition year68 : Z := 2 ^ 31.

(** [ValidityPeriod] of package [dns]: inception and expiration are
    compared with [utc] in serial-number arithmetic; the quotients truncate
    toward zero. *)
Definition exampleValidityPeriod (sig : RRSIG) (utc : Z) : bool :=
  let modi := Z.quot (rrsig_Inception sig - utc) year68 in
  let mode := Z.quot (rrsig_Expiration sig - utc) year68 in
  let ti := rrsig_Inception sig + modi * year68 in
  let te := rrsig_Expiration sig + mode * year68 in
  (ti <=? utc) && (utc <=? te).

(** The NSEC3 hashes (SHA-1, no iteration, empty salt) of three names, as
    base-32 text; any other name is given the empty text, which is what
    [HashName] returns on an error. *)
Definition exampleHashName (label : string) (ha iter : Z) (salt : string)
  : string :=
  if String.eqb label "nothere.example.com."
  then "AHDV3DVMRB88KFF20NABB1HVH7JE8EDJ"
  else if String.eqb label "example.com."
  then "ONIB9MGUB9H0RML3CDF5BGRJ59DKJHVK"
  else if String.eqb label "*.example.com."
  then "4F3CNT8CU22TNGEC382JJ4GDE4RB47UB"
  else "".

(** The number of labels of a name in presentation form without escapes,
    as [CountLabel] of package [dns] counts them: none for the root, one
    for each dot otherwise. *)
Definition countLabel (name : string) : Z :=
  if String.eqb name "." then 0
  else Z.of_nat (List.length (filter (fun c => c = 46) (bytes_of_string name))).

(** A stand-in for the signing primitive.  It fails without a key.  With
    one it does to the record what [Sign] of package [dns] does before it
    computes the signature: the owner, the class and the covered type are
    those of the first record, an original TTL of zero is replaced by the
    TTL of the first record and any other is kept, and the labels are those
    of the owner name, the wildcard label apart.  The signature text
    changes from one operation to the next. *)
Definition exampleSign (n : nat) (k : option string) (sig : RRSIG)
    (rrset : list RR) : RRSIG * option error :=
  match k, rrset with
  | Some _, r0 :: _ =>
      ({| rrsig_Hdr :=
            mkHeader (hdr_Name (Header r0)) TypeRRSIG
              (hdr_Class (Header r0)) (hdr_Ttl (rrsig_Hdr sig)) 0;
          rrsig_TypeCovered := hdr_Rrtype (Header r0);
          rrsig_Algorithm := rrsig_Algorithm sig;
          rrsig_Labels :=
            (if String.prefix "*" (hdr_Name (Header r0))
             then (countLabel (hdr_Name (Header r0)) - 1) mod 256
             else countLabel (hdr_Name (Header r0)) mod 256);
          rrsig_OrigTtl :=
            (if rrsig_OrigTtl sig =? 0 then hdr_Ttl (Header r0)
             else rrsig_OrigTtl sig);
          rrsig_Expiration := rrsig_Expiration sig;
          rrsig_Inception := rrsig_Inception sig;
          rrsig_KeyTag := rrsig_KeyTag sig;
          rrsig_SignerName := rrsig_SignerName sig;
          rrsig_Signature :=
            String (ascii_of_nat (48 + n)) EmptyString |},
       None)
  | _, _ => (sig, Some "dns: no key")
  end.

Definition exampleLen (m : Msg) : Z :=
  12 + 32 * Z.of_nat (List.length (msg_Question m) + List.length (msg_Answer m)
                      + List.length (msg_Ns m) + List.length (msg_Extra m)).

#[local] Instance exampleExtern : Extern := {|
  PrivateKey := option string;
  HashName := exampleHashName;
  Sign := exampleSign;
  ValidityPeriod := exampleValidityPeriod;
  Msg_Len := exampleLen;
  rangeMap := map_to_list;
  rangeMap_perm := fun m => reflexivity (map_to_list m)
|}.

Definition examplePubKey : DNSKEY :=
  mkDNSKEY (mkHeader "example.com." TypeDNSKEY ClassINET 3600 0) 256 3 5 "".

Definition exampleConfig (k : option string) : Config :=
  {| cfg_Domain := "example.com.";
     cfg_PubKey := examplePubKey;
     cfg_KeyTag := 12345;
     cfg_PrivKey := k;
     cfg_Ttl := 3600;
     cfg_MinTtl := 60;
     cfg_ClosestEncloser :=
       fst (newNSEC3CEandWildcard "example.com." "example.com." 60);
     cfg_DenyWildcard :=
       snd (newNSEC3CEandWildcard "example.com." "example.com." 60) |}.

Definition exampleState : State := mkState newCache newSingle 0 0%nat.

Definition exampleA (ttl : Z) : RR :=
  RR_A (mkHeader "www.example.com." TypeA ClassINET ttl 0) [192; 0; 2; 1].

Definition exampleTXT (ttl : Z) : RR :=
  RR_TXT (mkHeader "www.example.com." TypeTXT ClassINET ttl 0) ["hello"].

Definition exampleSRV (port : Z) : RR :=
  RR_SRV (mkHeader "_http._tcp.example.com." TypeSRV ClassINET 60 0)
    10 20 port "web.example.com.".

Definition exampleSOA : RR :=
  RR_SOA (mkHeader "example.com." TypeSOA ClassINET 60 0)
    "ns.example.com." "hostmaster.example.com." 1400000000 28800 7200 604800 60.

Definition exampleQuery (rcode : Z) (qname : string) (ns : list RR) : Msg :=
  mkMsg rcode false [mkQuestion qname TypeA ClassINET] [] ns [].

Definition exampleNow : Z := 1400000000.

(** The key of an RRset that is not empty. *)
Definition keyOf (r : list RR) : string := default "" (sigCache_key r).

(** Two calls of [signSet] on the same RRset, one after the other, as
    [sign] makes them at the times [now1] and [now2]. *)
Definition signTwice `{Extern} (s : Config) (r : list RR) (now1 now2 : Z)
    (st : State) : option (State * (RRSIG + error) * (RRSIG + error)) :=
  match signSet s r now1 (inception now1) (expiration now1) st with
  | Some (st1, res1) =>
      match signSet s r now2 (inception now2) (expiration now2) st1 with
      | Some (st2, res2) => Some (st2, res1, res2)
      | None => None
      end
  | None => None
  end.

(** The state after a first, successful call of [signSet] on an address
    record at [exampleNow], and the signature it made. *)
Definition exampleSig : RRSIG :=
  fst (exampleSign 0 (Some "k")
         (signSet_sig1 (exampleConfig (Some "k")) (exampleA 60)
            (inception exampleNow) (expiration exampleNow))
         [exampleA 60]).

Definition exampleSigned : State :=
  mkState (<[keyOf [exampleA 60] := exampleSig]> newCache)
    (mkSingle ∅ [mkCall 0 (Some exampleSig) None 0]) 1 1%nat.

(** A second environment, whose signing primitive fails on the RRsets
    with the key of the text record of the examples, whatever the private
    key, and is [exampleSign] on every other. *)
Definition pickySign (n : nat) (k : option string) (sig : RRSIG)
    (rrset : list RR) : RRSIG * option error :=
  if decide (sigCache_key rrset = Some (keyOf [exampleTXT 60]))
  then (sig, Some "dns: bad signature")
  else exampleSign n k sig rrset.

Definition pickyExtern : Extern := {|
  PrivateKey := option string;
  HashName := exampleHashName;
  Sign := pickySign;
  ValidityPeriod := exampleValidityPeriod;
  Msg_Len := exampleLen;
  rangeMap := map_to_list;
  rangeMap_perm := fun m => reflexivity (map_to_list m)
|}.

Definition pickyConfig : @Config pickyExtern :=
  {| cfg_Domain := "example.com.";
     cfg_PubKey := examplePubKey;
     cfg_KeyTag := 12345;
     cfg_PrivKey := Some "k" : @PrivateKey pickyExtern;
     cfg_Ttl := 3600;
     cfg_MinTtl := 60;
     cfg_ClosestEncloser :=
       fst (@newNSEC3CEandWildcard pickyExtern "example.com." "example.com."
              60);
     cfg_DenyWildcard :=
       snd (@newNSEC3CEandWildcard pickyExtern "example.com." "example.com."
              60) |}.

(** ** Readings used to state properties *)

(** The records of the types whose case in the type switch of
    [sigCache.key] is empty. *)
Definition unkeyed (r : RR) : Prop :=
  match r with
  | RR_DNSKEY _ | RR_NS _ _ | RR_TXT _ _ => True
  | _ => False
  end.

(** The number of groups of a section that [sign] hands to [signSet]:
    the owner names and types of its records, the type RRSIG apart. *)
Definition signable_sets (rrs : list RR) : nat :=
  List.length
    (filter (fun x : (string * Z) * list RR => snd (fst x) <> TypeRRSIG)
       (map_to_list (rrSets rrs))).

(** The key under which [rrSets] files a record. *)
Definition rrset_key (r : RR) : string * Z :=
  (hdr_Name (Header r), hdr_Rrtype (Header r)).

(** The number of groups of a section that [sign] hands to [signSet] and
    whose cache key is not [key]. *)
Definition signable_sets_but (key : string) (rrs : list RR) : nat :=
  List.length
    (filter (fun x : (string * Z) * list RR =>
               snd (fst x) <> TypeRRSIG /\ sigCache_key (snd x) <> Some key)
       (map_to_list (rrSets rrs))).

(** The fields of a signature made at time [now] for an RRset whose
    first record is [r0]: the validity window of [sign], the TTL of [r0] in
    the header, and as original TTL the TTL of the configuration, or the
    TTL of [r0] when the RRset is of type TXT or the configuration has
    none. *)
Definition made_for `{Extern} (s : Config) (now : Z) (r0 : RR) (sig : RRSIG)
  : Prop :=
  rrsig_Inception sig = (now - 3 * 3600) mod 2 ^ 32 /\
  rrsig_Expiration sig = (now + 7 * 24 * 3600) mod 2 ^ 32 /\
  hdr_Ttl (rrsig_Hdr sig) = hdr_Ttl (Header r0) /\
  rrsig_OrigTtl sig =
    (if (hdr_Rrtype (Header r0) =? TypeTXT) || (cfg_Ttl s =? 0)
     then hdr_Ttl (Header r0) else cfg_Ttl s).

(** Whether a group of [sets] that [sign] hands to [signSet] has the key
    [key]. *)
Definition meets (key : string) (sets : list ((string * Z) * list RR))
  : Prop :=
  exists x, x ∈ sets /\ snd (fst x) <> TypeRRSIG /\
            sigCache_key (snd x) = Some key.

(** A signature that [sign] appends to a message [m] at time [now] from
    the state [st]: one the cache of [st] held, or one made at [now] for an
    RRset of a section of [m]. *)
Definition appended `{Extern} (s : Config) (m : Msg) (now : Z) (st : State)
    (sig : RRSIG) : Prop :=
  (exists k, cache st !! k = Some sig) \/
  exists sec k (r0 : RR) (rs : list RR),
    sec ∈ [msg_Answer m; msg_Ns m; msg_Extra m] /\
    rrSets sec !! k = Some (r0 :: rs) /\
    made_for s now r0 sig.

(** What [Sign] of package [dns] does, when it succeeds, to the fields
    that [signSet] stamps on the record: the inception, the expiration and
    the TTL of the header are kept; an original TTL of zero is replaced by
    the TTL of the first record of the RRset, any other is kept. *)
Definition Sign_stamps `{Extern} : Prop :=
  forall n k sig1 (r0 : RR) (rs : list RR) sig,
    Sign n k sig1 (r0 :: rs) = (sig, None) ->
    rrsig_Inception sig = rrsig_Inception sig1 /\
    rrsig_Expiration sig = rrsig_Expiration sig1 /\
    hdr_Ttl (rrsig_Hdr sig) = hdr_Ttl (rrsig_Hdr sig1) /\
    rrsig_OrigTtl sig =
      (if rrsig_OrigTtl sig1 =? 0 then hdr_Ttl (Header r0)
       else rrsig_OrigTtl sig1).


(** The number a slice denotes, least significant byte first. *)
Fixpoint le_value (r : list Z) : Z :=
  match r with
  | [] => 0
  | x :: r' => x + 256 * le_value r'
  end.

(** The number a slice denotes as a big-endian unsigned integer. *)
Definition be_value (b : list Z) : Z := le_value (rev b).


Definition exampleApexDigest : list Z :=
  [197; 228; 180; 218; 30; 90; 98; 13; 218; 163;
   99; 94; 85; 195; 115; 42; 91; 73; 199; 244].

(** * Properties *)

(** ** Theorems on [byteArith] *)

Lemma incLoop_returns (r : list Z) :
  Forall is_byte r -> ~ Forall (fun x => x = 255) r ->
  exists r', incLoop r = (r', true) /\ decLoop r' = r.
Proof.
  induction r as [|x r IH]; intros Hb Hnot.
  - exfalso. apply Hnot. constructor.
  - inversion Hb as [|? ? Hx Hr]; subst. simpl.
    destruct (Z.eqb_spec x 255) as [->|Hne].
    + destruct IH as (r' & Hr' & Hdec); [assumption| |].
      { intros Hall. apply Hnot. constructor; [reflexivity|assumption]. }
      rewrite Hr'. exists (0 :: r'). split; [reflexivity|].
      simpl. now rewrite Hdec.
    + exists ((x + 1) mod 256 :: r). split; [reflexivity|].
      unfold is_byte in Hx. simpl.
      rewrite (Z.mod_small (x + 1)) by lia.
      destruct (Z.eqb_spec (x + 1) 0); [lia|].
      f_equal. rewrite Z.mod_small by lia. lia.
Qed.

Lemma decLoop_then_incLoop (r : list Z) :
  Forall is_byte r -> ~ Forall (fun x => x = 0) r ->
  incLoop (decLoop r) = (r, true).
Proof.
  induction r as [|x r IH]; intros Hb Hnot.
  - exfalso. apply Hnot. constructor.
  - inversion Hb as [|? ? Hx Hr]; subst. simpl.
    destruct (Z.eqb_spec x 0) as [->|Hne].
    + simpl. rewrite IH; [reflexivity|assumption|].
      intros Hall. apply Hnot. constructor; [reflexivity|assumption].
    + unfold is_byte in Hx. simpl.
      rewrite (Z.mod_small (x - 1)) by lia.
      destruct (Z.eqb_spec (x - 1) 255); [lia|].
      do 2 f_equal. rewrite Z.mod_small by lia. lia.
Qed.

Lemma Forall_rev_iff {A} (P : A -> Prop) (l : list A) :
  Forall P (rev l) <-> Forall P l.
Proof.
  split; intros H.
  - rewrite <- (rev_involutive l). now apply Forall_rev.
  - now apply Forall_rev.
Qed.

Lemma byteArith_inc_dec (b : list Z) :
  Forall is_byte b -> ~ Forall (fun x => x = 255) b ->
  byteArith (byteArith b true) false = b.
Proof.
  intros Hb Hnot.
  destruct (incLoop_returns (rev b)) as (r' & Hinc & Hdec).
  - now apply Forall_rev_iff.
  - now rewrite Forall_rev_iff.
  - unfold byteArith. rewrite Hinc. rewrite rev_involutive, Hdec.
    apply rev_involutive.
Qed.

Lemma byteArith_dec_inc (b : list Z) :
  Forall is_byte b -> ~ Forall (fun x => x = 0) b ->
  byteArith (byteArith b false) true = b.
Proof.
  intros Hb Hnot. unfold byteArith. rewrite rev_involutive.
  rewrite decLoop_then_incLoop.
  - apply rev_involutive.
  - now apply Forall_rev_iff.
  - now rewrite Forall_rev_iff.
Qed.

(** C10.  On a slice of bytes, increment followed by decrement gives the
    slice back unless every byte is 0xFF, and decrement followed by
    increment gives it back unless every byte is 0x00. *)
Theorem byteArith_inverse (b : list Z) :
  Forall is_byte b ->
  (~ Forall (fun x => x = 255) b ->
     byteArith (byteArith b true) false = b) /\
  (~ Forall (fun x => x = 0) b ->
     byteArith (byteArith b false) true = b).
Proof.
  intros Hb. split.
  - now apply byteArith_inc_dec.
  - now apply byteArith_dec_inc.
Qed.

Lemma byteArith_inverse_witness :
  byteArith (byteArith [1; 255; 255] true) false = [1; 255; 255] /\
  byteArith (byteArith [1; 0; 0] false) true = [1; 0; 0].
Proof.
  split.
  - apply (byteArith_inverse [1; 255; 255]).
    + repeat constructor; unfold is_byte; lia.
    + intros H. inversion H; lia.
  - apply (byteArith_inverse [1; 0; 0]).
    + repeat constructor; unfold is_byte; lia.
    + intros H. inversion H; lia.
Defined.



(** ** The single-flight registry *)

Section SingleFlight.
Context {W : Type}.
Implicit Types (g : single) (key k : string) (c : nat) (cl : call).
Implicit Types (fn : W -> W * (RRSIG * option error)).

Lemma Do_enter_other key c g cl k :
  registered key c g -> single_calls g !! c = Some cl ->
  registered key c (fst (Do_enter k g)) /\
  single_calls (fst (Do_enter k g)) !! c =
    Some (mkCall (call_wg cl) (call_val cl) (call_err cl)
            (call_dups cl + if decide (k = key) then 1 else 0)).
Proof.
  intros (Hkey & Huniq & Hwf) Hcl. unfold Do_enter.
  destruct (single_m g !! k) as [c'|] eqn:Hk; simpl.
  - split.
    + repeat split; simpl; try assumption.
      intros k0 c0 H0. simpl in *. rewrite length_alter. eapply Hwf, H0.
    + destruct (decide (k = key)) as [->|Hne].
      * assert (c' = c) as -> by congruence.
        rewrite list_lookup_alter_eq, Hcl. reflexivity.
      * rewrite list_lookup_alter_ne.
        { rewrite Hcl. destruct cl; simpl. do 2 f_equal. lia. }
        intros ->. apply Hne. now apply Huniq.
  - assert (k <> key) as Hne by congruence.
    pose proof (Hwf _ _ Hkey) as Hlt.
    split.
    + repeat split; simpl.
      * rewrite lookup_insert_ne by assumption. assumption.
      * intros k0 H0. destruct (decide (k = k0)) as [->|Hk0].
        { rewrite lookup_insert_eq in H0. injection H0 as H0. lia. }
        rewrite lookup_insert_ne in H0 by assumption. now apply Huniq.
      * intros k0 c0 H0. simpl in *. rewrite length_app. simpl.
        destruct (decide (k = k0)) as [->|Hk0].
        { rewrite lookup_insert_eq in H0. injection H0 as H0. lia. }
        rewrite lookup_insert_ne in H0 by assumption.
        pose proof (Hwf _ _ H0). lia.
    + rewrite decide_False by assumption.
      rewrite lookup_app_l by assumption. rewrite Hcl.
      destruct cl; simpl. do 2 f_equal. lia.
Qed.

Lemma others_enter_spec key c keys : forall g cl,
  registered key c g -> single_calls g !! c = Some cl ->
  registered key c (others_enter keys g) /\
  single_calls (others_enter keys g) !! c =
    Some (mkCall (call_wg cl) (call_val cl) (call_err cl)
            (call_dups cl + Z.of_nat (count_occ string_dec keys key))).
Proof.
  induction keys as [|k keys IH]; intros g cl Hreg Hcl.
  - simpl. split; [assumption|]. rewrite Hcl. destruct cl; simpl.
    do 2 f_equal. lia.
  - destruct (Do_enter_other key c g cl k Hreg Hcl) as [Hreg' Hcl'].
    unfold others_enter in *. simpl foldl.
    destruct (IH _ _ Hreg' Hcl') as [Hreg'' Hcl''].
    split; [assumption|]. rewrite Hcl''.
    cbn [call_wg call_val call_err call_dups]. do 2 f_equal.
    destruct (decide (k = key)) as [->|Hne].
    + rewrite count_occ_cons_eq by reflexivity. lia.
    + rewrite count_occ_cons_neq by assumption. lia.
Qed.

Lemma Do_enter_leader key g :
  single_m g !! key = None -> single_wf g ->
  Do_enter key g =
    (mkSingle (<[key := List.length (single_calls g)]> (single_m g))
       (single_calls g ++ [mkCall 1 None None 0]),
     Leader (List.length (single_calls g))) /\
  registered key (List.length (single_calls g)) (fst (Do_enter key g)) /\
  single_calls (fst (Do_enter key g)) !! List.length (single_calls g) =
    Some (mkCall 1 None None 0).
Proof.
  intros Hkey Hwf. unfold Do_enter. rewrite Hkey. simpl.
  split; [reflexivity|]. split.
  - repeat split; simpl.
    + apply lookup_insert_eq.
    + intros k H0. destruct (decide (key = k)) as [->|Hne]; [reflexivity|].
      rewrite lookup_insert_ne in H0 by assumption.
      pose proof (Hwf _ _ H0). lia.
    + intros k c H0. simpl in *. rewrite length_app. simpl.
      destruct (decide (key = k)) as [->|Hne].
      * rewrite lookup_insert_eq in H0. injection H0 as H0. lia.
      * rewrite lookup_insert_ne in H0 by assumption.
        pose proof (Hwf _ _ H0). lia.
  - apply list_lookup_middle. reflexivity.
Qed.

Lemma joined_count key (keys : list string) :
  (0 <? Z.of_nat (count_occ string_dec keys key)) = bool_decide (key ∈ keys).
Proof.
  case_bool_decide as Hin.
  - apply list_elem_of_In in Hin.
    apply (count_occ_In string_dec) in Hin. apply Z.ltb_lt. lia.
  - apply Z.ltb_ge.
    destruct (count_occ string_dec keys key) eqn:Hc; [lia|].
    exfalso. apply Hin, list_elem_of_In, (count_occ_In string_dec). lia.
Qed.

Lemma registered_alter key c g (f : call -> call) c' :
  registered key c g ->
  registered key c (mkSingle (single_m g) (alter f c' (single_calls g))).
Proof.
  intros (Hkey & Huniq & Hwf). repeat split; simpl; try assumption.
  intros k0 c0 H0. simpl in *. rewrite length_alter. eapply Hwf, H0.
Qed.

(** C9, as the code has it.  A caller of [Do] that finds no call under
    its key runs the operation once on the state it is given, gets back what
    the operation returned, and leaves the key unregistered; the flag it
    returns tells whether another caller joined the key while the call was
    registered. *)
Theorem Do_leader_spec key fn (joins1 joins2 : list string) g (w : W) :
  single_m g !! key = None -> single_wf g ->
  exists g',
    Do_among key fn joins1 joins2 g w =
      Some (g', fst (fn w),
            (Some (fst (snd (fn w))), snd (snd (fn w)),
             bool_decide (key ∈ joins1 ++ joins2))) /\
    single_m g' !! key = None.
Proof.
  intros Hkey Hwf.
  destruct (Do_enter_leader key g Hkey Hwf) as (Henter & Hreg & Hcl).
  unfold Do_among. rewrite Henter in *. simpl fst in *.
  set (c := List.length (single_calls g)) in *.
  destruct (others_enter_spec key c joins1 _ _ Hreg Hcl) as [Hreg1 Hcl1].
  simpl in Hcl1.
  unfold Do_call. destruct (fn w) as [w' [v e]]. simpl.
  set (g3 := mkSingle _ (alter _ c _)).
  assert (registered key c g3) as Hreg3 by now apply registered_alter.
  assert (single_calls g3 !! c =
            Some (mkCall 0 (Some v) e
                    (Z.of_nat (count_occ string_dec joins1 key)))) as Hcl3.
  { unfold g3. simpl. rewrite list_lookup_alter_eq, Hcl1. reflexivity. }
  destruct (others_enter_spec key c joins2 _ _ Hreg3 Hcl3) as [Hreg4 Hcl4].
  simpl in Hcl4. unfold Do_leave. rewrite Hcl4. simpl.
  eexists. split.
  - do 4 f_equal. rewrite <- joined_count, count_occ_app.
    f_equal. lia.
  - simpl. apply lookup_delete_eq.
Qed.

Lemma single_Do_idle key fn g (w : W) :
  single_m g !! key = None ->
  single_Do key fn g w =
    Some (mkSingle (single_m g)
            (single_calls g
               ++ [mkCall 0 (Some (fst (snd (fn w)))) (snd (snd (fn w))) 0]),
          fst (fn w),
          (Some (fst (snd (fn w))), snd (snd (fn w)), false)).
Proof.
  intros Hkey. unfold single_Do, Do_among, Do_enter. rewrite Hkey.
  simpl. unfold Do_call. destruct (fn w) as [w' [v e]]. simpl.
  unfold Do_leave. simpl.
  replace (List.length (single_calls g))
    with (List.length (single_calls g) + 0)%nat by lia.
  rewrite alter_app_r. simpl.
  rewrite lookup_app_r by lia.
  replace (List.length (single_calls g) + 0 - List.length (single_calls g))%nat
    with 0%nat by lia.
  simpl. rewrite delete_insert_id by assumption. reflexivity.
Qed.

End SingleFlight.

Lemma Do_leader_spec_witness :
  exists g',
    Do_among "k" (countingFn (NewRRSIG (exampleConfig None) 0 0) None)
      ["a"; "k"] [] newSingle 0%nat =
      Some (g', 1%nat,
            (Some (NewRRSIG (exampleConfig None) 0 0), None, true)) /\
    single_m g' !! "k" = None.
Proof.
  apply (Do_leader_spec "k"
           (countingFn (NewRRSIG (exampleConfig None) 0 0) None)
           ["a"; "k"] [] newSingle 0%nat).
  - reflexivity.
  - intros k c Hk. simpl in Hk. rewrite lookup_empty in Hk. discriminate.
Defined.

(** C9, as stated, fails: no call is registered under the key when the
    caller enters, another caller joins the key while the operation runs,
    and the flag returned to the first caller is [true]. *)
Lemma Do_leader_shared :
  single_m newSingle !! "k" = None /\
  (fun r => snd (snd r))
    <$> Do_among "k" (countingFn (NewRRSIG (exampleConfig None) 0 0) None)
          ["k"] [] newSingle 0%nat
  = Some true.
Proof. split; reflexivity. Qed.

(** ** The signer and the cache *)

Section SignerProperties.
Context `{Extern}.
Implicit Types (s : Config) (st : State) (key : string) (r : list RR).
Implicit Types (rs : list RR) (sig : RRSIG) (e : error).
Lemma signSet_miss_idle s key (r0 : RR) r incep expir st :
  single_m (inflight st) !! key = None ->
  cache st !! key = None ->
  signSet_miss s key r0 r incep expir st =
    let res := Sign (signs st) (cfg_PrivKey s)
                 (signSet_sig1 s r0 incep expir) r in
    Some (after_sign st key (fst res) (snd res),
          match snd res with
          | Some e => inr e
          | None => inl (fst res)
          end).
Proof.
  intros Hidle Hcache. unfold signSet_miss.
  rewrite single_Do_idle by assumption.
  unfold signSet_fn, after_sign. simpl.
  destruct (Sign _ _ _ _) as [sig [e|]]; simpl.
  - rewrite delete_id by assumption. reflexivity.
  - unfold sigCache_insert. rewrite Hcache. reflexivity.
Qed.

Lemma signSet_signs s (r0 : RR) rs now incep expir st key :
  sigCache_key (r0 :: rs) = Some key ->
  cache_fresh (cache st) key now = false ->
  single_m (inflight st) !! key = None ->
  signSet s (r0 :: rs) now incep expir st =
    let res := Sign (signs st) (cfg_PrivKey s)
                 (signSet_sig1 s r0 incep expir) (r0 :: rs) in
    Some (after_sign st key (fst res) (snd res),
          match snd res with
          | Some e => inr e
          | None => inl (fst res)
          end).
Proof.
  intros Hkey Hfresh Hidle. unfold signSet. rewrite Hkey. simpl.
  unfold cache_fresh, sigCache_search in *.
  destruct (cache st !! key) as [old|] eqn:Hold.
  - rewrite Hfresh.
    rewrite signSet_miss_idle; simpl; try assumption.
    + unfold after_sign, sigCache_remove. simpl.
      destruct (snd (Sign _ _ _ _)); simpl.
      * rewrite delete_delete_eq. reflexivity.
      * rewrite insert_delete_eq. reflexivity.
    + apply lookup_delete_eq.
  - rewrite signSet_miss_idle by assumption. reflexivity.
Qed.

Lemma signSet_hit s (r0 : RR) rs now incep expir st key sig :
  sigCache_key (r0 :: rs) = Some key ->
  cache st !! key = Some sig ->
  ValidityPeriod sig (now + 24 * 3600) = true ->
  signSet s (r0 :: rs) now incep expir st = Some (st, inl sig).
Proof.
  intros Hkey Hsig Hvalid. unfold signSet. rewrite Hkey. simpl.
  unfold sigCache_search. rewrite Hsig, Hvalid. reflexivity.
Qed.

Lemma signSet_then_hit s (r0 r0' : RR) rs rs' now1 incep1 expir1
    now2 incep2 expir2 st key sig :
  sigCache_key (r0 :: rs) = Some key ->
  sigCache_key (r0' :: rs') = Some key ->
  cache_fresh (cache st) key now1 = false ->
  single_m (inflight st) !! key = None ->
  Sign (signs st) (cfg_PrivKey s) (signSet_sig1 s r0 incep1 expir1)
    (r0 :: rs) = (sig, None) ->
  ValidityPeriod sig (now2 + 24 * 3600) = true ->
  exists st1,
    signSet s (r0 :: rs) now1 incep1 expir1 st = Some (st1, inl sig) /\
    signSet s (r0' :: rs') now2 incep2 expir2 st1 = Some (st1, inl sig) /\
    signs st1 = S (signs st).
Proof.
  intros Hkey Hkey' Hfresh Hidle Hsign Hvalid.
  rewrite (signSet_signs s r0 rs now1 incep1 expir1 st key) by assumption.
  rewrite Hsign. simpl. eexists. split; [reflexivity|]. split.
  - apply (signSet_hit _ _ _ _ _ _ _ key); [assumption| |assumption].
    simpl. apply lookup_insert_eq.
  - reflexivity.
Qed.

(** C3, as the code has it.  When the first call of [signSet] on an RRset
    finds no signature it can return and the signing operation succeeds, a
    second call on the same RRset at a time [now2] such that the signature
    is still valid a day after [now2] returns the same signature and leaves
    the state as the first call left it: the signing operation ran once, and
    the second call went through neither the registry nor the signer. *)
Theorem signSet_twice s (r0 : RR) rs now1 incep1 expir1 now2 incep2 expir2
    st key sig :
  sigCache_key (r0 :: rs) = Some key ->
  cache_fresh (cache st) key now1 = false ->
  single_m (inflight st) !! key = None ->
  Sign (signs st) (cfg_PrivKey s) (signSet_sig1 s r0 incep1 expir1)
    (r0 :: rs) = (sig, None) ->
  ValidityPeriod sig (now2 + 24 * 3600) = true ->
  exists st1,
    signSet s (r0 :: rs) now1 incep1 expir1 st = Some (st1, inl sig) /\
    signSet s (r0 :: rs) now2 incep2 expir2 st1 = Some (st1, inl sig) /\
    signs st1 = S (signs st).
Proof.
  intros Hkey. now apply signSet_then_hit.
Qed.

(** C5.  When the lookup of [signSet] finds a signature under the key of
    the RRset: if it is valid a day after [now], [signSet] returns it and
    changes nothing; if it is not, [signSet] does what it does on the state
    without that entry, the signing operation runs, and afterwards the cache
    holds under the key the new signature, or nothing when signing
    failed. *)
Theorem signSet_cache_lookup s (r0 : RR) rs now incep expir st key sig :
  sigCache_key (r0 :: rs) = Some key ->
  cache st !! key = Some sig ->
  (ValidityPeriod sig (now + 24 * 3600) = true ->
     signSet s (r0 :: rs) now incep expir st = Some (st, inl sig)) /\
  (ValidityPeriod sig (now + 24 * 3600) = false ->
     single_m (inflight st) !! key = None ->
     exists st' res,
       signSet s (r0 :: rs) now incep expir st = Some (st', res) /\
       signSet s (r0 :: rs) now incep expir
         (mkState (sigCache_remove (cache st) key) (inflight st)
            (StatsDnssecCacheMiss st) (signs st)) = Some (st', res) /\
       signs st' = S (signs st) /\
       StatsDnssecCacheMiss st' = StatsDnssecCacheMiss st + 1 /\
       res = match Sign (signs st) (cfg_PrivKey s)
                     (signSet_sig1 s r0 incep expir) (r0 :: rs) with
             | (_, Some e) => inr e
             | (sig', None) => inl sig'
             end /\
       cache st' !! key = match res with
                          | inl sig' => Some sig'
                          | inr _ => None
                          end).
Proof.
  intros Hkey Hsig. split.
  - intros Hvalid. now apply (signSet_hit _ _ _ _ _ _ _ key).
  - intros Hstale Hidle.
    assert (cache_fresh (cache st) key now = false) as Hfresh.
    { unfold cache_fresh, sigCache_search. now rewrite Hsig. }
    rewrite (signSet_signs s r0 rs now incep expir st key) by assumption.
    rewrite (signSet_signs s r0 rs now incep expir _ key); try assumption.
    2:{ unfold cache_fresh, sigCache_search, sigCache_remove. simpl.
        now rewrite lookup_delete_eq. }
    simpl. unfold sigCache_remove.
    destruct (Sign _ _ _ _) as [sig' [e|]]; simpl.
    + eexists _, _. split; [reflexivity|]. split.
      { unfold after_sign. simpl. now rewrite delete_delete_eq. }
      repeat split. simpl. apply lookup_delete_eq.
    + eexists _, _. split; [reflexivity|]. split.
      { unfold after_sign. simpl. now rewrite insert_delete_eq. }
      repeat split. simpl. apply lookup_insert_eq.
Qed.

Lemma sigCache_key_SRV_port (h : RR_Header) (priority weight port1 port2 : Z)
    (target : string) :
  sigCache_key [RR_SRV h priority weight port1 target] =
  sigCache_key [RR_SRV h priority weight port2 target].
Proof. reflexivity. Qed.

(** C6.  Two SRV RRsets that differ in the port only have the same key,
    and a signature made and cached for the first is what [signSet] returns
    for the second, without signing. *)
Theorem key_ignores_port :
  exists (h : RR_Header) (priority weight port1 port2 : Z) (target : string),
    port1 <> port2 /\
    sigCache_key [RR_SRV h priority weight port1 target] =
    sigCache_key [RR_SRV h priority weight port2 target] /\
    forall s now1 incep1 expir1 now2 incep2 expir2 st key sig,
      sigCache_key [RR_SRV h priority weight port1 target] = Some key ->
      cache_fresh (cache st) key now1 = false ->
      single_m (inflight st) !! key = None ->
      Sign (signs st) (cfg_PrivKey s)
        (signSet_sig1 s (RR_SRV h priority weight port1 target) incep1 expir1)
        [RR_SRV h priority weight port1 target] = (sig, None) ->
      ValidityPeriod sig (now2 + 24 * 3600) = true ->
      exists st1,
        signSet s [RR_SRV h priority weight port1 target]
          now1 incep1 expir1 st = Some (st1, inl sig) /\
        signSet s [RR_SRV h priority weight port2 target]
          now2 incep2 expir2 st1 = Some (st1, inl sig) /\
        signs st1 = S (signs st).
Proof.
  exists (mkHeader "_http._tcp.example.com." TypeSRV ClassINET 60 0),
    10, 20, 80, 8080, "web.example.com.".
  split; [lia|]. split; [apply sigCache_key_SRV_port|].
  intros s now1 incep1 expir1 now2 incep2 expir2 st key sig Hkey.
  apply signSet_then_hit; [assumption|].
  rewrite <- Hkey. apply sigCache_key_SRV_port.
Qed.

Lemma rrSets_nonempty (rrs : list RR) (k : string * Z) (r : list RR) :
  rrSets rrs !! k = Some r -> r <> [].
Proof.
  unfold rrSets.
  assert (forall (m : gmap (string * Z) (list RR)),
             (forall k r, m !! k = Some r -> r <> []) ->
             forall k r,
               foldl
                 (fun m x =>
                    let k := (hdr_Name (Header x), hdr_Rrtype (Header x)) in
                    match m !! k with
                    | Some l => <[k := l ++ [x]]> m
                    | None => <[k := [x]]> m
                    end) m rrs !! k = Some r -> r <> []) as Hgen.
  { induction rrs as [|a rrs IH]; intros m Hm k' r'; simpl.
    - apply Hm.
    - apply IH. intros k1 r1.
      destruct (m !! (hdr_Name (Header a), hdr_Rrtype (Header a))) eqn:Ha;
        (destruct (decide ((hdr_Name (Header a), hdr_Rrtype (Header a)) = k1))
          as [<-|Hne];
         [rewrite lookup_insert_eq; intros [= <-]
         |rewrite lookup_insert_ne by assumption; apply Hm]).
      + intros Habs. now apply app_eq_nil in Habs as [_ ?].
      + discriminate. }
  apply Hgen. intros k' r'. rewrite lookup_empty. discriminate.
Qed.

Lemma rangeMap_rrSets_nonempty (rrs : list RR) :
  Forall (fun x => snd x <> []) (rangeMap (rrSets rrs)).
Proof.
  apply Forall_forall. intros [k r] Hin. simpl.
  rewrite rangeMap_perm in Hin.
  apply elem_of_map_to_list in Hin. now apply rrSets_nonempty in Hin.
Qed.

Lemma sigCache_key_cons (r0 : RR) rs : is_Some (sigCache_key (r0 :: rs)).
Proof. unfold sigCache_key. simpl. eexists. reflexivity. Qed.

Lemma signSet_total s (r0 : RR) rs now incep expir st :
  single_m (inflight st) = ∅ ->
  exists st' res,
    signSet s (r0 :: rs) now incep expir st = Some (st', res) /\
    single_m (inflight st') = ∅.
Proof.
  intros Hidle. destruct (sigCache_key_cons r0 rs) as [key Hkey].
  destruct (cache_fresh (cache st) key now) eqn:Hfresh.
  - unfold cache_fresh, sigCache_search in Hfresh.
    destruct (cache st !! key) as [sig|] eqn:Hsig; [|discriminate].
    exists st, (inl sig). split; [|assumption].
    now apply (signSet_hit _ _ _ _ _ _ _ key).
  - rewrite (signSet_signs s r0 rs now incep expir st key); try assumption.
    + simpl. eexists _, _. split; [reflexivity|]. assumption.
    + rewrite Hidle. apply lookup_empty.
Qed.

Lemma signSets_total s now incep expir sets : forall sec st,
  Forall (fun x => snd x <> []) sets ->
  single_m (inflight st) = ∅ ->
  exists st' sec',
    signSets s now incep expir sets sec st = Some (st', sec') /\
    single_m (inflight st') = ∅.
Proof.
  induction sets as [|[k r] sets IH]; intros sec st Hne Hidle.
  - simpl. eauto.
  - inversion Hne as [|? ? Hr Hsets]; subst. simpl in Hr.
    destruct r as [|r0 rs]; [congruence|]. simpl.
    destruct (hdr_Rrtype (Header r0) =? TypeRRSIG).
    + now apply IH.
    + destruct (signSet_total s r0 rs now incep expir st Hidle)
        as (st' & res & Hset & Hidle').
      rewrite Hset. simpl. destruct res; now apply IH.
Qed.

Lemma sign_total s (m : Msg) (bufsize now : Z) st :
  single_m (inflight st) = ∅ -> is_Some (sign s m bufsize now st).
Proof.
  intros Hidle. unfold sign.
  destruct (signSets_total s now (inception now) (expiration now)
              (rangeMap (rrSets (msg_Answer m))) (msg_Answer m) st)
    as (st1 & answer & -> & Hidle1);
    [apply rangeMap_rrSets_nonempty|assumption|]. simpl.
  destruct (signSets_total s now (inception now) (expiration now)
              (rangeMap (rrSets (msg_Ns m))) (msg_Ns m) st1)
    as (st2 & ns & -> & Hidle2);
    [apply rangeMap_rrSets_nonempty|assumption|]. simpl.
  destruct (signSets_total s now (inception now) (expiration now)
              (rangeMap (rrSets (msg_Extra m))) (msg_Extra m) st2)
    as (st3 & extra & -> & Hidle3);
    [apply rangeMap_rrSets_nonempty|assumption|]. simpl.
  eexists. reflexivity.
Qed.

End SignerProperties.

(** ** Base-32 decoding yields bytes *)

Lemma shl8_byte (b n : Z) : is_byte (shl8 b n).
Proof. unfold is_byte, shl8. apply Z.mod_pos_bound. lia. Qed.

Lemma shr8_byte (b n : Z) : is_byte b -> 0 <= n -> is_byte (shr8 b n).
Proof.
  unfold is_byte, shr8. intros Hb Hn. rewrite Z.shiftr_div_pow2 by assumption.
  split.
  - apply Z.div_pos; [lia|]. apply Z.pow_pos_nonneg; lia.
  - apply Z.le_lt_trans with b; [|lia].
    apply Z.div_le_upper_bound; [apply Z.pow_pos_nonneg; lia|].
    assert (1 <= 2 ^ n) by (apply Z.lt_pred_le, Z.pow_pos_nonneg; lia).
    nia.
Qed.

Lemma lor_byte (a b : Z) : is_byte a -> is_byte b -> is_byte (Z.lor a b).
Proof.
  unfold is_byte. intros Ha Hb. split; [apply Z.lor_nonneg; lia|].
  destruct (Z.eq_dec a 0) as [->|Ha0]; [rewrite Z.lor_0_l; lia|].
  destruct (Z.eq_dec b 0) as [->|Hb0]; [rewrite Z.lor_0_r; lia|].
  change 256 with (2 ^ 8).
  apply Z.log2_lt_pow2.
  - assert (0 <= Z.lor a b) by (apply Z.lor_nonneg; lia).
    assert (Z.lor a b <> 0) by (rewrite Z.lor_eq_0_iff; lia). lia.
  - rewrite Z.log2_lor by lia.
    apply Z.max_lub_lt; apply Z.log2_lt_pow2; lia.
Qed.

Lemma nth_block (dbuf : list Z) (i : nat) :
  Forall (fun x => 0 <= x < 32) dbuf -> 0 <= nth i dbuf 0 < 32.
Proof.
  intros Hd. destruct (nth_in_or_default i dbuf 0) as [Hin| ->]; [|lia].
  rewrite Forall_forall in Hd. apply Hd. now apply list_elem_of_In.
Qed.

Lemma packQuantum_bytes (dbuf : list Z) :
  Forall (fun x => 0 <= x < 32) dbuf -> Forall is_byte (packQuantum dbuf).
Proof.
  intros Hd. unfold packQuantum.
  assert (forall i, is_byte (nth i dbuf 0)) as Hb.
  { intros i. pose proof (nth_block dbuf i Hd). unfold is_byte. lia. }
  repeat constructor;
    repeat first [apply lor_byte | apply shl8_byte | apply shr8_byte
                 | apply Hb | lia].
Qed.

Lemma indexOf_range (c : Z) (l : list Z) : forall i v,
  indexOf c l i = Some v -> i <= v < i + Z.of_nat (List.length l).
Proof.
  induction l as [|x l IH]; intros i v; simpl; [discriminate|].
  destruct (x =? c).
  - intros [= <-]. lia.
  - intros Hv. apply IH in Hv. lia.
Qed.

Lemma decodeMap_range (c : Z) :
  decodeMap c = 255 \/ 0 <= decodeMap c < 32.
Proof.
  unfold decodeMap. destruct (indexOf c encodeHex 0) as [v|] eqn:Hv.
  - right. apply indexOf_range in Hv. simpl in Hv. lia.
  - now left.
Qed.

Lemma decode_bytes (src : list Z) : forall j dbuf out,
  Forall is_byte out -> Forall (fun x => 0 <= x < 32) dbuf ->
  Forall is_byte (decode src j dbuf out).
Proof.
  induction src as [|c src IH]; intros j dbuf out Hout Hd; simpl.
  - assumption.
  - assert (Forall is_byte (out ++ packQuantum dbuf)) as Hfull.
    { apply Forall_app. split; [assumption|]. now apply packQuantum_bytes. }
    repeat match goal with
           | |- Forall _ (if ?b then _ else _) => destruct b eqn:?
           end;
      try assumption; try (now apply IH).
    + apply Forall_app. split; [assumption|].
      apply Forall_take. now apply packQuantum_bytes.
    + destruct (decodeMap_range c) as [Hv|Hv]; [rewrite Hv in *; discriminate|].
      apply IH; [|constructor].
      apply Forall_app. split; [assumption|]. apply packQuantum_bytes.
      apply Forall_app. split; [assumption|]. now constructor.
    + destruct (decodeMap_range c) as [Hv|Hv]; [rewrite Hv in *; discriminate|].
      apply IH; [assumption|].
      apply Forall_app. split; [assumption|]. now constructor.
Qed.

Lemma packBase32_bytes (s : string) : Forall is_byte (packBase32 s).
Proof. apply decode_bytes; constructor. Qed.

(** ** The NSEC3 synthesizer *)

Section SynthesizerProperties.
Context `{Extern}.
Implicit Types (s : Config) (m : Msg) (q : Question).

(** C1, as the code has it.  For a name-error reply, the record that
    [NewNSEC3NameError] makes for the question's name is owned by the
    lower-cased base-32 text of the hash decremented once, under the zone,
    and its next hashed owner name is the text of that decremented value
    incremented twice: the hash incremented once, unless the hash is all
    zero.  [Denial] appends that record to the authority section, then the
    closest-encloser record and the wildcard-denial record, each unless its
    owner name is the owner name of the new record: the authority section of
    the message returned is the one received followed by these records, and
    the rest of the message is as received. *)
Theorem Denial_NameError_spec s m q (qs : list Question) :
  msg_Rcode m = RcodeNameError ->
  msg_Question m = q :: qs ->
  let h := packBase32 (HashName (q_Name q) SHA1 0 "") in
  let n := NewNSEC3NameError s (q_Name q) in
  hdr_Name (nsec3_Hdr n) =
    ToLower (unpackBase32 (byteArith h false)) +:+ "." +:+ cfg_Domain s /\
  nsec3_NextDomain n =
    unpackBase32 (byteArith (byteArith (byteArith h false) true) true) /\
  (~ Forall (fun x => x = 0) h ->
   nsec3_NextDomain n = unpackBase32 (byteArith h true)) /\
  Denial s m =
    Some (set_Ns m
            (msg_Ns m ++ [RR_NSEC3 n]
             ++ (if decide (hdr_Name (nsec3_Hdr n)
                            = hdr_Name (nsec3_Hdr (cfg_ClosestEncloser s)))
                 then [] else [RR_NSEC3 (cfg_ClosestEncloser s)])
             ++ (if decide (hdr_Name (nsec3_Hdr n)
                            = hdr_Name (nsec3_Hdr (cfg_DenyWildcard s)))
                 then [] else [RR_NSEC3 (cfg_DenyWildcard s)]))) /\
  exists m',
    Denial s m = Some m' /\
    msg_Ns m' =
      msg_Ns m ++ [RR_NSEC3 n]
      ++ (if decide (hdr_Name (nsec3_Hdr n)
                     = hdr_Name (nsec3_Hdr (cfg_ClosestEncloser s)))
          then [] else [RR_NSEC3 (cfg_ClosestEncloser s)])
      ++ (if decide (hdr_Name (nsec3_Hdr n)
                     = hdr_Name (nsec3_Hdr (cfg_DenyWildcard s)))
          then [] else [RR_NSEC3 (cfg_DenyWildcard s)]) /\
    msg_Rcode m' = msg_Rcode m /\
    msg_Truncated m' = msg_Truncated m /\
    msg_Question m' = msg_Question m /\
    msg_Answer m' = msg_Answer m /\
    msg_Extra m' = msg_Extra m.
Proof.
  intros Hrcode Hq h n. split; [reflexivity|]. split; [reflexivity|]. split.
  { intros Hnz. subst n h. unfold NewNSEC3NameError.
    cbn [nsec3_NextDomain].
    rewrite byteArith_dec_inc; [reflexivity| |assumption].
    apply packBase32_bytes. }
  assert (Hdenial :
    Denial s m =
      Some (set_Ns m
              (msg_Ns m ++ [RR_NSEC3 n]
               ++ (if decide (hdr_Name (nsec3_Hdr n)
                              = hdr_Name (nsec3_Hdr (cfg_ClosestEncloser s)))
                   then [] else [RR_NSEC3 (cfg_ClosestEncloser s)])
               ++ (if decide (hdr_Name (nsec3_Hdr n)
                              = hdr_Name (nsec3_Hdr (cfg_DenyWildcard s)))
                   then [] else [RR_NSEC3 (cfg_DenyWildcard s)])))).
  { unfold Denial, Denial_NameError. rewrite Hrcode, Hq. simpl. fold n.
    unfold Denial_NoData. simpl. rewrite Hrcode. simpl.
    f_equal. f_equal.
    repeat case_decide; try contradiction;
      rewrite <- ?app_assoc; simpl; rewrite ?app_nil_r; reflexivity. }
  split; [exact Hdenial|].
  eexists. split; [exact Hdenial|]. repeat split.
Qed.

(** C2, what the code does.  The second record of
    [newNSEC3CEandWildcard] is owned by the empty label under the apex and
    has the empty text as next hashed owner name, whatever the apex: the
    name of the wildcard is handed to the base-32 decoder as it is, and the
    decoder stops at its first character. *)
Theorem wildcard_denial_unhashed (apex ce : string) (ttl : Z) :
  hdr_Name (nsec3_Hdr (snd (newNSEC3CEandWildcard apex ce ttl)))
    = "." +:+ apex /\
  nsec3_NextDomain (snd (newNSEC3CEandWildcard apex ce ttl)) = "".
Proof. split; reflexivity. Qed.

End SynthesizerProperties.

(** ** The theorems at concrete inputs *)

Lemma Denial_NameError_spec_witness :
  let s := exampleConfig None in
  let m := exampleQuery RcodeNameError "nothere.example.com." [exampleSOA] in
  let n := NewNSEC3NameError s "nothere.example.com." in
  hdr_Name (nsec3_Hdr n) = "ahdv3dvmrb88kff20nabb1hvh7je8edi.example.com." /\
  nsec3_NextDomain n = "AHDV3DVMRB88KFF20NABB1HVH7JE8EDK" /\
  nsec3_NextDomain n =
    unpackBase32
      (byteArith (packBase32 (HashName "nothere.example.com." SHA1 0 "")) true)
  /\
  Denial s m =
    Some (set_Ns m
            [exampleSOA; RR_NSEC3 n; RR_NSEC3 (cfg_ClosestEncloser s);
             RR_NSEC3 (cfg_DenyWildcard s)]) /\
  exists m',
    Denial s m = Some m' /\
    msg_Ns m' =
      [exampleSOA; RR_NSEC3 n; RR_NSEC3 (cfg_ClosestEncloser s);
       RR_NSEC3 (cfg_DenyWildcard s)] /\
    msg_Rcode m' = RcodeNameError /\
    msg_Truncated m' = false /\
    msg_Question m' = msg_Question m /\
    msg_Answer m' = [] /\
    msg_Extra m' = [].
Proof.
  intros s m n.
  destruct (Denial_NameError_spec s m
              (mkQuestion "nothere.example.com." TypeA ClassINET) []
              eq_refl eq_refl) as (Howner & Hnext & Hone & Hdenial & Hns).
  split; [exact Howner|]. split; [exact Hnext|]. split.
  - apply Hone. intros Hzero. inversion Hzero. discriminate.
  - split; [exact Hdenial|]. exact Hns.
Defined.

Lemma signSet_twice_witness :
  exists st1,
    signSet (exampleConfig (Some "k")) [exampleA 60] exampleNow
      (inception exampleNow) (expiration exampleNow) exampleState
      = Some (st1, inl exampleSig) /\
    signSet (exampleConfig (Some "k")) [exampleA 60] (exampleNow + 3600)
      (inception (exampleNow + 3600)) (expiration (exampleNow + 3600)) st1
      = Some (st1, inl exampleSig) /\
    signs st1 = S (signs exampleState).
Proof.
  apply (signSet_twice (exampleConfig (Some "k")) (exampleA 60) []
           exampleNow (inception exampleNow) (expiration exampleNow)
           (exampleNow + 3600) (inception (exampleNow + 3600))
           (expiration (exampleNow + 3600))
           exampleState (keyOf [exampleA 60]) exampleSig);
    reflexivity.
Defined.

Lemma signSet_cache_lookup_witness :
  signSet (exampleConfig (Some "k")) [exampleA 60] (exampleNow + 3600)
    (inception (exampleNow + 3600)) (expiration (exampleNow + 3600))
    exampleSigned = Some (exampleSigned, inl exampleSig) /\
  exists st' res,
    signSet (exampleConfig (Some "k")) [exampleA 60] (exampleNow + 561600)
      (inception (exampleNow + 561600)) (expiration (exampleNow + 561600))
      exampleSigned = Some (st', res) /\
    signs st' = 2%nat /\
    cache st' !! keyOf [exampleA 60] =
      match res with
      | inl sig' => Some sig'
      | inr _ => None
      end.
Proof.
  split.
  - apply (signSet_cache_lookup (exampleConfig (Some "k")) (exampleA 60) []
             (exampleNow + 3600) (inception (exampleNow + 3600))
             (expiration (exampleNow + 3600)) exampleSigned
             (keyOf [exampleA 60]) exampleSig); reflexivity.
  - destruct (signSet_cache_lookup (exampleConfig (Some "k")) (exampleA 60) []
                (exampleNow + 561600) (inception (exampleNow + 561600))
                (expiration (exampleNow + 561600)) exampleSigned
                (keyOf [exampleA 60]) exampleSig eq_refl eq_refl)
      as [_ Hstale].
    destruct (Hstale eq_refl eq_refl)
      as (st' & res & Hset & _ & Hsigns & _ & _ & Hcache).
    exists st', res. split; [exact Hset|]. split; [exact Hsigns|exact Hcache].
Defined.

(** ** Where the specification and the code part *)

(** C1, as stated, fails.  For [nothere.example.com.] the next hashed
    owner name of the name-error record is the hash incremented once (its
    text ends in [K]); the hash incremented twice ends in [L]. *)
Lemma NameError_next_is_not_two_steps :
  nsec3_NextDomain
    (NewNSEC3NameError (exampleConfig None) "nothere.example.com.")
    = "AHDV3DVMRB88KFF20NABB1HVH7JE8EDK" /\
  unpackBase32
    (byteArith
       (byteArith (packBase32 (HashName "nothere.example.com." SHA1 0 ""))
          true) true)
    = "AHDV3DVMRB88KFF20NABB1HVH7JE8EDL" /\
  nsec3_NextDomain
    (NewNSEC3NameError (exampleConfig None) "nothere.example.com.")
    <> unpackBase32
         (byteArith
            (byteArith
               (packBase32 (HashName "nothere.example.com." SHA1 0 ""))
               true) true).
Proof. split; [reflexivity|]. split; [reflexivity|]. vm_compute. discriminate. Qed.

(** C2 at [example.com.]: the owner the wildcard-denial record would have
    were the name of the wildcard hashed as the other records' names are,
    and the owner it has. *)
Lemma wildcard_denial_example :
  ToLower
    (unpackBase32
       (byteArith (packBase32 (HashName "*.example.com." SHA1 0 "")) false))
    +:+ "." +:+ "example.com."
    = "4f3cnt8cu22tngec382jj4gde4rb47ua.example.com." /\
  hdr_Name
    (nsec3_Hdr (snd (newNSEC3CEandWildcard "example.com." "example.com." 60)))
    = ".example.com.".
Proof. split; reflexivity. Qed.

(** C3, as stated, fails.  The second call comes six and a half days
    after the first: the signature of the first call is valid at that time,
    yet it is not valid a day later, so the second call signs again and
    returns another signature. *)
Lemma signSet_twice_last_day :
  match
    signTwice (exampleConfig (Some "k")) [exampleA 60]
      exampleNow (exampleNow + 561600) exampleState
  with
  | Some (st2, inl sig1, inl sig2) =>
      rrsig_Inception sig1 <= exampleNow + 561600 <= rrsig_Expiration sig1 /\
      ValidityPeriod sig1 (exampleNow + 561600) = true /\
      sig1 <> sig2 /\
      signs st2 = 2%nat
  | _ => False
  end.
Proof.
  vm_compute. split; [split; discriminate|]. split; [reflexivity|].
  split; [discriminate|reflexivity].
Qed.

(** C6 evaluated: the signature made for the set with port 80 is returned
    for the set with port 8080. *)
Lemma key_ignores_port_example :
  match
    signSet (exampleConfig (Some "k")) [exampleSRV 80] exampleNow
      (inception exampleNow) (expiration exampleNow) exampleState
  with
  | Some (st1, inl sig) =>
      signSet (exampleConfig (Some "k")) [exampleSRV 8080] exampleNow
        (inception exampleNow) (expiration exampleNow) st1
      = Some (st1, inl sig)
  | _ => False
  end.
Proof. vm_compute. reflexivity. Qed.

(** * Further properties of the code *)

(** ** [byteArith] as arithmetic on big-endian numbers *)

Lemma incLoop_length (r : list Z) :
  List.length (fst (incLoop r)) = List.length r.
Proof.
  induction r as [|x r IH]; simpl; [reflexivity|].
  destruct (x =? 255); simpl; [|reflexivity].
  destruct (incLoop r) as [r' ret]. simpl in *. now rewrite IH.
Qed.

Lemma decLoop_length (r : list Z) :
  List.length (decLoop r) = List.length r.
Proof.
  induction r as [|x r IH]; simpl; [reflexivity|].
  destruct (x =? 0); simpl; [now rewrite IH|reflexivity].
Qed.

Lemma incLoop_bytes (r : list Z) :
  Forall is_byte r -> Forall is_byte (fst (incLoop r)).
Proof.
  induction 1 as [|x r Hx Hr IH]; simpl; [constructor|].
  destruct (x =? 255).
  - destruct (incLoop r) as [r' ret]. simpl in *.
    constructor; [unfold is_byte; lia|assumption].
  - simpl. constructor; [|assumption].
    unfold is_byte. apply Z.mod_pos_bound. lia.
Qed.

Lemma decLoop_bytes (r : list Z) :
  Forall is_byte r -> Forall is_byte (decLoop r).
Proof.
  induction 1 as [|x r Hx Hr IH]; simpl; [constructor|].
  destruct (x =? 0).
  - constructor; [unfold is_byte; lia|assumption].
  - constructor; [|assumption].
    unfold is_byte. apply Z.mod_pos_bound. lia.
Qed.

Lemma incLoop_overflow (r : list Z) :
  Forall (fun x => x = 255) r ->
  incLoop r = (replicate (List.length r) 0, false).
Proof.
  induction 1 as [|x r Hx Hr IH]; simpl; [reflexivity|].
  subst x. simpl. now rewrite IH.
Qed.

Lemma decLoop_zeros (n : nat) :
  decLoop (replicate n 0) = replicate n 255.
Proof. induction n as [|n IH]; simpl; [reflexivity|now rewrite IH]. Qed.

Lemma replicate_all {A} (x : A) (l : list A) :
  Forall (fun y => y = x) l -> replicate (List.length l) x = l.
Proof. induction 1 as [|y l Hy Hl IH]; simpl; [reflexivity|]. now subst; f_equal. Qed.

Lemma rev_replicate {A} (n : nat) (x : A) :
  rev (replicate n x) = replicate n x.
Proof.
  induction n as [|n IH]; simpl; [reflexivity|]. rewrite IH.
  clear IH. induction n as [|n IH]; simpl; [reflexivity|]. now rewrite IH.
Qed.

Lemma incLoop_value (r : list Z) :
  Forall is_byte r -> ~ Forall (fun x => x = 255) r ->
  le_value (fst (incLoop r)) = le_value r + 1.
Proof.
  induction r as [|x r IH]; intros Hb Hnot.
  - exfalso. apply Hnot. constructor.
  - inversion Hb as [|? ? Hx Hr]; subst. simpl.
    destruct (Z.eqb_spec x 255) as [->|Hne].
    + destruct (incLoop r) as [r' ret] eqn:Hinc. simpl in *.
      rewrite IH; [lia|assumption|].
      intros Hall. apply Hnot. constructor; [reflexivity|assumption].
    + simpl. unfold is_byte in Hx. rewrite Z.mod_small by lia. lia.
Qed.

Lemma decLoop_value (r : list Z) :
  Forall is_byte r -> ~ Forall (fun x => x = 0) r ->
  le_value (decLoop r) = le_value r - 1.
Proof.
  induction r as [|x r IH]; intros Hb Hnot.
  - exfalso. apply Hnot. constructor.
  - inversion Hb as [|? ? Hx Hr]; subst. simpl.
    destruct (Z.eqb_spec x 0) as [->|Hne].
    + simpl. rewrite IH; [lia|assumption|].
      intros Hall. apply Hnot. constructor; [reflexivity|assumption].
    + simpl. unfold is_byte in Hx. rewrite Z.mod_small by lia. lia.
Qed.

Lemma byteArith_keeps_shape_aux (b : list Z) (x : bool) :
  Forall is_byte b ->
  List.length (byteArith b x) = List.length b /\
  Forall is_byte (byteArith b x).
Proof.
  intros Hb. apply Forall_rev_iff in Hb. unfold byteArith.
  destruct x.
  - pose proof (incLoop_length (rev b)) as Hlen.
    pose proof (incLoop_bytes (rev b) Hb) as Hbytes.
    destruct (incLoop (rev b)) as [r ret]. simpl in *.
    destruct ret.
    + rewrite length_rev, Hlen, length_rev. split; [reflexivity|].
      now apply Forall_rev_iff.
    + rewrite length_rev, decLoop_length, Hlen, length_rev.
      split; [reflexivity|]. now apply Forall_rev_iff, decLoop_bytes.
  - rewrite length_rev, decLoop_length, length_rev.
    split; [reflexivity|]. now apply Forall_rev_iff, decLoop_bytes.
Qed.

(** X1.  [byteArith] keeps the length of the slice, and a slice of bytes
    stays a slice of bytes. *)
Theorem byteArith_keeps_shape (b : list Z) (x : bool) :
  Forall is_byte b ->
  List.length (byteArith b x) = List.length b /\
  Forall is_byte (byteArith b x).
Proof. apply byteArith_keeps_shape_aux. Qed.

Lemma byteArith_keeps_shape_witness :
  List.length (byteArith [0; 255] true) = 2%nat /\
  Forall is_byte (byteArith [0; 255] true).
Proof.
  apply (byteArith_keeps_shape [0; 255] true).
  repeat constructor; unfold is_byte; lia.
Defined.

Lemma byteArith_values (b : list Z) :
  Forall is_byte b ->
  (~ Forall (fun x => x = 255) b ->
     be_value (byteArith b true) = be_value b + 1) /\
  (~ Forall (fun x => x = 0) b ->
     be_value (byteArith b false) = be_value b - 1).
Proof.
  intros Hb. pose proof (proj2 (Forall_rev_iff _ _) Hb) as Hrb.
  unfold be_value, byteArith. split; intros Hnot.
  - destruct (incLoop_returns (rev b)) as (r' & Hinc & _);
      [assumption|now rewrite Forall_rev_iff|].
    pose proof (incLoop_value (rev b) Hrb) as Hval.
    rewrite Hinc in *. simpl in Hval. rewrite rev_involutive.
    apply Hval. now rewrite Forall_rev_iff.
  - rewrite rev_involutive. apply decLoop_value; [assumption|].
    now rewrite Forall_rev_iff.
Qed.

Lemma byteArith_value_aux (b : list Z) (x : bool) :
  Forall is_byte b ->
  ~ Forall (fun y => y = if x then 255 else 0) b ->
  be_value (byteArith b x) = be_value b + (if x then 1 else -1).
Proof.
  intros Hb Hnot. destruct (byteArith_values b Hb) as [Hinc Hdec].
  destruct x; [now apply Hinc|]. rewrite Hdec by assumption. lia.
Qed.

(** X2.  Read as a big-endian unsigned number, a slice of bytes that is
    not all 0xFF goes up by one under the increment, and a slice that is not
    all 0x00 goes down by one under the decrement. *)
Theorem byteArith_value (b : list Z) :
  Forall is_byte b ->
  (~ Forall (fun x => x = 255) b ->
     be_value (byteArith b true) = be_value b + 1) /\
  (~ Forall (fun x => x = 0) b ->
     be_value (byteArith b false) = be_value b - 1).
Proof. apply byteArith_values. Qed.

Lemma byteArith_value_witness :
  be_value (byteArith [1; 255] true) = be_value [1; 255] + 1 /\
  be_value (byteArith [1; 0] false) = be_value [1; 0] - 1.
Proof.
  split.
  - apply (byteArith_value [1; 255]).
    + repeat constructor; unfold is_byte; lia.
    + intros Hall. inversion Hall; lia.
  - apply (byteArith_value [1; 0]).
    + repeat constructor; unfold is_byte; lia.
    + intros Hall. inversion Hall; lia.
Defined.

Lemma byteArith_ends_aux (b : list Z) :
  (Forall (fun x => x = 255) b -> byteArith b true = b) /\
  (Forall (fun x => x = 0) b ->
   byteArith b false = replicate (List.length b) 255).
Proof.
  split; intros Hall.
  - unfold byteArith.
    rewrite incLoop_overflow by now apply Forall_rev_iff.
    rewrite decLoop_zeros, rev_replicate, length_rev.
    now apply replicate_all.
  - unfold byteArith.
    rewrite <- (replicate_all 0 (rev b)) by now apply Forall_rev_iff.
    rewrite decLoop_zeros, rev_replicate, length_rev. reflexivity.
Qed.

(** X3.  At the ends of the range: the increment leaves a slice that is
    all 0xFF as it is (the first loop clears every byte and runs off the
    slice, and the second loop sets every byte back), and the decrement
    turns a slice that is all 0x00 into one that is all 0xFF. *)
Theorem byteArith_at_the_ends (b : list Z) :
  (Forall (fun x => x = 255) b -> byteArith b true = b) /\
  (Forall (fun x => x = 0) b ->
   byteArith b false = replicate (List.length b) 255).
Proof. apply byteArith_ends_aux. Qed.

Lemma byteArith_at_the_ends_witness :
  byteArith [255; 255; 255] true = [255; 255; 255] /\
  byteArith [0; 0; 0] false = [255; 255; 255].
Proof.
  split.
  - apply (proj1 (byteArith_at_the_ends [255; 255; 255])).
    repeat constructor.
  - apply (proj2 (byteArith_at_the_ends [0; 0; 0])). repeat constructor.
Defined.

(** ** Base-32 text: packing undoes unpacking *)

Lemma testbit_byte_high (a n : Z) : is_byte a -> 8 <= n -> Z.testbit a n = false.
Proof.
  unfold is_byte. intros Ha Hn.
  destruct (Z.eq_dec a 0) as [->|Hne]; [apply Z.bits_0|].
  apply Z.bits_above_log2; [lia|].
  assert (Z.log2 a < 8) by (apply Z.log2_lt_pow2; lia). lia.
Qed.

Lemma byte_ext (a b : Z) :
  is_byte a -> is_byte b ->
  (forall n, 0 <= n < 8 -> Z.testbit a n = Z.testbit b n) -> a = b.
Proof.
  intros Ha Hb Hbits. apply Z.bits_inj'. intros n Hn.
  destruct (Z_lt_dec n 8); [apply Hbits; lia|].
  rewrite !testbit_byte_high by (assumption || lia). reflexivity.
Qed.

Ltac norm_bits :=
  repeat match goal with
         | |- context [Z.testbit ?x ?i] =>
             lazymatch i with
             | Zpos _ => fail
             | Z0 => fail
             | Zneg _ => fail
             | _ => let i' := eval compute in i in change i with i'
             end
         end.

Ltac const_bits :=
  repeat match goal with
         | |- context [Z.testbit 31 ?i] =>
             let v := eval compute in (Z.testbit 31 i) in
             change (Z.testbit 31 i) with v
         end.

Ltac bits_step :=
  first
    [ rewrite Z.lor_spec
    | rewrite Z.land_spec
    | rewrite Z.shiftr_spec by lia
    | rewrite Z.shiftl_spec by lia
    | rewrite Z.mod_pow2_bits_low by lia
    | match goal with
      | |- context [Z.testbit ?x ?n] =>
          first [ rewrite (Z.testbit_neg_r x n) by lia
                | rewrite (testbit_byte_high x n) by (assumption || lia) ]
      end ].

Ltac solve_bits :=
  unfold shl8, shr8; change 256 with (2 ^ 8);
  repeat (progress (repeat bits_step; norm_bits; const_bits));
  rewrite ?andb_true_r, ?andb_false_r, ?orb_false_r, ?orb_false_l;
  try reflexivity.

Lemma land31_block (x : Z) : 0 <= x -> 0 <= Z.land x 31 < 32.
Proof.
  intros Hx. change 31 with (Z.ones 5). rewrite Z.land_ones by lia.
  apply Z.mod_pos_bound. reflexivity.
Qed.

Lemma lor_block (a b : Z) :
  0 <= a < 32 -> 0 <= b < 32 -> 0 <= Z.lor a b < 32.
Proof.
  intros Ha Hb. split; [apply Z.lor_nonneg; lia|].
  destruct (Z.eq_dec a 0) as [->|Ha0]; [rewrite Z.lor_0_l; lia|].
  destruct (Z.eq_dec b 0) as [->|Hb0]; [rewrite Z.lor_0_r; lia|].
  change 32 with (2 ^ 5).
  apply Z.log2_lt_pow2.
  - assert (0 <= Z.lor a b) by (apply Z.lor_nonneg; lia).
    assert (Z.lor a b <> 0) by (rewrite Z.lor_eq_0_iff; lia). lia.
  - rewrite Z.log2_lor by lia.
    apply Z.max_lub_lt; apply Z.log2_lt_pow2; lia.
Qed.

Lemma shr8_bound (b n k : Z) :
  0 <= b < 256 -> 0 <= n -> 256 <= k * 2 ^ n -> 0 <= shr8 b n < k.
Proof.
  intros Hb Hn Hk. unfold shr8. rewrite Z.shiftr_div_pow2 by assumption.
  assert (0 < 2 ^ n) by (apply Z.pow_pos_nonneg; lia).
  split; [apply Z.div_pos; lia|].
  apply Z.div_lt_upper_bound; lia.
Qed.

Lemma unpackQuantum_blocks (s0 s1 s2 s3 s4 : Z) :
  is_byte s0 -> is_byte s1 -> is_byte s2 -> is_byte s3 -> is_byte s4 ->
  Forall (fun x => 0 <= x < 32) (unpackQuantum s0 s1 s2 s3 s4).
Proof.
  unfold is_byte. intros H0 H1 H2 H3 H4. unfold unpackQuantum.
  assert (forall b n, 0 <= shl8 b n) as Hshl.
  { intros b n. apply (shl8_byte b n). }
  assert (forall b n, 0 <= b < 256 -> 0 <= n -> 0 <= shr8 b n) as Hshr.
  { intros b n Hb Hn. apply (shr8_byte b n); assumption. }
  assert (forall b n, 0 <= n -> 0 <= b < 256 -> 0 <= n ->
                      256 <= 32 * 2 ^ n -> 0 <= shr8 b n < 32) as Hsmall.
  { intros b n _ Hb Hn Hk. now apply shr8_bound. }
  repeat constructor;
    repeat first
      [ apply lor_block
      | apply land31_block
      | apply Hshl
      | apply Hshr; [assumption|lia]
      | apply Hsmall; [lia|assumption|lia|cbv; discriminate]
      | lia ].
Qed.

Lemma pack_unpack (s0 s1 s2 s3 s4 : Z) :
  is_byte s0 -> is_byte s1 -> is_byte s2 -> is_byte s3 -> is_byte s4 ->
  packQuantum (unpackQuantum s0 s1 s2 s3 s4) = [s0; s1; s2; s3; s4].
Proof.
  intros H0 H1 H2 H3 H4.
  pose proof (packQuantum_bytes _
                (unpackQuantum_blocks s0 s1 s2 s3 s4 H0 H1 H2 H3 H4)) as Hb.
  unfold packQuantum, unpackQuantum in *. cbn [nth] in *.
  repeat match goal with
         | H : Forall _ (_ :: _) |- _ => inversion H; subst; clear H
         end.
  repeat f_equal;
    (apply byte_ext; [assumption|assumption|]; intros n Hn;
     assert (n = 0 \/ n = 1 \/ n = 2 \/ n = 3 \/ n = 4 \/ n = 5 \/ n = 6
             \/ n = 7) as Hc by lia;
     repeat destruct Hc as [Hc|Hc]; subst n; solve_bits).
Qed.

Lemma alphabet_char (v : Z) :
  0 <= v < 32 ->
  (nth (Z.to_nat v) encodeHex 0 =? 13) = false /\
  (nth (Z.to_nat v) encodeHex 0 =? 10) = false /\
  (nth (Z.to_nat v) encodeHex 0 =? padChar) = false /\
  decodeMap (nth (Z.to_nat v) encodeHex 0) = v /\
  is_byte (nth (Z.to_nat v) encodeHex 0).
Proof.
  intros Hv. destruct v as [|p|p]; try lia.
  - cbv. repeat split; first [reflexivity | discriminate].
  - do 5 (try destruct p as [p|p|]); try lia;
      cbv; repeat split; first [reflexivity | discriminate].
Qed.

Lemma decode_alpha (v : Z) (src : list Z) (j : nat) (dbuf out : list Z) :
  0 <= v < 32 ->
  decode (nth (Z.to_nat v) encodeHex 0 :: src) j dbuf out =
    if (j =? 7)%nat
    then decode src 0%nat [] (out ++ packQuantum (dbuf ++ [v]))
    else decode src (S j) (dbuf ++ [v]) out.
Proof.
  intros Hv. destruct (alphabet_char v Hv) as (H13 & H10 & Hpad & Hmap & _).
  cbn [decode]. rewrite Hpad, Hmap. cbn [andb].
  destruct (Z.eqb_spec v 255); [lia|reflexivity].
Qed.

Lemma decode_blocks (blocks : list Z) (src : list Z) :
  forall (j : nat) (dbuf out : list Z),
  Forall (fun x => 0 <= x < 32) blocks ->
  (j + List.length blocks < 8)%nat ->
  decode (encodeBlocks blocks ++ src) j dbuf out =
    decode src (j + List.length blocks)%nat (dbuf ++ blocks) out.
Proof.
  induction blocks as [|v blocks IH]; intros j dbuf out Hb Hlen.
  - simpl. rewrite Nat.add_0_r, app_nil_r. reflexivity.
  - inversion Hb as [|? ? Hv Hbs]; subst. simpl in Hlen.
    unfold encodeBlocks. cbn [map app]. fold (encodeBlocks blocks).
    rewrite decode_alpha by assumption.
    destruct (Nat.eqb_spec j 7) as [->|_]; [lia|].
    rewrite IH; [|assumption|lia].
    cbn [List.length]. rewrite <- app_assoc. cbn [app].
    f_equal. lia.
Qed.

Lemma decode_quantum (blocks src out : list Z) :
  Forall (fun x => 0 <= x < 32) blocks ->
  List.length blocks = 8%nat ->
  decode (encodeBlocks blocks ++ src) 0%nat [] out =
    decode src 0%nat [] (out ++ packQuantum blocks).
Proof.
  intros Hb Hlen.
  induction blocks as [|v front _] using rev_ind; [discriminate|].
  rewrite length_app in Hlen. simpl in Hlen.
  apply Forall_app in Hb as [Hfront Hv]. inversion Hv; subst.
  unfold encodeBlocks. rewrite map_app, <- app_assoc.
  fold (encodeBlocks front). cbn [map app].
  rewrite decode_blocks by (assumption || lia).
  rewrite decode_alpha by assumption.
  replace (0 + List.length front)%nat with 7%nat by lia. reflexivity.
Qed.

Lemma decode_padding (j : nat) (dbuf out : list Z) :
  j = 2%nat \/ j = 4%nat \/ j = 5%nat \/ j = 7%nat ->
  decode (replicate (8 - j) padChar) j dbuf out =
    out ++ take (quantumBytes j) (packQuantum dbuf).
Proof. intros [-> | [-> | [-> | ->]]]; reflexivity. Qed.

Lemma encodeBlocks_take (k : nat) (blocks : list Z) :
  take k (encodeBlocks blocks) = encodeBlocks (take k blocks).
Proof. unfold encodeBlocks. symmetry. apply fmap_take. Qed.

Lemma decode_tail (k : nat) (s0 s1 s2 s3 : Z) (out : list Z) :
  is_byte s0 -> is_byte s1 -> is_byte s2 -> is_byte s3 ->
  k = 2%nat \/ k = 4%nat \/ k = 5%nat \/ k = 7%nat ->
  decode
    (take k (encodeBlocks (unpackQuantum s0 s1 s2 s3 0))
       ++ replicate (8 - k) padChar) 0%nat [] out =
    out ++ take (quantumBytes k) [s0; s1; s2; s3; 0].
Proof.
  intros H0 H1 H2 H3 Hk.
  assert (is_byte 0) as Hz by (unfold is_byte; lia).
  pose proof (unpackQuantum_blocks s0 s1 s2 s3 0 H0 H1 H2 H3 Hz) as Hblocks.
  rewrite encodeBlocks_take.
  rewrite decode_blocks.
  - rewrite <- (pack_unpack s0 s1 s2 s3 0) by assumption.
    assert (List.length (take k (unpackQuantum s0 s1 s2 s3 0)) = k) as Hlen.
    { rewrite length_take. unfold unpackQuantum. simpl.
      destruct Hk as [-> | [-> | [-> | ->]]]; reflexivity. }
    rewrite Hlen. cbn [Nat.add app]. rewrite decode_padding by assumption.
    f_equal. destruct Hk as [-> | [-> | [-> | ->]]]; reflexivity.
  - now apply Forall_take.
  - rewrite length_take. unfold unpackQuantum. simpl.
    destruct Hk as [-> | [-> | [-> | ->]]]; simpl; lia.
Qed.

Lemma decode_Encode_aux (n : nat) : forall (b out : list Z),
  (List.length b <= n)%nat -> Forall is_byte b ->
  decode (Encode b) 0%nat [] out = out ++ b.
Proof.
  assert (is_byte 0) as Hz by (unfold is_byte; lia).
  induction n as [|n IH]; intros b out Hlen Hb.
  - destruct b; [|simpl in Hlen; lia]. simpl. now rewrite app_nil_r.
  - destruct b as [|s0 [|s1 [|s2 [|s3 [|s4 rest]]]]];
      repeat match goal with
             | H : Forall _ (_ :: _) |- _ => inversion H; subst; clear H
             end.
    + simpl. now rewrite app_nil_r.
    + apply (decode_tail 2 s0 0 0 0 out); auto.
    + apply (decode_tail 4 s0 s1 0 0 out); auto.
    + apply (decode_tail 5 s0 s1 s2 0 out); auto.
    + apply (decode_tail 7 s0 s1 s2 s3 out); auto.
    + cbn [Encode]. rewrite decode_quantum.
      * rewrite pack_unpack by assumption.
        rewrite IH; [|simpl in Hlen; lia|assumption].
        rewrite <- app_assoc. reflexivity.
      * now apply unpackQuantum_blocks.
      * reflexivity.
Qed.

Lemma decode_Encode_full (n : nat) : forall (d suffix out : list Z),
  List.length d = (5 * n)%nat -> Forall is_byte d ->
  decode (Encode d ++ suffix) 0%nat [] out = decode suffix 0%nat [] (out ++ d).
Proof.
  induction n as [|n IH]; intros d suffix out Hlen Hb.
  - destruct d; [|simpl in Hlen; lia]. simpl. now rewrite app_nil_r.
  - destruct d as [|s0 [|s1 [|s2 [|s3 [|s4 rest]]]]];
      try (simpl in Hlen; lia).
    repeat match goal with
           | H : Forall _ (_ :: _) |- _ => inversion H; subst; clear H
           end.
    cbn [Encode]. rewrite <- app_assoc. rewrite decode_quantum.
    + rewrite pack_unpack by assumption.
      rewrite IH; [|simpl in Hlen; lia|assumption].
      rewrite <- app_assoc. reflexivity.
    + now apply unpackQuantum_blocks.
    + reflexivity.
Qed.

Lemma Encode_bytes (src : list Z) : Forall is_byte (Encode src).
Proof.
  assert (forall blocks, Forall is_byte (encodeBlocks blocks)) as Hblocks.
  { intros blocks. unfold encodeBlocks. apply Forall_forall.
    intros c Hc. apply list_elem_of_fmap in Hc as (v & -> & _).
    destruct (nth_in_or_default (Z.to_nat v) encodeHex 0) as [Hin| ->];
      [|unfold is_byte; lia].
    assert (Forall is_byte encodeHex) as Halpha.
    { unfold encodeHex. cbv -[is_byte]. unfold is_byte.
      repeat constructor; lia. }
    rewrite Forall_forall in Halpha. apply Halpha.
    now apply list_elem_of_In. }
  assert (forall n, Forall is_byte (replicate n padChar)) as Hpad.
  { intros n. apply Forall_replicate. unfold is_byte, padChar. lia. }
  assert (forall n, (List.length src <= n)%nat -> Forall is_byte (Encode src))
    as Hgen.
  { intros n. revert src. induction n as [|n IH]; intros src Hlen.
    - destruct src; [constructor|simpl in Hlen; lia].
    - destruct src as [|s0 [|s1 [|s2 [|s3 [|s4 rest]]]]]; cbn [Encode];
        [constructor| | | | |];
        try (apply Forall_app; split; [apply Forall_take, Hblocks|apply Hpad]).
      apply Forall_app. split; [apply Hblocks|].
      apply IH. simpl in Hlen. lia. }
  now apply (Hgen (List.length src)).
Qed.

Lemma stripNewlines_app (a b : list Z) :
  stripNewlines (a ++ b) = stripNewlines a ++ stripNewlines b.
Proof.
  induction a as [|c a IH]; [reflexivity|]. simpl.
  destruct ((c =? 13) || (c =? 10)); simpl; now rewrite IH.
Qed.

Lemma stripNewlines_none (l : list Z) :
  Forall (fun c => c <> 13 /\ c <> 10) l -> stripNewlines l = l.
Proof.
  induction 1 as [|c l [H13 H10] Hl IH]; [reflexivity|]. simpl.
  destruct (Z.eqb_spec c 13); [contradiction|].
  destruct (Z.eqb_spec c 10); [contradiction|].
  simpl. now rewrite IH.
Qed.

Lemma Encode_no_newlines (src : list Z) :
  Forall (fun c => c <> 13 /\ c <> 10) (Encode src).
Proof.
  assert (forall blocks,
             Forall (fun c => c <> 13 /\ c <> 10) (encodeBlocks blocks))
    as Hblocks.
  { intros blocks. unfold encodeBlocks. apply Forall_forall.
    intros c Hc. apply list_elem_of_fmap in Hc as (v & -> & _).
    destruct (nth_in_or_default (Z.to_nat v) encodeHex 0) as [Hin| ->];
      [|lia].
    assert (Forall (fun c => c <> 13 /\ c <> 10) encodeHex) as Halpha.
    { unfold encodeHex. cbv -[not]. repeat constructor; discriminate. }
    rewrite Forall_forall in Halpha. apply Halpha.
    now apply list_elem_of_In. }
  assert (forall n,
             Forall (fun c => c <> 13 /\ c <> 10) (replicate n padChar))
    as Hpad.
  { intros n. apply Forall_replicate. unfold padChar. lia. }
  assert (forall n, (List.length src <= n)%nat ->
                    Forall (fun c => c <> 13 /\ c <> 10) (Encode src))
    as Hgen.
  { intros n. revert src. induction n as [|n IH]; intros src Hlen.
    - destruct src; [constructor|simpl in Hlen; lia].
    - destruct src as [|s0 [|s1 [|s2 [|s3 [|s4 rest]]]]]; cbn [Encode];
        [constructor| | | | |];
        try (apply Forall_app; split; [apply Forall_take, Hblocks|apply Hpad]).
      apply Forall_app. split; [apply Hblocks|].
      apply IH. simpl in Hlen. lia. }
  now apply (Hgen (List.length src)).
Qed.

Lemma stripNewlines_Encode (b : list Z) :
  stripNewlines (Encode b) = Encode b.
Proof. apply stripNewlines_none, Encode_no_newlines. Qed.

Lemma bytes_of_string_of_bytes (b : list Z) :
  Forall is_byte b -> bytes_of_string (string_of_bytes b) = b.
Proof.
  intros Hb. unfold bytes_of_string, string_of_bytes.
  rewrite list_ascii_of_string_of_list_ascii, map_map.
  induction Hb as [|x b Hx Hb IH]; simpl; [reflexivity|].
  rewrite IH. f_equal. unfold is_byte in Hx.
  rewrite N_ascii_embedding by lia. lia.
Qed.

Lemma bytes_of_string_app (a b : string) :
  bytes_of_string (a +:+ b) = bytes_of_string a ++ bytes_of_string b.
Proof.
  unfold bytes_of_string. induction a as [|c a IH]; simpl; [reflexivity|].
  now rewrite IH.
Qed.

Lemma packBase32_unpackBase32 (b : list Z) :
  Forall is_byte b -> packBase32 (unpackBase32 b) = b.
Proof.
  intros Hb. unfold packBase32, unpackBase32, Decode.
  rewrite bytes_of_string_of_bytes by apply Encode_bytes.
  rewrite stripNewlines_Encode.
  now apply (decode_Encode_aux (List.length b)).
Qed.

Lemma packBase32_stops_at_dot (d : list Z) (rest : string) (n : nat) :
  Forall is_byte d -> List.length d = (5 * n)%nat ->
  packBase32 (unpackBase32 d +:+ "." +:+ rest) = d.
Proof.
  intros Hb Hlen. unfold packBase32, unpackBase32, Decode.
  rewrite bytes_of_string_app, bytes_of_string_of_bytes by apply Encode_bytes.
  rewrite stripNewlines_app, stripNewlines_Encode.
  rewrite (decode_Encode_full n) by assumption.
  reflexivity.
Qed.

(** X4.  Packing is the inverse of unpacking: the base-32 text of a slice
    of bytes of any length, padded or not, decodes to that slice. *)
Theorem packBase32_inverts_unpackBase32 (b : list Z) :
  Forall is_byte b -> packBase32 (unpackBase32 b) = b.
Proof. apply packBase32_unpackBase32. Qed.

Lemma packBase32_inverts_unpackBase32_witness :
  packBase32 (unpackBase32 [1; 2; 255]) = [1; 2; 255].
Proof.
  apply (packBase32_inverts_unpackBase32 [1; 2; 255]).
  repeat constructor; unfold is_byte; lia.
Defined.

(** ** The intervals of the denial records *)

Section IntervalProperties.
Context `{Extern}.

(** X5.  When the hasher gives the closest encloser the text of a digest
    [d] of full quanta, the first record of [newNSEC3CEandWildcard] is owned
    by that text under the apex, and its next hashed owner name is the text
    of [d] incremented: the decoder is handed the owner name with the apex
    attached and stops at the dot.  Unless [d] is all 0xFF, the next name
    decodes to the number of [d] plus one. *)
Theorem closest_encloser_record (apex ce : string) (ttl : Z) (d : list Z)
    (n : nat) :
  HashName ce SHA1 0 "" = unpackBase32 d ->
  Forall is_byte d ->
  List.length d = (5 * n)%nat ->
  let n1 := fst (newNSEC3CEandWildcard apex ce ttl) in
  hdr_Name (nsec3_Hdr n1) = unpackBase32 d +:+ "." +:+ apex /\
  nsec3_NextDomain n1 = unpackBase32 (byteArith d true) /\
  packBase32 (nsec3_NextDomain n1) = byteArith d true /\
  (~ Forall (fun x => x = 255) d ->
   be_value (packBase32 (nsec3_NextDomain n1)) = be_value d + 1).
Proof.
  intros Hhash Hb Hlen n1. subst n1. unfold newNSEC3CEandWildcard.
  cbn [fst nsec3_Hdr hdr_Name nsec3_NextDomain].
  rewrite Hhash, (packBase32_stops_at_dot d apex n) by assumption.
  destruct (byteArith_keeps_shape_aux d true Hb) as [_ Hbytes].
  rewrite packBase32_unpackBase32 by assumption.
  repeat split. intros Hnot. now apply byteArith_value_aux.
Qed.


(** X7.  When the hasher gives the name the text of a digest [d], the
    record of [NewNSEC3NoData] is owned by that text under the zone; its
    next hashed owner name decodes to the number of [d] plus one, unless [d]
    is all 0xFF, in which case the next name is the owner's own text. *)
Theorem NoData_interval (s : Config) (qname : string) (d : list Z) :
  HashName qname SHA1 0 "" = unpackBase32 d ->
  Forall is_byte d ->
  hdr_Name (nsec3_Hdr (NewNSEC3NoData s qname)) =
    unpackBase32 d +:+ "." +:+ cfg_Domain s /\
  (~ Forall (fun x => x = 255) d ->
   be_value (packBase32 (nsec3_NextDomain (NewNSEC3NoData s qname))) =
     be_value d + 1) /\
  (Forall (fun x => x = 255) d ->
   nsec3_NextDomain (NewNSEC3NoData s qname) = unpackBase32 d).
Proof.
  intros Hhash Hb.
  unfold NewNSEC3NoData. cbn [nsec3_Hdr hdr_Name nsec3_NextDomain].
  rewrite Hhash, (packBase32_unpackBase32 d) by assumption.
  split; [reflexivity|]. split.
  - intros Hnf.
    rewrite packBase32_unpackBase32 by now apply byteArith_keeps_shape_aux.
    now apply byteArith_value_aux.
  - intros Hff. now rewrite (proj1 (byteArith_ends_aux d)).
Qed.

End IntervalProperties.

(** ** The record of a NODATA reply *)

Section NoDataProperties.
Context `{Extern}.
Implicit Types (s : Config) (m : Msg) (q : Question).

(** C8.  For a reply with result code success: when the authority section
    is one SOA record, the authority section of the message [Denial] returns
    is that record followed by one NSEC3 record, and the rest of the message
    is as received.  The record is owned by the hash of the question's name
    under the zone, so that its owner name decodes to the digest when the
    hash is the text of a digest of full quanta; its next hashed owner name
    is the text of the decoded hash incremented by [byteArith], decodes to
    that slice, and, unless the decoded hash is all 0xFF, denotes the number
    of the decoded hash plus one.  With any other authority section the
    message returned is the message received, authority section included. *)
Theorem Denial_NoData_spec s m :
  msg_Rcode m = RcodeSuccess ->
  (forall r q (qs : list Question),
     msg_Ns m = [r] -> is_SOA r = true -> msg_Question m = q :: qs ->
     let hash := HashName (q_Name q) SHA1 0 "" in
     exists m' n,
       Denial s m = Some m' /\
       msg_Ns m' = [r; RR_NSEC3 n] /\
       msg_Rcode m' = msg_Rcode m /\
       msg_Truncated m' = msg_Truncated m /\
       msg_Question m' = msg_Question m /\
       msg_Answer m' = msg_Answer m /\
       msg_Extra m' = msg_Extra m /\
       hdr_Rrtype (nsec3_Hdr n) = TypeNSEC3 /\
       hdr_Name (nsec3_Hdr n) = hash +:+ "." +:+ cfg_Domain s /\
       (forall d k, hash = unpackBase32 d -> Forall is_byte d ->
          List.length d = (5 * k)%nat ->
          packBase32 (hdr_Name (nsec3_Hdr n)) = d) /\
       nsec3_NextDomain n = unpackBase32 (byteArith (packBase32 hash) true) /\
       packBase32 (nsec3_NextDomain n) = byteArith (packBase32 hash) true /\
       (~ Forall (fun x => x = 255) (packBase32 hash) ->
        be_value (packBase32 (nsec3_NextDomain n))
        = be_value (packBase32 hash) + 1)) /\
  (~ (exists r, msg_Ns m = [r] /\ is_SOA r = true) ->
   exists m', Denial s m = Some m' /\ msg_Ns m' = msg_Ns m /\ m' = m).
Proof.
  intros Hrcode. split.
  - intros r q qs Hns Hsoa Hq hash.
    exists (set_Ns m (msg_Ns m ++ [RR_NSEC3 (NewNSEC3NoData s (q_Name q))])),
           (NewNSEC3NoData s (q_Name q)).
    split.
    { unfold Denial, Denial_NameError, Denial_NoData.
      rewrite Hrcode. simpl. rewrite Hrcode, Hns. simpl.
      rewrite Hsoa, Hq. reflexivity. }
    split; [cbn [set_Ns msg_Ns]; now rewrite Hns|].
    do 7 (split; [reflexivity|]).
    pose proof (packBase32_bytes hash) as Hb.
    destruct (byteArith_keeps_shape_aux (packBase32 hash) true Hb)
      as [_ Hbytes].
    unfold NewNSEC3NoData. cbn [nsec3_Hdr hdr_Name nsec3_NextDomain].
    fold hash.
    split.
    { intros d k Hd Hbd Hlen. rewrite Hd.
      now apply (packBase32_stops_at_dot d (cfg_Domain s) k). }
    split; [reflexivity|].
    rewrite (packBase32_unpackBase32 (byteArith (packBase32 hash) true))
      by assumption.
    split; [reflexivity|].
    intros Hnf. now apply (byteArith_value_aux (packBase32 hash) true).
  - intros Hshape. exists m. split; [|split; reflexivity].
    unfold Denial, Denial_NameError. rewrite Hrcode.
    change (Denial_NoData s m = Some m). unfold Denial_NoData.
    destruct ((msg_Rcode m =? RcodeSuccess)
              && (Z.of_nat (List.length (msg_Ns m)) =? 1)) eqn:Hc;
      [|reflexivity].
    apply andb_true_iff in Hc as [_ Hlen]. apply Z.eqb_eq in Hlen.
    destruct (msg_Ns m) as [|r [|r' ns]] eqn:Hns; simpl in Hlen; try lia.
    cbn [head mbind option_bind].
    destruct (is_SOA r) eqn:Hsoa; [|reflexivity].
    exfalso. apply Hshape. now exists r.
Qed.

End NoDataProperties.


Lemma exampleApexDigest_bytes : Forall is_byte exampleApexDigest.
Proof. unfold exampleApexDigest. repeat constructor; unfold is_byte; lia. Qed.

Lemma Denial_NoData_spec_witness :
  let s := exampleConfig None in
  let m := exampleQuery RcodeSuccess "example.com." [exampleSOA] in
  (exists m' n,
     Denial s m = Some m' /\
     msg_Ns m' = [exampleSOA; RR_NSEC3 n] /\
     msg_Answer m' = [] /\ msg_Extra m' = [] /\
     hdr_Name (nsec3_Hdr n)
     = "ONIB9MGUB9H0RML3CDF5BGRJ59DKJHVK.example.com." /\
     packBase32 (hdr_Name (nsec3_Hdr n)) = exampleApexDigest /\
     nsec3_NextDomain n = "ONIB9MGUB9H0RML3CDF5BGRJ59DKJHVL" /\
     be_value (packBase32 (nsec3_NextDomain n))
     = be_value exampleApexDigest + 1) /\
  exists m',
    Denial s (exampleQuery RcodeSuccess "example.com." []) = Some m' /\
    msg_Ns m' = [].
Proof.
  intros s m.
  destruct (Denial_NoData_spec s m eq_refl) as [Hsoa _].
  destruct (Hsoa exampleSOA (mkQuestion "example.com." TypeA ClassINET) []
              eq_refl eq_refl eq_refl)
    as (m' & n & Hdenial & Hns & _ & _ & _ & Hans & Hextra & _ & Howner
        & Hdigest & Hnext & _ & Hvalue).
  split.
  - exists m', n.
    split; [exact Hdenial|]. split; [exact Hns|].
    split; [exact Hans|]. split; [exact Hextra|].
    split; [exact Howner|].
    split; [exact (Hdigest exampleApexDigest 4%nat eq_refl
                     exampleApexDigest_bytes eq_refl)|].
    split; [exact Hnext|].
    apply Hvalue. intros Hff. inversion Hff. discriminate.
  - destruct (Denial_NoData_spec s
                (exampleQuery RcodeSuccess "example.com." []) eq_refl)
      as [_ Hother].
    destruct Hother as (m2 & Hd & Hns2 & _).
    + intros (r & Hr & _). discriminate Hr.
    + exists m2. split; [exact Hd|exact Hns2].
Defined.

Lemma closest_encloser_record_witness :
  let n1 := fst (newNSEC3CEandWildcard "example.com." "example.com." 60) in
  hdr_Name (nsec3_Hdr n1) =
    unpackBase32 exampleApexDigest +:+ "." +:+ "example.com." /\
  nsec3_NextDomain n1 = unpackBase32 (byteArith exampleApexDigest true) /\
  packBase32 (nsec3_NextDomain n1) = byteArith exampleApexDigest true /\
  (~ Forall (fun x => x = 255) exampleApexDigest ->
   be_value (packBase32 (nsec3_NextDomain n1))
   = be_value exampleApexDigest + 1).
Proof.
  exact (closest_encloser_record "example.com." "example.com." 60
           exampleApexDigest 4 eq_refl exampleApexDigest_bytes eq_refl).
Defined.


Lemma NoData_interval_witness :
  hdr_Name
    (nsec3_Hdr (NewNSEC3NoData (exampleConfig None) "example.com.")) =
    unpackBase32 exampleApexDigest +:+ "." +:+ "example.com." /\
  be_value
    (packBase32
       (nsec3_NextDomain (NewNSEC3NoData (exampleConfig None) "example.com.")))
  = be_value exampleApexDigest + 1.
Proof.
  destruct (NoData_interval (exampleConfig None) "example.com."
              exampleApexDigest eq_refl exampleApexDigest_bytes)
    as (Howner & Hnext & _).
  split; [exact Howner|]. apply Hnext.
  intros Hall. inversion Hall. discriminate.
Defined.

(** ** The RRset grouper *)

Lemma rrSets_snoc (rrs : list RR) (x : RR) :
  rrSets (rrs ++ [x]) =
    match rrSets rrs !! rrset_key x with
    | Some l => <[rrset_key x := l ++ [x]]> (rrSets rrs)
    | None => <[rrset_key x := [x]]> (rrSets rrs)
    end.
Proof. unfold rrSets. rewrite foldl_app. reflexivity. Qed.

Lemma rrSets_lookup (rrs : list RR) (k : string * Z) :
  rrSets rrs !! k =
    match filter (fun r => rrset_key r = k) rrs with
    | [] => None
    | l => Some l
    end.
Proof.
  induction rrs as [|x rrs IH] using rev_ind.
  - reflexivity.
  - rewrite rrSets_snoc, filter_app.
    destruct (decide (rrset_key x = k)) as [Hk|Hk].
    + rewrite filter_cons_True by exact Hk. subst k.
      rewrite IH. cbn [filter list_filter].
      destruct (filter (fun r => rrset_key r = rrset_key x) rrs) as [|y l];
        rewrite lookup_insert_eq; reflexivity.
    + rewrite filter_cons_False by exact Hk. cbn [filter list_filter].
      rewrite app_nil_r.
      destruct (rrSets rrs !! rrset_key x);
        rewrite lookup_insert_ne by assumption; exact IH.
Qed.

(** X8.  The group [rrSets] keeps under an owner name and type is the
    list of the records of the section with that owner name and type, in
    the order of the section; a name and type no record has is not a key of
    the map. *)
Theorem rrSets_groups (rrs : list RR) (k : string * Z) :
  rrSets rrs !! k =
    match filter (fun r => rrset_key r = k) rrs with
    | [] => None
    | l => Some l
    end.
Proof. apply rrSets_lookup. Qed.

(** ** The signature cache *)

(** X9.  The first writer wins: [insert] under a key that is taken
    changes nothing, so a second [insert] under the same key is lost and
    [search] keeps returning the first record; other keys are not touched;
    and after [remove] an [insert] under the key takes effect. *)
Theorem sigCache_first_writer_wins (c : gmap string RRSIG) (k : string)
    (a b : RRSIG) :
  sigCache_insert (sigCache_insert c k a) k b = sigCache_insert c k a /\
  sigCache_search (sigCache_insert c k a) k = Some (default a (c !! k)) /\
  (forall k', k' <> k ->
     sigCache_search (sigCache_insert c k a) k' = sigCache_search c k') /\
  sigCache_search (sigCache_remove c k) k = None /\
  sigCache_search (sigCache_insert (sigCache_remove c k) k b) k = Some b.
Proof.
  unfold sigCache_insert, sigCache_search, sigCache_remove.
  repeat split.
  - destruct (c !! k) as [old|] eqn:Hold.
    + now rewrite Hold.
    + now rewrite lookup_insert_eq.
  - destruct (c !! k) as [old|] eqn:Hold; simpl.
    + assumption.
    + apply lookup_insert_eq.
  - intros k' Hne. destruct (c !! k); [reflexivity|].
    now rewrite lookup_insert_ne.
  - apply lookup_delete_eq.
  - rewrite lookup_delete_eq. apply lookup_insert_eq.
Qed.

(** ** What the key of an RRset holds *)

Lemma foldl_key_fields (rrs : list RR) : forall i,
  foldl (fun i r => i ++ key_fields r) i rrs =
    i ++ List.concat (map key_fields rrs).
Proof.
  induction rrs as [|r rrs IH]; intros i; simpl.
  - now rewrite app_nil_r.
  - rewrite IH, <- app_assoc. reflexivity.
Qed.

Lemma sigCache_key_eq (r0 : RR) (rs : list RR) :
  sigCache_key (r0 :: rs) =
    Some (string_of_bytes
            ((bytes_of_string (hdr_Name (Header r0))
              ++ packUint16 (hdr_Rrtype (Header r0)))
             ++ List.concat (map key_fields (r0 :: rs)) ++ sha1_empty)).
Proof.
  unfold sigCache_key. cbn [head mbind option_bind].
  rewrite foldl_key_fields, <- !app_assoc. reflexivity.
Qed.

Lemma unkeyed_fields (rrs : list RR) :
  Forall unkeyed rrs -> List.concat (map key_fields rrs) = [].
Proof.
  induction 1 as [|r rrs Hr Hrs IH]; simpl; [reflexivity|].
  rewrite IH. destruct r; simpl in *; try contradiction; reflexivity.
Qed.

Lemma bytes_of_string_bytes (s : string) : Forall is_byte (bytes_of_string s).
Proof.
  unfold bytes_of_string. apply Forall_forall. intros x Hx.
  apply list_elem_of_fmap in Hx as (a & -> & _).
  pose proof (N_ascii_bounded a). unfold is_byte. lia.
Qed.

Lemma packUint16_bytes (i : Z) : Forall is_byte (packUint16 i).
Proof.
  unfold packUint16. repeat constructor; apply Z.mod_pos_bound; lia.
Qed.

Lemma string_of_bytes_inj (a b : list Z) :
  Forall is_byte a -> Forall is_byte b ->
  string_of_bytes a = string_of_bytes b -> a = b.
Proof.
  intros Ha Hb Heq.
  rewrite <- (bytes_of_string_of_bytes a), <- (bytes_of_string_of_bytes b)
    by assumption.
  now rewrite Heq.
Qed.

Lemma concat_chunks_inj (n : nat) (l l' : list (list Z)) :
  (0 < n)%nat ->
  Forall (fun a => List.length a = n) l ->
  Forall (fun a => List.length a = n) l' ->
  List.concat l = List.concat l' -> l = l'.
Proof.
  intros Hn Hl. revert l'.
  induction Hl as [|a l Ha Hl IH]; intros l' Hl' Heq.
  - destruct Hl' as [|a' l' Ha' Hl']; [reflexivity|].
    simpl in Heq. apply (f_equal List.length) in Heq.
    rewrite length_app in Heq. simpl in Heq. lia.
  - destruct Hl' as [|a' l' Ha' Hl'].
    + simpl in Heq. apply (f_equal List.length) in Heq.
      rewrite length_app in Heq. simpl in Heq. lia.
    + simpl in Heq. apply app_inj_1 in Heq as [-> Htl]; [|congruence].
      f_equal. now apply IH.
Qed.

(** X11.  The key tells address RRsets apart: for two sets of address
    records under the same owner name and type, whose addresses are slices
    of bytes of one length, equal keys mean the same addresses in the same
    order. *)
Theorem sigCache_key_addresses (name : string) (ty : Z) (n : nat)
    (l l' : list (RR_Header * list Z)) :
  (0 < n)%nat ->
  Forall (fun x => hdr_Name (fst x) = name /\ hdr_Rrtype (fst x) = ty /\
                   List.length (snd x) = n /\ Forall is_byte (snd x)) l ->
  Forall (fun x => hdr_Name (fst x) = name /\ hdr_Rrtype (fst x) = ty /\
                   List.length (snd x) = n /\ Forall is_byte (snd x)) l' ->
  sigCache_key (map (fun x => RR_A (fst x) (snd x)) l) =
  sigCache_key (map (fun x => RR_A (fst x) (snd x)) l') ->
  map snd l = map snd l'.
Proof.
  intros Hn Hl Hl' Hkey.
  assert (forall k : list (RR_Header * list Z),
             map key_fields (map (fun x => RR_A (fst x) (snd x)) k)
             = map snd k) as Hfields.
  { intros k. rewrite map_map. apply map_ext. reflexivity. }
  assert (forall k : list (RR_Header * list Z),
             Forall (fun x => hdr_Name (fst x) = name /\
                              hdr_Rrtype (fst x) = ty /\
                              List.length (snd x) = n /\
                              Forall is_byte (snd x)) k ->
             Forall (fun a => List.length a = n) (map snd k) /\
             Forall is_byte (List.concat (map snd k))) as Hshape.
  { intros k Hk. induction Hk as [|x k (_ & _ & Hlen & Hb) Hk [IH1 IH2]].
    - split; constructor.
    - split; [now constructor|]. simpl. apply Forall_app. now split. }
  destruct (Hshape l Hl) as [Hlen Hbytes].
  destruct (Hshape l' Hl') as [Hlen' Hbytes'].
  destruct l as [|[h a] l]; destruct l' as [|[h' a'] l']; simpl in Hkey.
  - reflexivity.
  - discriminate.
  - discriminate.
  - change (sigCache_key (RR_A h a :: map (fun x => RR_A (fst x) (snd x)) l)
            = sigCache_key
                (RR_A h' a' :: map (fun x => RR_A (fst x) (snd x)) l'))
      in Hkey.
    rewrite !sigCache_key_eq in Hkey. injection Hkey as Hkey.
    inversion Hl as [|? ? (Hname & Hty & _) _]; subst.
    inversion Hl' as [|? ? (Hname' & Hty' & _) _]; subst.
    cbn [Header fst snd] in *. rewrite Hname', Hty' in Hkey.
    change (RR_A h a :: map (fun x => RR_A (fst x) (snd x)) l)
      with (map (fun x => RR_A (fst x) (snd x)) ((h, a) :: l)) in Hkey.
    change (RR_A h' a' :: map (fun x => RR_A (fst x) (snd x)) l')
      with (map (fun x => RR_A (fst x) (snd x)) ((h', a') :: l')) in Hkey.
    rewrite !Hfields in Hkey.
    assert (Forall is_byte sha1_empty) as Hsha.
    { unfold sha1_empty. repeat constructor; unfold is_byte; lia. }
    apply string_of_bytes_inj in Hkey.
    + apply app_inv_head, app_inv_tail in Hkey.
      now apply (concat_chunks_inj n).
    + apply Forall_app; split; [|apply Forall_app; split]; try assumption.
      apply Forall_app; split;
        auto using bytes_of_string_bytes, packUint16_bytes.
    + apply Forall_app; split; [|apply Forall_app; split]; try assumption.
      apply Forall_app; split;
        auto using bytes_of_string_bytes, packUint16_bytes.
Qed.

Lemma sigCache_key_addresses_witness :
  map snd
    [(mkHeader "www.example.com." TypeA ClassINET 60 0, [192; 0; 2; 1])] =
  map snd
    [(mkHeader "www.example.com." TypeA ClassINET 3600 0, [192; 0; 2; 1])].
Proof.
  apply (sigCache_key_addresses "www.example.com." TypeA 4
           [(mkHeader "www.example.com." TypeA ClassINET 60 0, [192; 0; 2; 1])]
           [(mkHeader "www.example.com." TypeA ClassINET 3600 0,
             [192; 0; 2; 1])]).
  - lia.
  - repeat constructor; unfold is_byte; lia.
  - repeat constructor; unfold is_byte; lia.
  - reflexivity.
Defined.

Section KeyProperties.
Context `{Extern}.

(** X10.  The key of an RRset of TXT, NS or DNSKEY records holds the owner
    name and the type only: two such sets under the same owner name and type
    have the same key whatever their data, TTL and class, so after the first
    is signed and cached [signSet] returns its signature for the second,
    without signing. *)
Theorem key_ignores_unkeyed_data (s : Config) (r0 r0' : RR)
    (rs rs' : list RR) (now1 incep1 expir1 now2 incep2 expir2 : Z)
    (st : State) (key : string) (sig : RRSIG) :
  Forall unkeyed (r0 :: rs) ->
  Forall unkeyed (r0' :: rs') ->
  rrset_key r0 = rrset_key r0' ->
  sigCache_key (r0 :: rs) = Some key ->
  cache_fresh (cache st) key now1 = false ->
  single_m (inflight st) !! key = None ->
  Sign (signs st) (cfg_PrivKey s) (signSet_sig1 s r0 incep1 expir1)
    (r0 :: rs) = (sig, None) ->
  ValidityPeriod sig (now2 + 24 * 3600) = true ->
  sigCache_key (r0' :: rs') = Some key /\
  exists st1,
    signSet s (r0 :: rs) now1 incep1 expir1 st = Some (st1, inl sig) /\
    signSet s (r0' :: rs') now2 incep2 expir2 st1 = Some (st1, inl sig) /\
    signs st1 = S (signs st).
Proof.
  intros Hu Hu' Hsame Hkey Hfresh Hidle Hsign Hvalid.
  assert (sigCache_key (r0' :: rs') = Some key) as Hkey'.
  { rewrite <- Hkey, !sigCache_key_eq.
    rewrite (unkeyed_fields _ Hu), (unkeyed_fields _ Hu').
    unfold rrset_key in Hsame. injection Hsame as -> ->. reflexivity. }
  split; [assumption|]. now apply (signSet_then_hit _ _ _ _ _ _ _ _ _ _ _ _ key).
Qed.

End KeyProperties.

Lemma key_ignores_unkeyed_data_witness :
  sigCache_key [exampleTXT 3600] = Some (keyOf [exampleTXT 60]) /\
  exists st1,
    signSet (exampleConfig (Some "k")) [exampleTXT 60] exampleNow
      (inception exampleNow) (expiration exampleNow) exampleState
    = Some (st1,
            inl (fst (exampleSign 0 (Some "k")
                        (signSet_sig1 (exampleConfig (Some "k"))
                           (exampleTXT 60) (inception exampleNow)
                           (expiration exampleNow)) [exampleTXT 60]))) /\
    signSet (exampleConfig (Some "k")) [exampleTXT 3600] exampleNow
      (inception exampleNow) (expiration exampleNow) st1
    = Some (st1,
            inl (fst (exampleSign 0 (Some "k")
                        (signSet_sig1 (exampleConfig (Some "k"))
                           (exampleTXT 60) (inception exampleNow)
                           (expiration exampleNow)) [exampleTXT 60]))) /\
    signs st1 = S (signs exampleState).
Proof.
  apply (key_ignores_unkeyed_data (exampleConfig (Some "k"))
           (exampleTXT 60) (exampleTXT 3600) [] []
           exampleNow (inception exampleNow) (expiration exampleNow)
           exampleNow (inception exampleNow) (expiration exampleNow)
           exampleState (keyOf [exampleTXT 60]));
    first [reflexivity | repeat constructor].
Defined.

(** ** Followers of a single-flight call *)

Section Followers.
Context {W : Type}.

(** X12.  A second caller that enters [Do] with a key whose call is
    registered becomes a follower of that call: it is blocked until the
    leader's operation has returned, and from then on, also after the
    leader has unregistered the call, it gets what the operation returned
    with the flag set; the leader gets the same, with the flag set as well.
    The operation ran once, for the leader. *)
Theorem Do_follower_shares (key : string)
    (fn : W -> W * (RRSIG * option error)) (g : single) (w : W) :
  single_m g !! key = None -> single_wf g ->
  let c := List.length (single_calls g) in
  let g1 := fst (Do_enter key g) in
  let g2 := fst (Do_enter key g1) in
  let g3 := fst (Do_call c fn g2 w) in
  let result := (Some (fst (snd (fn w))), snd (snd (fn w)), true) in
  snd (Do_enter key g) = Leader c /\
  snd (Do_enter key g1) = Follower c /\
  Do_wait c g2 = None /\
  snd (Do_call c fn g2 w) = fst (fn w) /\
  Do_wait c g3 = Some result /\
  exists g4,
    Do_leave key c g3 = Some (g4, result) /\
    single_m g4 !! key = None /\
    Do_wait c g4 = Some result.
Proof.
  intros Hkey Hwf c g1 g2 g3 result.
  destruct (Do_enter_leader key g Hkey Hwf) as (Henter & Hreg & Hcl).
  fold c in Henter, Hreg, Hcl. fold g1 in Hreg, Hcl.
  destruct (Do_enter_other key c g1 _ key Hreg Hcl) as [Hreg2 Hcl2].
  fold g2 in Hreg2, Hcl2. rewrite decide_True in Hcl2 by reflexivity.
  cbn [call_wg call_val call_err call_dups] in Hcl2.
  split; [now rewrite Henter|]. split.
  { unfold Do_enter. destruct Hreg as (Hm & _ & _). now rewrite Hm. }
  split.
  { unfold Do_wait. rewrite Hcl2. reflexivity. }
  assert (single_calls g3 !! c
          = Some (mkCall 0 (Some (fst (snd (fn w)))) (snd (snd (fn w))) 1))
    as Hcl3.
  { subst g3. unfold Do_call. destruct (fn w) as [w' [v e]]. simpl.
    rewrite list_lookup_alter_eq, Hcl2. reflexivity. }
  split.
  { unfold Do_call. destruct (fn w) as [w' [v e]]. reflexivity. }
  split.
  { unfold Do_wait. rewrite Hcl3. reflexivity. }
  unfold Do_leave. rewrite Hcl3. cbn [mbind option_bind].
  eexists. split; [reflexivity|]. split.
  - simpl. apply lookup_delete_eq.
  - unfold Do_wait. simpl. rewrite Hcl3. reflexivity.
Qed.

End Followers.

Lemma Do_follower_shares_witness :
  let key := "k" in
  let fn := countingFn (NewRRSIG (exampleConfig None) 0 0) None in
  let g1 := fst (Do_enter key newSingle) in
  let g2 := fst (Do_enter key g1) in
  let g3 := fst (Do_call 0 fn g2 0%nat) in
  let result := (Some (NewRRSIG (exampleConfig None) 0 0), None, true) in
  snd (Do_enter key newSingle) = Leader 0 /\
  snd (Do_enter key g1) = Follower 0 /\
  Do_wait 0 g2 = None /\
  snd (Do_call 0 fn g2 0%nat) = 1%nat /\
  Do_wait 0 g3 = Some result /\
  exists g4,
    Do_leave key 0 g3 = Some (g4, result) /\
    single_m g4 !! key = None /\
    Do_wait 0 g4 = Some result.
Proof.
  apply (Do_follower_shares "k"
           (countingFn (NewRRSIG (exampleConfig None) 0 0) None)
           newSingle 0%nat).
  - reflexivity.
  - intros k c Hk. simpl in Hk. rewrite lookup_empty in Hk. discriminate.
Defined.

(** ** A signature made while another caller waits for it *)

Lemma Do_among_leader_result {W : Type} (key : string)
    (fn : W -> W * (RRSIG * option error))
    (joins1 joins2 : list string) (g : single) (w : W) :
  single_m g !! key = None -> single_wf g ->
  exists g',
    Do_among key fn joins1 joins2 g w =
      Some (g', fst (fn w),
            (Some (fst (snd (fn w))), snd (snd (fn w)),
             bool_decide (key ∈ joins1 ++ joins2))) /\
    single_m g' !! key = None.
Proof.
  intros Hkey Hwf.
  destruct (Do_enter_leader key g Hkey Hwf) as (Henter & Hreg & Hcl).
  unfold Do_among. rewrite Henter in *. simpl fst in *.
  set (c := List.length (single_calls g)) in *.
  destruct (others_enter_spec key c joins1 _ _ Hreg Hcl) as [Hreg1 Hcl1].
  simpl in Hcl1.
  unfold Do_call. destruct (fn w) as [w' [v e]]. simpl.
  set (g3 := mkSingle _ (alter _ c _)).
  assert (registered key c g3) as Hreg3 by now apply registered_alter.
  assert (single_calls g3 !! c =
            Some (mkCall 0 (Some v) e
                    (Z.of_nat (count_occ string_dec joins1 key)))) as Hcl3.
  { unfold g3. simpl. rewrite list_lookup_alter_eq, Hcl1. reflexivity. }
  destruct (others_enter_spec key c joins2 _ _ Hreg3 Hcl3) as [Hreg4 Hcl4].
  simpl in Hcl4. unfold Do_leave. rewrite Hcl4. simpl.
  eexists. split.
  - do 4 f_equal. rewrite <- joined_count, count_occ_app.
    f_equal. lia.
  - simpl. apply lookup_delete_eq.
Qed.

Section SharedSignature.
Context `{Extern}.

(** X13.  [signSet] among other callers is [signSet] when no other caller
    enters.  When another caller enters [Do] with the same key while the
    signing operation is under way, the caller that signs gets the flag
    set and returns the signature without storing it: the cache holds
    nothing under the key afterwards, and the next call of [signSet] for the
    RRset signs again. *)
Theorem signSet_shared_not_cached (s : Config) (r0 : RR) (rs : list RR)
    (now incep expir now2 incep2 expir2 : Z) (joins1 joins2 : list string)
    (st : State) (key : string) (sig : RRSIG) :
  sigCache_key (r0 :: rs) = Some key ->
  cache_fresh (cache st) key now = false ->
  single_m (inflight st) !! key = None ->
  single_wf (inflight st) ->
  key ∈ joins1 ++ joins2 ->
  Sign (signs st) (cfg_PrivKey s) (signSet_sig1 s r0 incep expir) (r0 :: rs)
    = (sig, None) ->
  signSet_among s (r0 :: rs) now incep expir [] [] st
    = signSet s (r0 :: rs) now incep expir st /\
  exists st',
    signSet_among s (r0 :: rs) now incep expir joins1 joins2 st
      = Some (st', inl sig) /\
    cache st' !! key = None /\
    signs st' = S (signs st) /\
    exists st'' res,
      signSet s (r0 :: rs) now2 incep2 expir2 st' = Some (st'', res) /\
      signs st'' = S (S (signs st)).
Proof.
  intros Hkey Hfresh Hidle Hwf Hjoin Hsign. split; [reflexivity|].
  assert (exists st',
             signSet_among s (r0 :: rs) now incep expir joins1 joins2 st
               = Some (st', inl sig) /\
             cache st' = delete key (cache st) /\
             signs st' = S (signs st) /\
             single_m (inflight st') !! key = None) as (st' & Hset & Hc & Hn & Hm).
  { unfold signSet_among. rewrite Hkey. cbn [mbind option_bind head].
    unfold cache_fresh, sigCache_search in *.
    destruct (cache st !! key) as [old|] eqn:Hold.
    - rewrite Hfresh. unfold signSet_miss_among. cbn [inflight signs cache].
      destruct (Do_among_leader_result key (signSet_fn s r0 (r0 :: rs) incep expir)
                  joins1 joins2 (inflight st) (signs st) Hidle Hwf)
        as (g' & -> & Hg').
      unfold signSet_fn. cbn [fst snd]. rewrite Hsign. cbn [fst snd].
      rewrite bool_decide_eq_true_2 by assumption.
      eexists. split; [reflexivity|]. cbn [cache signs inflight].
      unfold sigCache_remove. repeat split. assumption.
    - unfold signSet_miss_among.
      destruct (Do_among_leader_result key (signSet_fn s r0 (r0 :: rs) incep expir)
                  joins1 joins2 (inflight st) (signs st) Hidle Hwf)
        as (g' & -> & Hg').
      unfold signSet_fn. cbn [fst snd]. rewrite Hsign. cbn [fst snd].
      rewrite bool_decide_eq_true_2 by assumption.
      eexists. split; [reflexivity|]. cbn [cache signs inflight].
      rewrite delete_id by assumption. repeat split. assumption. }
  exists st'. split; [assumption|].
  assert (cache st' !! key = None) as Hnone.
  { rewrite Hc. apply lookup_delete_eq. }
  split; [assumption|]. split; [assumption|].
  rewrite (signSet_signs s r0 rs now2 incep2 expir2 st' key);
    [|assumption| |assumption].
  - cbn zeta. eexists _, _. split; [reflexivity|].
    unfold after_sign. cbn [signs]. now rewrite Hn.
  - unfold cache_fresh, sigCache_search. now rewrite Hnone.
Qed.

End SharedSignature.

Lemma signSet_shared_not_cached_witness :
  exists st',
    signSet_among (exampleConfig (Some "k")) [exampleA 60] exampleNow
      (inception exampleNow) (expiration exampleNow)
      [keyOf [exampleA 60]] [] exampleState
      = Some (st', inl exampleSig) /\
    cache st' !! keyOf [exampleA 60] = None /\
    signs st' = 1%nat /\
    exists st'' res,
      signSet (exampleConfig (Some "k")) [exampleA 60] exampleNow
        (inception exampleNow) (expiration exampleNow) st'
        = Some (st'', res) /\
      signs st'' = 2%nat.
Proof.
  apply (signSet_shared_not_cached (exampleConfig (Some "k")) (exampleA 60) []
           exampleNow (inception exampleNow) (expiration exampleNow)
           exampleNow (inception exampleNow) (expiration exampleNow)
           [keyOf [exampleA 60]] [] exampleState (keyOf [exampleA 60])
           exampleSig).
  - reflexivity.
  - reflexivity.
  - reflexivity.
  - intros k c Hk. simpl in Hk. rewrite lookup_empty in Hk. discriminate.
  - apply list_elem_of_here.
  - reflexivity.
Defined.

(** ** What [sign] does to a message *)

Section SignProperties.
Context `{Extern}.

Lemma signSets_appends (s : Config) (now incep expir : Z)
    (sets : list ((string * Z) * list RR)) : forall sec st st' sec',
  signSets s now incep expir sets sec st = Some (st', sec') ->
  exists sigs,
    sec' = sec ++ map RR_RRSIG sigs /\
    (List.length sigs <= List.length sets)%nat.
Proof.
  induction sets as [|[k r] sets IH]; intros sec st st' sec' Hrun.
  - injection Hrun as <- <-. exists []. simpl. now rewrite app_nil_r.
  - simpl in Hrun. destruct r as [|r0 rs]; [discriminate|].
    cbn [head mbind option_bind] in Hrun.
    destruct (hdr_Rrtype (Header r0) =? TypeRRSIG).
    + destruct (IH _ _ _ _ Hrun) as (sigs & -> & Hlen).
      exists sigs. split; [reflexivity|]. simpl. lia.
    + destruct (signSet s (r0 :: rs) now incep expir st) as [[st1 res]|];
        [|discriminate].
      cbn [mbind option_bind] in Hrun. destruct res as [sig|e].
      * destruct (IH _ _ _ _ Hrun) as (sigs & -> & Hlen).
        exists (sig :: sigs). rewrite <- app_assoc. split; [reflexivity|].
        simpl. lia.
      * destruct (IH _ _ _ _ Hrun) as (sigs & -> & Hlen).
        exists sigs. split; [reflexivity|]. simpl. lia.
Qed.

(** X14.  With no call in flight, [sign] returns a message with the result
    code and the question of the one it was given; each section is the old
    section followed by signature records only, and the additional section
    ends with the OPT record after them.  No record is dropped or
    reordered. *)
Theorem sign_only_appends (s : Config) (m : Msg) (bufsize now : Z)
    (st : State) :
  single_m (inflight st) = ∅ ->
  exists st' m' sa sn se,
    sign s m bufsize now st = Some (st', m') /\
    msg_Rcode m' = msg_Rcode m /\
    msg_Question m' = msg_Question m /\
    msg_Answer m' = msg_Answer m ++ map RR_RRSIG sa /\
    msg_Ns m' = msg_Ns m ++ map RR_RRSIG sn /\
    msg_Extra m' = msg_Extra m ++ map RR_RRSIG se ++ [optRecord].
Proof.
  intros Hidle. destruct (sign_total s m bufsize now st Hidle) as [[st' m'] Hrun].
  pose proof Hrun as Hsign. unfold sign in Hrun.
  destruct (signSets s now (inception now) (expiration now)
              (rangeMap (rrSets (msg_Answer m))) (msg_Answer m) st)
    as [[st1 answer]|] eqn:Ha; [|discriminate].
  cbn [mbind option_bind] in Hrun.
  destruct (signSets s now (inception now) (expiration now)
              (rangeMap (rrSets (msg_Ns m))) (msg_Ns m) st1)
    as [[st2 ns]|] eqn:Hn; [|discriminate].
  cbn [mbind option_bind] in Hrun.
  destruct (signSets s now (inception now) (expiration now)
              (rangeMap (rrSets (msg_Extra m))) (msg_Extra m) st2)
    as [[st3 extra]|] eqn:He; [|discriminate].
  cbn [mbind option_bind] in Hrun. injection Hrun as <- <-.
  apply signSets_appends in Ha as (sa & -> & _).
  apply signSets_appends in Hn as (sn & -> & _).
  apply signSets_appends in He as (se & -> & _).
  eexists st3, _, sa, sn, se. split; [exact Hsign|].
  cbn [msg_Rcode msg_Question msg_Answer msg_Ns msg_Extra].
  rewrite <- app_assoc. repeat split.
Qed.

(** X15.  [sign] sets the truncation flag whatever the buffer size is (a
    size is always at least 512 or at most 4096): the flag of the message
    it returns says whether the signed message, before the OPT record is
    added, is longer than the buffer, and the flag the message came with is
    never kept. *)
Theorem sign_sets_truncated (s : Config) (m : Msg) (bufsize now : Z)
    (st : State) :
  single_m (inflight st) = ∅ ->
  exists st' m' extra,
    sign s m bufsize now st = Some (st', m') /\
    msg_Extra m' = extra ++ [optRecord] /\
    msg_Truncated m' =
      (bufsize <?
       Msg_Len (mkMsg (msg_Rcode m') (msg_Truncated m) (msg_Question m')
                  (msg_Answer m') (msg_Ns m') extra)).
Proof.
  intros Hidle. destruct (sign_total s m bufsize now st Hidle) as [[st' m'] Hrun].
  pose proof Hrun as Hsign. unfold sign in Hrun.
  destruct (signSets s now (inception now) (expiration now)
              (rangeMap (rrSets (msg_Answer m))) (msg_Answer m) st)
    as [[st1 answer]|]; [|discriminate].
  cbn [mbind option_bind] in Hrun.
  destruct (signSets s now (inception now) (expiration now)
              (rangeMap (rrSets (msg_Ns m))) (msg_Ns m) st1)
    as [[st2 ns]|]; [|discriminate].
  cbn [mbind option_bind] in Hrun.
  destruct (signSets s now (inception now) (expiration now)
              (rangeMap (rrSets (msg_Extra m))) (msg_Extra m) st2)
    as [[st3 extra]|]; [|discriminate].
  cbn [mbind option_bind] in Hrun. injection Hrun as <- <-.
  eexists st3, _, extra. split; [exact Hsign|].
  cbn [msg_Rcode msg_Question msg_Answer msg_Ns msg_Extra msg_Truncated].
  split; [reflexivity|].
  assert ((512 <=? bufsize) || (bufsize <=? 4096) = true) as ->.
  { apply orb_true_iff.
    destruct (Z.leb_spec 512 bufsize); [now left|right]. apply Z.leb_le. lia. }
  reflexivity.
Qed.

Lemma rangeMap_group (rrs : list RR) (k : string * Z) (l : list RR) :
  (k, l) ∈ rangeMap (rrSets rrs) ->
  exists r0 rs, l = r0 :: rs /\ rrset_key r0 = k /\ r0 ∈ rrs.
Proof.
  intros Hin. rewrite rangeMap_perm in Hin.
  apply elem_of_map_to_list in Hin. rewrite rrSets_lookup in Hin.
  destruct (filter (fun r => rrset_key r = k) rrs) as [|r0 rs] eqn:Hf;
    [discriminate|].
  injection Hin as <-. exists r0, rs. split; [reflexivity|].
  assert (r0 ∈ filter (fun r => rrset_key r = k) rrs) as Hr0.
  { rewrite Hf. apply list_elem_of_here. }
  apply list_elem_of_filter in Hr0 as [Hk Hr0]. now split.
Qed.

Lemma signSets_skips (s : Config) (now incep expir : Z)
    (sets : list ((string * Z) * list RR)) (sec : list RR) (st : State) :
  Forall (fun x => exists r0 rs, snd x = r0 :: rs /\
                                 hdr_Rrtype (Header r0) = TypeRRSIG) sets ->
  signSets s now incep expir sets sec st = Some (st, sec).
Proof.
  induction 1 as [|[k r] sets (r0 & rs & Hr & Hty) Hsets IH]; [reflexivity|].
  simpl in Hr. subst r. simpl. rewrite Hty. simpl. exact IH.
Qed.

Lemma rangeMap_all_RRSIG (rrs : list RR) :
  Forall (fun r => hdr_Rrtype (Header r) = TypeRRSIG) rrs ->
  Forall (fun x => exists r0 rs, snd x = r0 :: rs /\
                                 hdr_Rrtype (Header r0) = TypeRRSIG)
    (rangeMap (rrSets rrs)).
Proof.
  intros Hall. apply Forall_forall. intros [k l] Hin.
  destruct (rangeMap_group rrs k l Hin) as (r0 & rs & -> & _ & Hr0).
  exists r0, rs. split; [reflexivity|].
  rewrite Forall_forall in Hall. now apply Hall.
Qed.

(** X16.  [sign] does not sign signatures: on a message all of whose
    records have the type RRSIG in their header (a message without records
    among them) it makes no call of [signSet], leaves the state as it is, and
    returns the message with the truncation flag set anew and the OPT record
    added. *)
Theorem sign_skips_signatures (s : Config) (m : Msg) (bufsize now : Z)
    (st : State) :
  Forall (fun r => hdr_Rrtype (Header r) = TypeRRSIG)
    (msg_Answer m ++ msg_Ns m ++ msg_Extra m) ->
  sign s m bufsize now st =
    Some (st,
          mkMsg (msg_Rcode m)
            (bufsize <?
             Msg_Len (mkMsg (msg_Rcode m) (msg_Truncated m) (msg_Question m)
                        (msg_Answer m) (msg_Ns m) (msg_Extra m)))
            (msg_Question m) (msg_Answer m) (msg_Ns m)
            (msg_Extra m ++ [optRecord])).
Proof.
  intros Hall. apply Forall_app in Hall as [Ha Hall].
  apply Forall_app in Hall as [Hn He].
  unfold sign.
  rewrite (signSets_skips s now _ _ (rangeMap (rrSets (msg_Answer m))))
    by now apply rangeMap_all_RRSIG.
  cbn [mbind option_bind].
  rewrite (signSets_skips s now _ _ (rangeMap (rrSets (msg_Ns m))))
    by now apply rangeMap_all_RRSIG.
  cbn [mbind option_bind].
  rewrite (signSets_skips s now _ _ (rangeMap (rrSets (msg_Extra m))))
    by now apply rangeMap_all_RRSIG.
  cbn [mbind option_bind].
  assert ((512 <=? bufsize) || (bufsize <=? 4096) = true) as ->.
  { apply orb_true_iff.
    destruct (Z.leb_spec 512 bufsize); [now left|right]. apply Z.leb_le. lia. }
  reflexivity.
Qed.

End SignProperties.

Lemma sign_only_appends_witness :
  exists st' m' sa sn se,
    sign (exampleConfig (Some "k"))
      (mkMsg RcodeSuccess false [mkQuestion "www.example.com." TypeA ClassINET]
         [exampleA 60] [] [])
      4096 exampleNow exampleState = Some (st', m') /\
    msg_Rcode m' = RcodeSuccess /\
    msg_Question m' = [mkQuestion "www.example.com." TypeA ClassINET] /\
    msg_Answer m' = [exampleA 60] ++ map RR_RRSIG sa /\
    msg_Ns m' = [] ++ map RR_RRSIG sn /\
    msg_Extra m' = [] ++ map RR_RRSIG se ++ [optRecord].
Proof.
  exact (sign_only_appends (exampleConfig (Some "k"))
           (mkMsg RcodeSuccess false
              [mkQuestion "www.example.com." TypeA ClassINET]
              [exampleA 60] [] [])
           4096 exampleNow exampleState eq_refl).
Defined.

Lemma sign_sets_truncated_witness :
  exists st' m' extra,
    sign (exampleConfig (Some "k"))
      (mkMsg RcodeSuccess true [mkQuestion "www.example.com." TypeA ClassINET]
         [exampleA 60] [] [])
      100 exampleNow exampleState = Some (st', m') /\
    msg_Extra m' = extra ++ [optRecord] /\
    msg_Truncated m' =
      (100 <?
       Msg_Len (mkMsg (msg_Rcode m') true (msg_Question m')
                  (msg_Answer m') (msg_Ns m') extra)).
Proof.
  exact (sign_sets_truncated (exampleConfig (Some "k"))
           (mkMsg RcodeSuccess true
              [mkQuestion "www.example.com." TypeA ClassINET]
              [exampleA 60] [] [])
           100 exampleNow exampleState eq_refl).
Defined.

Lemma sign_skips_signatures_witness :
  sign (exampleConfig (Some "k"))
    (mkMsg RcodeSuccess true [] [RR_RRSIG exampleSig] [] [])
    512 exampleNow exampleState =
  Some (exampleState,
        mkMsg RcodeSuccess false [] [RR_RRSIG exampleSig] [] [optRecord]).
Proof.
  apply (sign_skips_signatures (exampleConfig (Some "k"))
           (mkMsg RcodeSuccess true [] [RR_RRSIG exampleSig] [] [])
           512 exampleNow exampleState).
  repeat constructor.
Defined.

(** ** One signature for each RRset *)

Section OneSignatureEach.
Context `{Extern}.

Lemma signSet_succeeds (s : Config) (r0 : RR) (rs : list RR)
    (now incep expir : Z) (st : State) :
  single_m (inflight st) = ∅ ->
  (forall n sig r0 r, snd (Sign n (cfg_PrivKey s) sig (r0 :: r)) = None) ->
  exists st' sig,
    signSet s (r0 :: rs) now incep expir st = Some (st', inl sig) /\
    single_m (inflight st') = ∅.
Proof.
  intros Hidle Hok. destruct (sigCache_key_cons r0 rs) as [key Hkey].
  destruct (cache_fresh (cache st) key now) eqn:Hfresh.
  - unfold cache_fresh, sigCache_search in Hfresh.
    destruct (cache st !! key) as [sig|] eqn:Hsig; [|discriminate].
    exists st, sig. split; [|assumption].
    now apply (signSet_hit _ _ _ _ _ _ _ key).
  - rewrite (signSet_signs s r0 rs now incep expir st key); try assumption.
    + cbn zeta. rewrite Hok. eexists _, _. split; [reflexivity|]. assumption.
    + rewrite Hidle. apply lookup_empty.
Qed.

Lemma signSets_one_each (s : Config) (now incep expir : Z)
    (sets : list ((string * Z) * list RR)) : forall sec st,
  Forall (fun x => exists r0 rs, snd x = r0 :: rs /\
                                 hdr_Rrtype (Header r0) = snd (fst x)) sets ->
  single_m (inflight st) = ∅ ->
  (forall n sig r0 r, snd (Sign n (cfg_PrivKey s) sig (r0 :: r)) = None) ->
  exists st' sigs,
    signSets s now incep expir sets sec st
      = Some (st', sec ++ map RR_RRSIG sigs) /\
    single_m (inflight st') = ∅ /\
    List.length sigs =
      List.length
        (filter (fun x : (string * Z) * list RR => snd (fst x) <> TypeRRSIG)
           sets).
Proof.
  induction sets as [|[k r] sets IH]; intros sec st Hsets Hidle Hok.
  - exists st, []. simpl. rewrite app_nil_r. auto.
  - inversion Hsets as [|? ? (r0 & rs & Hr & Hty) Hsets']; subst.
    simpl in Hr, Hty. subst r. cbn [signSets head mbind option_bind].
    rewrite Hty.
    destruct (Z.eqb_spec (snd k) TypeRRSIG) as [Heq|Hne].
    + rewrite filter_cons_False by (simpl; intros Hc; now apply Hc).
      now apply IH.
    + rewrite filter_cons_True by exact Hne.
      destruct (signSet_succeeds s r0 rs now incep expir st Hidle Hok)
        as (st1 & sig & -> & Hidle1).
      cbn [mbind option_bind].
      destruct (IH (sec ++ [RR_RRSIG sig]) st1 Hsets' Hidle1 Hok)
        as (st' & sigs & -> & Hidle' & Hlen).
      exists st', (sig :: sigs). rewrite <- app_assoc.
      split; [reflexivity|]. split; [assumption|]. simpl. now rewrite Hlen.
Qed.

Lemma rangeMap_keyed (rrs : list RR) :
  Forall (fun x => exists r0 rs, snd x = r0 :: rs /\
                                 hdr_Rrtype (Header r0) = snd (fst x))
    (rangeMap (rrSets rrs)).
Proof.
  apply Forall_forall. intros [k l] Hin.
  destruct (rangeMap_group rrs k l Hin) as (r0 & rs & -> & Hk & _).
  exists r0, rs. split; [reflexivity|]. simpl. now rewrite <- Hk.
Qed.

Lemma rangeMap_signable (rrs : list RR) :
  List.length
    (filter (fun x : (string * Z) * list RR => snd (fst x) <> TypeRRSIG)
       (rangeMap (rrSets rrs)))
  = signable_sets rrs.
Proof.
  unfold signable_sets. apply Permutation_length.
  now rewrite rangeMap_perm.
Qed.

(** X17.  With no call in flight and a signing operation that does not
    fail on a set that is not empty, [sign] adds to every section one record for each owner name and
    type among its records, the type RRSIG apart; the additional section
    gets the OPT record besides. *)
Theorem sign_one_signature_each (s : Config) (m : Msg) (bufsize now : Z)
    (st : State) :
  single_m (inflight st) = ∅ ->
  (forall n sig r0 r, snd (Sign n (cfg_PrivKey s) sig (r0 :: r)) = None) ->
  exists st' m',
    sign s m bufsize now st = Some (st', m') /\
    List.length (msg_Answer m') =
      (List.length (msg_Answer m) + signable_sets (msg_Answer m))%nat /\
    List.length (msg_Ns m') =
      (List.length (msg_Ns m) + signable_sets (msg_Ns m))%nat /\
    List.length (msg_Extra m') =
      (List.length (msg_Extra m) + signable_sets (msg_Extra m) + 1)%nat.
Proof.
  intros Hidle Hok. unfold sign.
  destruct (signSets_one_each s now (inception now) (expiration now)
              (rangeMap (rrSets (msg_Answer m))) (msg_Answer m) st
              (rangeMap_keyed _) Hidle Hok)
    as (st1 & sa & -> & Hidle1 & Hla).
  cbn [mbind option_bind].
  destruct (signSets_one_each s now (inception now) (expiration now)
              (rangeMap (rrSets (msg_Ns m))) (msg_Ns m) st1
              (rangeMap_keyed _) Hidle1 Hok)
    as (st2 & sn & -> & Hidle2 & Hln).
  cbn [mbind option_bind].
  destruct (signSets_one_each s now (inception now) (expiration now)
              (rangeMap (rrSets (msg_Extra m))) (msg_Extra m) st2
              (rangeMap_keyed _) Hidle2 Hok)
    as (st3 & se & -> & Hidle3 & Hle).
  cbn [mbind option_bind].
  rewrite rangeMap_signable in Hla, Hln, Hle.
  eexists _, _. split; [reflexivity|].
  cbn [msg_Answer msg_Ns msg_Extra].
  rewrite !length_app, !length_map. simpl. lia.
Qed.

End OneSignatureEach.

Lemma sign_one_signature_each_witness :
  exists st' m',
    sign (exampleConfig (Some "k"))
      (mkMsg RcodeSuccess false [mkQuestion "www.example.com." TypeA ClassINET]
         [exampleA 60; exampleA 60; exampleTXT 60] [exampleSOA] [])
      4096 exampleNow exampleState = Some (st', m') /\
    List.length (msg_Answer m') =
      (3 + signable_sets [exampleA 60; exampleA 60; exampleTXT 60])%nat /\
    List.length (msg_Ns m') = (1 + signable_sets [exampleSOA])%nat /\
    List.length (msg_Extra m') = (0 + signable_sets [] + 1)%nat.
Proof.
  apply (sign_one_signature_each (exampleConfig (Some "k"))
           (mkMsg RcodeSuccess false
              [mkQuestion "www.example.com." TypeA ClassINET]
              [exampleA 60; exampleA 60; exampleTXT 60] [exampleSOA] [])
           4096 exampleNow exampleState).
  - reflexivity.
  - intros n sig r0 r. reflexivity.
Defined.

(** ** [Denial] as a whole *)

Section DenialProperties.
Context `{Extern}.

(** X18.  With the precomputed records of the configuration set,
    [Denial] panics exactly when it needs the name of the question and the
    message has no question: on a name error, and on a success whose
    authority section is one SOA record.  On every other message it
    returns. *)
Theorem Denial_panics_iff (s : Config) (m : Msg) :
  Denial s m = None <->
  msg_Question m = [] /\
  (msg_Rcode m = RcodeNameError \/
   (msg_Rcode m = RcodeSuccess /\
    exists r, msg_Ns m = [r] /\ is_SOA r = true)).
Proof.
  unfold Denial, Denial_NameError, Denial_NoData.
  destruct (Z.eqb_spec (msg_Rcode m) RcodeNameError) as [Hne|Hne].
  - destruct (msg_Question m) as [|q qs]; cbn [head mbind option_bind].
    + split; [intros _; split; [reflexivity|now left]|reflexivity].
    + cbn [set_Ns msg_Rcode]. rewrite Hne. cbn [Z.eqb andb].
      split; [discriminate|]. intros [Hq _]. discriminate.
  - cbn [mbind option_bind].
    destruct (Z.eqb_spec (msg_Rcode m) RcodeSuccess) as [Hok|Hok];
      cbn [andb].
    + destruct (msg_Ns m) as [|r [|r' ns]] eqn:Hns; cbn [List.length].
      * cbn. split; [discriminate|].
        intros [_ [Hc|(_ & r & Hr & _)]]; [contradiction|discriminate].
      * cbn [Z.of_nat Pos.of_succ_nat Z.eqb Pos.eqb head mbind option_bind].
        destruct (is_SOA r) eqn:Hsoa.
        -- destruct (msg_Question m) as [|q qs];
             cbn [head mbind option_bind].
           ++ split; [intros _|reflexivity].
              split; [reflexivity|]. right. split; [assumption|].
              exists r. now split.
           ++ split; [discriminate|]. intros [Hq _]. discriminate.
        -- split; [discriminate|].
           intros [_ [Hc|(_ & r1 & Hr & Hs)]]; [contradiction|].
           injection Hr as <-. congruence.
      * destruct (Z.eqb_spec (Z.of_nat (S (S (List.length ns)))) 1); [lia|].
        split; [discriminate|].
        intros [_ [Hc|(_ & r1 & Hr & _)]]; [contradiction|discriminate].
    + split; [discriminate|].
      intros [_ [Hc|(Hc & _)]]; contradiction.
Qed.

(** X19.  When [Denial] returns, the message differs from the one it was
    given in the authority section only, which is the old section followed
    by at most three NSEC3 records; a message whose result code is neither
    name error nor success comes back as it is. *)
Theorem Denial_only_appends (s : Config) (m m' : Msg) :
  Denial s m = Some m' ->
  msg_Rcode m' = msg_Rcode m /\
  msg_Truncated m' = msg_Truncated m /\
  msg_Question m' = msg_Question m /\
  msg_Answer m' = msg_Answer m /\
  msg_Extra m' = msg_Extra m /\
  (exists added : list NSEC3,
     msg_Ns m' = msg_Ns m ++ map RR_NSEC3 added /\
     (List.length added <= 3)%nat) /\
  (msg_Rcode m <> RcodeNameError -> msg_Rcode m <> RcodeSuccess -> m' = m).
Proof.
  unfold Denial, Denial_NameError, Denial_NoData. intros Hrun.
  destruct (Z.eqb_spec (msg_Rcode m) RcodeNameError) as [Hne|Hne].
  - destruct (msg_Question m) as [|q qs] eqn:Hq;
      cbn [head mbind option_bind] in Hrun; [discriminate|].
    cbn [set_Ns msg_Rcode] in Hrun. rewrite Hne in Hrun.
    cbn [Z.eqb andb] in Hrun. injection Hrun as <-.
    cbn [set_Ns msg_Rcode msg_Truncated msg_Question msg_Answer msg_Extra
         msg_Ns].
    repeat split; try assumption.
    + repeat case_decide;
        first
          [ exists [NewNSEC3NameError s (q_Name q); cfg_ClosestEncloser s;
                    cfg_DenyWildcard s];
            rewrite <- ?app_assoc; split; [reflexivity|simpl; lia]
          | exists [NewNSEC3NameError s (q_Name q); cfg_ClosestEncloser s];
            rewrite <- ?app_assoc; split; [reflexivity|simpl; lia]
          | exists [NewNSEC3NameError s (q_Name q); cfg_DenyWildcard s];
            rewrite <- ?app_assoc; split; [reflexivity|simpl; lia]
          | exists [NewNSEC3NameError s (q_Name q)];
            split; [reflexivity|simpl; lia] ].
    + intros Hc. contradiction.
  - cbn [mbind option_bind] in Hrun.
    assert (m' = m \/
            exists q, m' = set_Ns m (msg_Ns m
                                     ++ [RR_NSEC3 (NewNSEC3NoData s (q_Name q))])
                      /\ msg_Rcode m = RcodeSuccess) as [->|(q & -> & Hok)].
    { destruct (Z.eqb_spec (msg_Rcode m) RcodeSuccess) as [Hok|Hok];
        cbn [andb] in Hrun.
      - destruct (Z.of_nat (List.length (msg_Ns m)) =? 1).
        + destruct (head (msg_Ns m)) as [r|];
            cbn [mbind option_bind] in Hrun; [|discriminate].
          destruct (is_SOA r).
          * destruct (head (msg_Question m)) as [q|];
              cbn [mbind option_bind] in Hrun; [|discriminate].
            injection Hrun as <-. right. now exists q.
          * injection Hrun as <-. now left.
        + injection Hrun as <-. now left.
      - injection Hrun as <-. now left. }
    + repeat split. exists []. simpl. rewrite app_nil_r. split; [reflexivity|lia].
    + cbn [set_Ns msg_Rcode msg_Truncated msg_Question msg_Answer msg_Extra
           msg_Ns].
      repeat split.
      * exists [NewNSEC3NoData s (q_Name q)]. split; [reflexivity|simpl; lia].
      * intros _ Hc. contradiction.
Qed.

End DenialProperties.

Lemma Denial_only_appends_witness :
  let m := exampleQuery RcodeNameError "nothere.example.com." [exampleSOA] in
  let m' := set_Ns m
              [exampleSOA;
               RR_NSEC3 (NewNSEC3NameError (exampleConfig None)
                           "nothere.example.com.");
               RR_NSEC3 (cfg_ClosestEncloser (exampleConfig None));
               RR_NSEC3 (cfg_DenyWildcard (exampleConfig None))] in
  msg_Rcode m' = msg_Rcode m /\
  msg_Truncated m' = msg_Truncated m /\
  msg_Question m' = msg_Question m /\
  msg_Answer m' = msg_Answer m /\
  msg_Extra m' = msg_Extra m /\
  (exists added : list NSEC3,
     msg_Ns m' = msg_Ns m ++ map RR_NSEC3 added /\
     (List.length added <= 3)%nat) /\
  (msg_Rcode m <> RcodeNameError -> msg_Rcode m <> RcodeSuccess -> m' = m).
Proof.
  intros m m'.
  exact (Denial_only_appends (exampleConfig None) m m' eq_refl).
Defined.

(** ** The packing of integers in the key *)


(** ** What [signSet] leaves alone *)

Section SignSetFrame.
Context `{Extern}.

(** X21.  A call of [signSet] that returns has changed the cache under the
    key of its RRset at most: every other key holds what it held before. *)
Theorem signSet_other_keys (s : Config) (r : list RR) (now incep expir : Z)
    (st st' : State) (res : RRSIG + error) (key k : string) :
  signSet s r now incep expir st = Some (st', res) ->
  sigCache_key r = Some key ->
  k <> key ->
  cache st' !! k = cache st !! k.
Proof.
  intros Hrun Hkey Hne. unfold signSet in Hrun. rewrite Hkey in Hrun.
  cbn [mbind option_bind] in Hrun.
  destruct (head r) as [r0|]; cbn [mbind option_bind] in Hrun; [|discriminate].
  assert (forall st0,
             signSet_miss s key r0 r incep expir st0 = Some (st', res) ->
             cache st' !! k = cache st0 !! k) as Hmiss.
  { intros st0 Hm. unfold signSet_miss in Hm.
    destruct (single_Do _ _ _ _) as [[[g n] [[v e] shared]]|]; [|discriminate].
    destruct v as [sig|], e as [e|]; try discriminate;
      injection Hm as <- _; try reflexivity.
    cbn [cache]. destruct shared; [reflexivity|].
    unfold sigCache_insert. destruct (cache st0 !! key); [reflexivity|].
    now rewrite lookup_insert_ne by congruence. }
  destruct (sigCache_search (cache st) key) as [sig|].
  - destruct (ValidityPeriod sig (now + 24 * 3600)).
    + injection Hrun as <- _. reflexivity.
    + rewrite (Hmiss _ Hrun). cbn [cache]. unfold sigCache_remove.
      now rewrite lookup_delete_ne by congruence.
  - now apply Hmiss.
Qed.

End SignSetFrame.

Lemma signSet_other_keys_witness :
  cache (after_sign exampleSigned (keyOf [exampleTXT 60])
           (fst (exampleSign 1 (Some "k")
                   (signSet_sig1 (exampleConfig (Some "k")) (exampleTXT 60)
                      (inception exampleNow) (expiration exampleNow))
                   [exampleTXT 60])) None)
    !! keyOf [exampleA 60]
  = cache exampleSigned !! keyOf [exampleA 60].
Proof.
  apply (signSet_other_keys (exampleConfig (Some "k")) [exampleTXT 60]
           exampleNow (inception exampleNow) (expiration exampleNow)
           exampleSigned _
           (inl (fst (exampleSign 1 (Some "k")
                        (signSet_sig1 (exampleConfig (Some "k"))
                           (exampleTXT 60) (inception exampleNow)
                           (expiration exampleNow)) [exampleTXT 60])))
           (keyOf [exampleTXT 60]) (keyOf [exampleA 60])).
  - vm_compute. reflexivity.
  - reflexivity.
  - vm_compute. discriminate.
Defined.

(** ** The validity window *)

Section WindowProperties.
Context `{Extern}.

(** X22.  For a clock between three hours after the epoch and seven days
    before the end of the 32-bit range, the record [signSet] builds for
    [sign] has its inception three hours before the clock and its expiration
    seven days after it, without wrap-around: the window holds the clock and
    is 615600 seconds wide. *)
Theorem signature_window (s : Config) (r0 : RR) (now : Z) :
  3 * 3600 <= now < 2 ^ 32 - 7 * 24 * 3600 ->
  let sig1 := signSet_sig1 s r0 (inception now) (expiration now) in
  rrsig_Inception sig1 = now - 10800 /\
  rrsig_Expiration sig1 = now + 604800 /\
  rrsig_Inception sig1 < now < rrsig_Expiration sig1 /\
  rrsig_Expiration sig1 - rrsig_Inception sig1 = 615600.
Proof.
  intros Hnow sig1.
  assert (rrsig_Inception sig1 = inception now) as ->.
  { subst sig1. unfold signSet_sig1. destruct (_ =? _); reflexivity. }
  assert (rrsig_Expiration sig1 = expiration now) as ->.
  { subst sig1. unfold signSet_sig1. destruct (_ =? _); reflexivity. }
  unfold inception, expiration, uint32.
  rewrite !Z.mod_small by lia. lia.
Qed.

End WindowProperties.

Lemma signature_window_witness :
  let sig1 := signSet_sig1 (exampleConfig (Some "k")) (exampleA 60)
                (inception exampleNow) (expiration exampleNow) in
  rrsig_Inception sig1 = exampleNow - 10800 /\
  rrsig_Expiration sig1 = exampleNow + 604800 /\
  rrsig_Inception sig1 < exampleNow < rrsig_Expiration sig1 /\
  rrsig_Expiration sig1 - rrsig_Inception sig1 = 615600.
Proof.
  apply (signature_window (exampleConfig (Some "k")) (exampleA 60) exampleNow).
  unfold exampleNow. lia.
Defined.

(** ** The key is not a digest *)

Lemma string_of_bytes_app (a b : list Z) :
  string_of_bytes (a ++ b) = string_of_bytes a +:+ string_of_bytes b.
Proof.
  unfold string_of_bytes. induction a as [|x a IH]; simpl; [reflexivity|].
  now rewrite IH.
Qed.

Lemma string_of_bytes_of_string (s : string) :
  string_of_bytes (bytes_of_string s) = s.
Proof.
  unfold string_of_bytes, bytes_of_string. rewrite map_map.
  induction s as [|c s IH]; simpl; [reflexivity|].
  rewrite N2Z.id, ascii_N_embedding. f_equal. exact IH.
Qed.

Lemma string_of_bytes_length (b : list Z) :
  String.length (string_of_bytes b) = List.length b.
Proof.
  unfold string_of_bytes. induction b as [|x b IH]; simpl; [reflexivity|].
  now rewrite IH.
Qed.

(** X23.  The key of an RRset is not a digest of it: [key] writes nothing
    to the hash it creates, and the key it returns is the owner name of the
    first record, followed by the two bytes of its type, the bytes folded in
    for the records, and twenty more bytes.  The owner name can be read off
    the key, and the key grows with the RRset. *)
Theorem sigCache_key_is_not_a_digest (r0 : RR) (rs : list RR) :
  exists rest,
    sigCache_key (r0 :: rs) = Some (hdr_Name (Header r0) +:+ rest) /\
    String.length rest =
      (2 + List.length (List.concat (map key_fields (r0 :: rs))) + 20)%nat.
Proof.
  rewrite sigCache_key_eq.
  exists (string_of_bytes
            (packUint16 (hdr_Rrtype (Header r0))
             ++ List.concat (map key_fields (r0 :: rs)) ++ sha1_empty)).
  split.
  - rewrite <- app_assoc, string_of_bytes_app, string_of_bytes_of_string.
    reflexivity.
  - rewrite string_of_bytes_length, !length_app. simpl. lia.
Qed.

(** * The messages [sign] returns *)

Lemma filter_length_le {A} (P Q : A -> Prop)
    `{!forall x, Decision (P x)} `{!forall x, Decision (Q x)} (l : list A) :
  (forall x, P x -> Q x) ->
  (List.length (filter P l) <= List.length (filter Q l))%nat.
Proof.
  intros HPQ. induction l as [|x l IH]; [reflexivity|].
  destruct (decide (P x)) as [HP|HP].
  - rewrite (filter_cons_True P) by assumption.
    rewrite (filter_cons_True Q) by now apply HPQ.
    simpl. lia.
  - rewrite (filter_cons_False P) by assumption.
    destruct (decide (Q x)) as [HQ|HQ].
    + rewrite (filter_cons_True Q) by assumption. simpl. lia.
    + rewrite (filter_cons_False Q) by assumption. assumption.
Qed.

Lemma filter_length_lt {A} (P Q : A -> Prop)
    `{!forall x, Decision (P x)} `{!forall x, Decision (Q x)} (l : list A)
    (a : A) :
  (forall x, P x -> Q x) -> a ∈ l -> Q a -> ~ P a ->
  (List.length (filter P l) < List.length (filter Q l))%nat.
Proof.
  intros HPQ Hin HQa HPa. induction l as [|x l IH]; [inversion Hin|].
  pose proof (filter_length_le P Q l HPQ) as Hle.
  apply elem_of_cons in Hin as [<-|Hin].
  - rewrite (filter_cons_False P) by assumption.
    rewrite (filter_cons_True Q) by assumption. simpl. lia.
  - specialize (IH Hin).
    destruct (decide (P x)) as [HP|HP].
    + rewrite (filter_cons_True P) by assumption.
      rewrite (filter_cons_True Q) by now apply HPQ.
      simpl. lia.
    + rewrite (filter_cons_False P) by assumption.
      destruct (decide (Q x)) as [HQ|HQ].
      * rewrite (filter_cons_True Q) by assumption. simpl. lia.
      * rewrite (filter_cons_False Q) by assumption. assumption.
Qed.

Lemma filter_ext_on {A} (P Q : A -> Prop)
    `{!forall x, Decision (P x)} `{!forall x, Decision (Q x)} (l : list A) :
  (forall x, x ∈ l -> (P x <-> Q x)) -> filter P l = filter Q l.
Proof.
  induction l as [|x l IH]; intros HPQ; [reflexivity|].
  assert (filter P l = filter Q l) as Hl.
  { apply IH. intros y Hy. apply HPQ. now apply list_elem_of_further. }
  destruct (decide (P x)) as [HP|HP].
  - rewrite (filter_cons_True P) by assumption.
    rewrite (filter_cons_True Q)
      by (apply HPQ; [apply list_elem_of_here|assumption]).
    now rewrite Hl.
  - rewrite (filter_cons_False P) by assumption.
    rewrite (filter_cons_False Q); [assumption|].
    intros HQ. apply HP. apply HPQ; [apply list_elem_of_here|assumption].
Qed.

Section SignedMessages.
Context `{Extern}.
Implicit Types (s : Config) (st : State) (key : string) (m : Msg).

Lemma signSets_failing_key s now incep expir key
    (sets : list ((string * Z) * list RR)) : forall sec st,
  Forall (fun x => exists r0 rs, snd x = r0 :: rs /\
                                 hdr_Rrtype (Header r0) = snd (fst x)) sets ->
  single_m (inflight st) = ∅ ->
  cache_fresh (cache st) key now = false ->
  (forall n sig1 r, sigCache_key r = Some key ->
     exists e, snd (Sign n (cfg_PrivKey s) sig1 r) = Some e) ->
  (forall n sig1 (r0 : RR) r, sigCache_key (r0 :: r) <> Some key ->
     snd (Sign n (cfg_PrivKey s) sig1 (r0 :: r)) = None) ->
  exists st' sigs,
    signSets s now incep expir sets sec st
      = Some (st', sec ++ map RR_RRSIG sigs) /\
    single_m (inflight st') = ∅ /\
    cache_fresh (cache st') key now = false /\
    (forall sig, cache st' !! key = Some sig -> cache st !! key = Some sig) /\
    (meets key sets -> cache st' !! key = None) /\
    List.length sigs =
      List.length
        (filter (fun x : (string * Z) * list RR =>
                   snd (fst x) <> TypeRRSIG /\
                   sigCache_key (snd x) <> Some key) sets).
Proof.
  induction sets as [|[k r] sets IH];
    intros sec st Hsets Hidle Hfresh Hfail Hok.
  - exists st, []. simpl. rewrite app_nil_r.
    split; [reflexivity|]. split; [assumption|]. split; [assumption|].
    split; [auto|]. split; [|reflexivity].
    intros (x & Hx & _). inversion Hx.
  - inversion Hsets as [|? ? (r0 & rs & Hr & Hty) Hsets']; subst.
    simpl in Hr, Hty. subst r. cbn [signSets head mbind option_bind].
    rewrite Hty.
    destruct (Z.eqb_spec (snd k) TypeRRSIG) as [Heq|Hne].
    + rewrite filter_cons_False by (simpl; intros [Hc _]; now apply Hc).
      destruct (IH sec st Hsets' Hidle Hfresh Hfail Hok)
        as (st' & sigs & Hrun & Hidle' & Hfresh' & Hkeep & Hmeets & Hlen).
      exists st', sigs.
      split; [assumption|]. split; [assumption|]. split; [assumption|].
      split; [assumption|]. split; [|assumption].
      intros (x & Hx & Hxt & Hxk). apply Hmeets.
      apply elem_of_cons in Hx as [->|Hx]; [simpl in Hxt; contradiction|].
      now exists x.
    + destruct (decide (sigCache_key (r0 :: rs) = Some key)) as [Hkey|Hkey].
      * rewrite filter_cons_False by (simpl; intros [_ Hc]; now apply Hc).
        assert (single_m (inflight st) !! key = None) as Hidle_key.
        { rewrite Hidle. apply lookup_empty. }
        rewrite (signSet_signs s r0 rs now incep expir st key)
          by assumption.
        cbn zeta.
        destruct (Hfail (signs st) (signSet_sig1 s r0 incep expir)
                    (r0 :: rs) Hkey) as [e He].
        rewrite He. cbn [mbind option_bind].
        destruct (IH sec
                    (after_sign st key
                       (fst (Sign (signs st) (cfg_PrivKey s)
                               (signSet_sig1 s r0 incep expir) (r0 :: rs)))
                       (Some e)))
          as (st' & sigs & Hrun & Hidle' & Hfresh' & Hkeep & Hmeets & Hlen);
          try assumption.
        { unfold cache_fresh, sigCache_search, after_sign. simpl.
          now rewrite lookup_delete_eq. }
        assert (cache st' !! key = None) as Hnone.
        { destruct (cache st' !! key) as [sig|] eqn:Hsig; [|reflexivity].
          specialize (Hkeep sig eq_refl). simpl in Hkeep.
          rewrite lookup_delete_eq in Hkeep. discriminate. }
        exists st', sigs.
        split; [assumption|]. split; [assumption|]. split; [assumption|].
        split; [|split; [intros _; exact Hnone|assumption]].
        intros sig Hsig. rewrite Hnone in Hsig. discriminate.
      * rewrite filter_cons_True by (simpl; split; assumption).
        destruct (sigCache_key_cons r0 rs) as [key' Hkey'].
        assert (key' <> key) as Hne'.
        { intros ->. contradiction. }
        destruct (cache_fresh (cache st) key' now) eqn:Hfresh1.
        -- unfold cache_fresh, sigCache_search in Hfresh1.
           destruct (cache st !! key') as [sig0|] eqn:Hsig0; [|discriminate].
           rewrite (signSet_hit s r0 rs now incep expir st key' sig0)
             by assumption.
           cbn [mbind option_bind].
           destruct (IH (sec ++ [RR_RRSIG sig0]) st Hsets' Hidle Hfresh
                       Hfail Hok)
             as (st' & sigs & Hrun & Hidle' & Hfresh' & Hkeep & Hmeets
                 & Hlen).
           exists st', (sig0 :: sigs). rewrite Hrun, <- app_assoc.
           split; [reflexivity|]. split; [assumption|]. split; [assumption|].
           split; [assumption|]. split.
           ++ intros (x & Hx & Hxt & Hxk). apply Hmeets.
              apply elem_of_cons in Hx as [->|Hx];
                [simpl in Hxk; contradiction|].
              now exists x.
           ++ simpl. now rewrite Hlen.
        -- assert (single_m (inflight st) !! key' = None) as Hidle_key.
           { rewrite Hidle. apply lookup_empty. }
           rewrite (signSet_signs s r0 rs now incep expir st key')
             by assumption.
           cbn zeta. rewrite (Hok _ _ r0 rs Hkey).
           cbn [mbind option_bind].
           destruct (IH (sec ++ [RR_RRSIG
                                   (fst (Sign (signs st) (cfg_PrivKey s)
                                           (signSet_sig1 s r0 incep expir)
                                           (r0 :: rs)))])
                       (after_sign st key'
                          (fst (Sign (signs st) (cfg_PrivKey s)
                                  (signSet_sig1 s r0 incep expir) (r0 :: rs)))
                          None))
             as (st' & sigs & Hrun & Hidle' & Hfresh' & Hkeep & Hmeets
                 & Hlen); try assumption.
           { unfold cache_fresh, sigCache_search, after_sign in *. simpl.
             now rewrite lookup_insert_ne. }
           exists st', (fst (Sign (signs st) (cfg_PrivKey s)
                               (signSet_sig1 s r0 incep expir) (r0 :: rs))
                        :: sigs).
           rewrite Hrun, <- app_assoc.
           split; [reflexivity|]. split; [assumption|]. split; [assumption|].
           split; [|split].
           ++ intros sig Hsig. apply Hkeep in Hsig. simpl in Hsig.
              now rewrite lookup_insert_ne in Hsig.
           ++ intros (x & Hx & Hxt & Hxk). apply Hmeets.
              apply elem_of_cons in Hx as [->|Hx];
                [simpl in Hxk; contradiction|].
              now exists x.
           ++ simpl. now rewrite Hlen.
Qed.

Lemma rangeMap_signable_but key (rrs : list RR) :
  List.length
    (filter (fun x : (string * Z) * list RR =>
               snd (fst x) <> TypeRRSIG /\ sigCache_key (snd x) <> Some key)
       (rangeMap (rrSets rrs)))
  = signable_sets_but key rrs.
Proof.
  unfold signable_sets_but. apply Permutation_length.
  now rewrite rangeMap_perm.
Qed.

Lemma rrSets_group_type (rrs : list RR) (k : string * Z) (r0 : RR)
    (rs : list RR) :
  rrSets rrs !! k = Some (r0 :: rs) ->
  (k, r0 :: rs) ∈ rangeMap (rrSets rrs) /\ hdr_Rrtype (Header r0) = snd k.
Proof.
  intros Hk.
  assert ((k, r0 :: rs) ∈ rangeMap (rrSets rrs)) as Hin.
  { rewrite rangeMap_perm. now apply elem_of_map_to_list. }
  split; [assumption|].
  destruct (rangeMap_group rrs k (r0 :: rs) Hin) as (r0' & rs' & Heq & Hr & _).
  injection Heq as <- <-. now rewrite <- Hr.
Qed.

Lemma rrSets_meets key (rrs : list RR) (k : string * Z) (r0 : RR)
    (rs : list RR) :
  rrSets rrs !! k = Some (r0 :: rs) ->
  hdr_Rrtype (Header r0) <> TypeRRSIG ->
  sigCache_key (r0 :: rs) = Some key ->
  meets key (rangeMap (rrSets rrs)).
Proof.
  intros Hk Hty Hkey.
  destruct (rrSets_group_type rrs k r0 rs Hk) as [Hin Hkt].
  exists (k, r0 :: rs). split; [assumption|]. simpl.
  split; [now rewrite <- Hkt|assumption].
Qed.

Lemma signable_sets_but_lt key (rrs : list RR) (k : string * Z) (r0 : RR)
    (rs : list RR) :
  rrSets rrs !! k = Some (r0 :: rs) ->
  hdr_Rrtype (Header r0) <> TypeRRSIG ->
  sigCache_key (r0 :: rs) = Some key ->
  (signable_sets_but key rrs < signable_sets rrs)%nat.
Proof.
  intros Hk Hty Hkey. unfold signable_sets_but, signable_sets.
  destruct (rrSets_group_type rrs k r0 rs Hk) as [_ Hkt].
  apply (filter_length_lt _ _ _ (k, r0 :: rs)).
  - intros x [Hx _]. exact Hx.
  - now apply elem_of_map_to_list.
  - simpl. now rewrite <- Hkt.
  - simpl. intros [_ Hc]. now apply Hc.
Qed.

Lemma sign_failing_key s m (bufsize now : Z) st key :
  single_m (inflight st) = ∅ ->
  cache_fresh (cache st) key now = false ->
  (forall n sig1 r, sigCache_key r = Some key ->
     exists e, snd (Sign n (cfg_PrivKey s) sig1 r) = Some e) ->
  (forall n sig1 (r0 : RR) r, sigCache_key (r0 :: r) <> Some key ->
     snd (Sign n (cfg_PrivKey s) sig1 (r0 :: r)) = None) ->
  exists st' m' sa sn se,
    sign s m bufsize now st = Some (st', m') /\
    msg_Answer m' = msg_Answer m ++ map RR_RRSIG sa /\
    msg_Ns m' = msg_Ns m ++ map RR_RRSIG sn /\
    msg_Extra m' = msg_Extra m ++ map RR_RRSIG se ++ [optRecord] /\
    List.length sa = signable_sets_but key (msg_Answer m) /\
    List.length sn = signable_sets_but key (msg_Ns m) /\
    List.length se = signable_sets_but key (msg_Extra m) /\
    (forall sig, cache st' !! key = Some sig -> cache st !! key = Some sig) /\
    (meets key (rangeMap (rrSets (msg_Answer m)))
     \/ meets key (rangeMap (rrSets (msg_Ns m)))
     \/ meets key (rangeMap (rrSets (msg_Extra m))) ->
     cache st' !! key = None).
Proof.
  intros Hidle Hfresh Hfail Hok. unfold sign.
  destruct (signSets_failing_key s now (inception now) (expiration now) key
              (rangeMap (rrSets (msg_Answer m))) (msg_Answer m) st
              (rangeMap_keyed _) Hidle Hfresh Hfail Hok)
    as (st1 & sa & -> & Hidle1 & Hfresh1 & Hkeep1 & Hmeets1 & Hla).
  cbn [mbind option_bind].
  destruct (signSets_failing_key s now (inception now) (expiration now) key
              (rangeMap (rrSets (msg_Ns m))) (msg_Ns m) st1
              (rangeMap_keyed _) Hidle1 Hfresh1 Hfail Hok)
    as (st2 & sn & -> & Hidle2 & Hfresh2 & Hkeep2 & Hmeets2 & Hln).
  cbn [mbind option_bind].
  destruct (signSets_failing_key s now (inception now) (expiration now) key
              (rangeMap (rrSets (msg_Extra m))) (msg_Extra m) st2
              (rangeMap_keyed _) Hidle2 Hfresh2 Hfail Hok)
    as (st3 & se & -> & Hidle3 & Hfresh3 & Hkeep3 & Hmeets3 & Hle).
  cbn [mbind option_bind].
  rewrite rangeMap_signable_but in Hla, Hln, Hle.
  eexists st3, _, sa, sn, se. split; [reflexivity|].
  cbn [msg_Answer msg_Ns msg_Extra]. rewrite <- app_assoc.
  do 6 (split; [first [reflexivity | assumption]|]). split.
  - intros sig Hsig. auto.
  - intros Hmeets.
    destruct (cache st3 !! key) as [sig|] eqn:Hsig; [|reflexivity].
    pose proof (Hkeep3 sig eq_refl) as Hsig2.
    pose proof (Hkeep2 sig Hsig2) as Hsig1.
    destruct Hmeets as [Hm|[Hm|Hm]].
    + rewrite (Hmeets1 Hm) in Hsig1. discriminate.
    + rewrite (Hmeets2 Hm) in Hsig2. discriminate.
    + exact (Hmeets3 Hm).
Qed.

(** C7.  When the signing operation fails for an RRset, [signSet] returns
    the error and leaves nothing in the cache under the key of the RRset;
    the loop of [sign] that met the RRset appends nothing for it and goes on
    with the remaining groups from the state [signSet] left; [sign] has no
    error to return and yields a message for every message it is given.
    When the operation fails on the RRsets of that key and on no other that
    is not empty, the message [sign] returns has, in each section, the
    records received followed by one signature for each owner name and type
    whose RRset has another key, the type RRSIG apart, and the additional
    section ends with the OPT record: a section that holds the failing RRset
    gets one signature less than it has RRsets to sign, every other section
    is signed in full; no signature is stored under the key, and nothing is
    left under it once [sign] has met the RRset. *)
Theorem sign_failure_is_local s (r0 : RR) (rs : list RR) now incep expir st
    key sig e :
  sigCache_key (r0 :: rs) = Some key ->
  hdr_Rrtype (Header r0) <> TypeRRSIG ->
  cache_fresh (cache st) key now = false ->
  single_m (inflight st) = ∅ ->
  Sign (signs st) (cfg_PrivKey s) (signSet_sig1 s r0 incep expir)
    (r0 :: rs) = (sig, Some e) ->
  (exists st',
     signSet s (r0 :: rs) now incep expir st = Some (st', inr e) /\
     cache st' !! key = None /\
     (forall k sets sec,
        signSets s now incep expir ((k, r0 :: rs) :: sets) sec st =
        signSets s now incep expir sets sec st') /\
     (forall m bufsize now', is_Some (sign s m bufsize now' st)) /\
     (forall m bufsize now', is_Some (sign s m bufsize now' st'))) /\
  ((forall n sig1 r, sigCache_key r = Some key ->
      exists e', snd (Sign n (cfg_PrivKey s) sig1 r) = Some e') ->
   (forall n sig1 (r1 : RR) r, sigCache_key (r1 :: r) <> Some key ->
      snd (Sign n (cfg_PrivKey s) sig1 (r1 :: r)) = None) ->
   forall m bufsize,
   exists st2 m' sa sn se,
     sign s m bufsize now st = Some (st2, m') /\
     msg_Answer m' = msg_Answer m ++ map RR_RRSIG sa /\
     msg_Ns m' = msg_Ns m ++ map RR_RRSIG sn /\
     msg_Extra m' = msg_Extra m ++ map RR_RRSIG se ++ [optRecord] /\
     List.length sa = signable_sets_but key (msg_Answer m) /\
     List.length sn = signable_sets_but key (msg_Ns m) /\
     List.length se = signable_sets_but key (msg_Extra m) /\
     (forall sec k, rrSets sec !! k = Some (r0 :: rs) ->
        (signable_sets_but key sec < signable_sets sec)%nat) /\
     (forall sec, (forall k r, rrSets sec !! k = Some r ->
                     sigCache_key r <> Some key) ->
        signable_sets_but key sec = signable_sets sec) /\
     (forall sig', cache st2 !! key = Some sig' ->
        cache st !! key = Some sig') /\
     ((exists k, rrSets (msg_Answer m) !! k = Some (r0 :: rs)
                 \/ rrSets (msg_Ns m) !! k = Some (r0 :: rs)
                 \/ rrSets (msg_Extra m) !! k = Some (r0 :: rs)) ->
      cache st2 !! key = None)).
Proof.
  intros Hkey Htype Hfresh Hidle Hsign. split.
  - assert (single_m (inflight st) !! key = None) as Hidle_key.
    { rewrite Hidle. apply lookup_empty. }
    pose proof (signSet_signs s r0 rs now incep expir st key
                  Hkey Hfresh Hidle_key) as Hset.
    rewrite Hsign in Hset. simpl in Hset.
    eexists. split; [exact Hset|]. split; [|split; [|split]].
    + simpl. apply lookup_delete_eq.
    + intros k sets sec. simpl.
      destruct (Z.eqb_spec (hdr_Rrtype (Header r0)) TypeRRSIG) as [Heq|_];
        [contradiction|].
      rewrite Hset. reflexivity.
    + intros m bufsize now'. now apply sign_total.
    + intros m bufsize now'. now apply sign_total.
  - intros Hfail Hok m bufsize.
    destruct (sign_failing_key s m bufsize now st key Hidle Hfresh Hfail Hok)
      as (st2 & m' & sa & sn & se & Hrun & Ha & Hn & He & Hla & Hln & Hle
          & Hkeep & Hmeets).
    exists st2, m', sa, sn, se.
    do 7 (split; [assumption|]).
    split; [|split; [|split; [assumption|]]].
    + intros sec k Hk. now apply (signable_sets_but_lt key sec k r0 rs).
    + intros sec Hother. unfold signable_sets_but, signable_sets.
      f_equal. apply filter_ext_on.
      intros [k r] Hin. apply elem_of_map_to_list in Hin. simpl.
      split; [now intros [? _]|]. intros Hk. split; [assumption|].
      now apply (Hother k).
    + intros (k & Hk). apply Hmeets.
      destruct Hk as [Hk|[Hk|Hk]];
        [left|right; left|right; right];
        now apply (rrSets_meets key _ k r0 rs).
Qed.

End SignedMessages.

Lemma pickySign_fails (n : nat) (k : option string) (sig1 : RRSIG)
    (r : list RR) :
  sigCache_key r = Some (keyOf [exampleTXT 60]) ->
  exists e, snd (pickySign n k sig1 r) = Some e.
Proof.
  intros Hkey. unfold pickySign. rewrite decide_True by assumption.
  now exists "dns: bad signature".
Qed.

Lemma pickySign_signs (n : nat) (k : string) (sig1 : RRSIG) (r0 : RR)
    (r : list RR) :
  sigCache_key (r0 :: r) <> Some (keyOf [exampleTXT 60]) ->
  snd (pickySign n (Some k) sig1 (r0 :: r)) = None.
Proof.
  intros Hkey. unfold pickySign. rewrite decide_False by assumption.
  reflexivity.
Qed.

Lemma sign_failure_is_local_witness :
  let key := keyOf [exampleTXT 60] in
  let m := mkMsg RcodeSuccess false
             [mkQuestion "www.example.com." TypeTXT ClassINET]
             [exampleA 60; exampleTXT 60] [exampleSOA] [] in
  (exists st',
     @signSet pickyExtern pickyConfig [exampleTXT 60] exampleNow
       (inception exampleNow) (expiration exampleNow) exampleState
     = Some (st', inr "dns: bad signature") /\
     cache st' !! key = None) /\
  exists st2 m' sa sn,
    @sign pickyExtern pickyConfig m 4096 exampleNow exampleState
    = Some (st2, m') /\
    msg_Answer m' = [exampleA 60; exampleTXT 60; RR_RRSIG sa] /\
    msg_Ns m' = [exampleSOA; RR_RRSIG sn] /\
    msg_Extra m' = [optRecord] /\
    cache st2 !! key = None.
Proof.
  intros key m.
  destruct (@sign_failure_is_local pickyExtern pickyConfig (exampleTXT 60) []
              exampleNow (inception exampleNow) (expiration exampleNow)
              exampleState key
              (@signSet_sig1 pickyExtern pickyConfig (exampleTXT 60)
                 (inception exampleNow) (expiration exampleNow))
              "dns: bad signature" eq_refl ltac:(discriminate) eq_refl eq_refl
              eq_refl)
    as [(st' & Hset & Hcache & _) Hsign].
  split; [exists st'; split; assumption|].
  destruct (Hsign (fun n sig1 r => pickySign_fails n (Some "k") sig1 r)
              (fun n sig1 r1 r => pickySign_signs n "k" sig1 r1 r) m 4096)
    as (st2 & m' & sa & sn & se & Hrun & Ha & Hn & He & Hla & Hln & Hle & _
        & _ & _ & Hgone).
  vm_compute in Hla, Hln, Hle.
  destruct sa as [|a [|? ?]]; try discriminate Hla.
  destruct sn as [|b [|? ?]]; try discriminate Hln.
  destruct se; try discriminate Hle.
  exists st2, m', a, b.
  split; [exact Hrun|]. split; [exact Ha|]. split; [exact Hn|].
  split; [exact He|].
  apply Hgone. exists ("www.example.com.", TypeTXT). left. reflexivity.
Defined.

(** * The signature records [sign] appends *)

Section SignatureFields.
Context `{Extern}.
Implicit Types (s : Config) (st : State) (key : string) (m : Msg).

Lemma signSet_sig1_stamp s (r0 : RR) (incep expir : Z) :
  let sig1 := signSet_sig1 s r0 incep expir in
  rrsig_Inception sig1 = incep /\
  rrsig_Expiration sig1 = expir /\
  hdr_Ttl (rrsig_Hdr sig1) = hdr_Ttl (Header r0) /\
  rrsig_OrigTtl sig1 =
    (if hdr_Rrtype (Header r0) =? TypeTXT then 0 else cfg_Ttl s).
Proof.
  unfold signSet_sig1. destruct (_ =? _); repeat split.
Qed.

Lemma Sign_makes s now (r0 : RR) (rs : list RR) n sig :
  Sign_stamps ->
  Sign n (cfg_PrivKey s)
    (signSet_sig1 s r0 (inception now) (expiration now)) (r0 :: rs)
  = (sig, None) ->
  made_for s now r0 sig.
Proof.
  intros Hlib Hsign.
  destruct (Hlib _ _ _ _ _ _ Hsign) as (Hi & He & Ht & Ho).
  destruct (signSet_sig1_stamp s r0 (inception now) (expiration now))
    as (Hi1 & He1 & Ht1 & Ho1).
  unfold made_for. rewrite Hi, He, Ht, Ho, Hi1, He1, Ht1, Ho1.
  split; [reflexivity|]. split; [reflexivity|]. split; [reflexivity|].
  destruct (Z.eqb_spec (hdr_Rrtype (Header r0)) TypeTXT) as [_|_];
    [reflexivity|].
  cbn [orb]. destruct (Z.eqb_spec (cfg_Ttl s) 0) as [_|_]; reflexivity.
Qed.

Lemma filter_all {A} (P : A -> Prop) `{!forall x, Decision (P x)}
    (l : list A) :
  Forall P l -> filter P l = l.
Proof.
  induction 1 as [|x l Hx Hl IH]; [reflexivity|].
  rewrite filter_cons_True by assumption. now rewrite IH.
Qed.

Lemma filter_none {A} (P : A -> Prop) `{!forall x, Decision (P x)}
    (l : list A) :
  Forall (fun x => ~ P x) l -> filter P l = [].
Proof.
  induction 1 as [|x l Hx Hl IH]; [reflexivity|].
  now rewrite filter_cons_False by assumption.
Qed.

Lemma rrSets_single (r0 : RR) (rs : list RR) :
  Forall (fun r => rrset_key r = rrset_key r0) rs ->
  rangeMap (rrSets (r0 :: rs)) = [(rrset_key r0, r0 :: rs)].
Proof.
  intros Hsame.
  assert (rrSets (r0 :: rs) = {[ rrset_key r0 := r0 :: rs ]}) as Heq.
  { apply map_eq. intros k. rewrite rrSets_lookup.
    destruct (decide (k = rrset_key r0)) as [->|Hne].
    - rewrite lookup_singleton_eq.
      rewrite filter_all; [reflexivity|]. now constructor.
    - rewrite lookup_singleton_ne by congruence.
      rewrite filter_none; [reflexivity|].
      constructor; [congruence|].
      eapply Forall_impl; [exact Hsame|]. simpl. congruence. }
  pose proof (rangeMap_perm (rrSets (r0 :: rs))) as Hperm.
  rewrite Heq in Hperm at 2. rewrite map_to_list_singleton in Hperm.
  now apply Permutation_singleton_r in Hperm.
Qed.

Lemma signSets_invariant s now incep expir (P : RRSIG -> Prop)
    (sets : list ((string * Z) * list RR)) : forall sec st,
  Forall (fun x => snd x <> []) sets ->
  single_m (inflight st) = ∅ ->
  (forall k sig, cache st !! k = Some sig -> P sig) ->
  (forall x (r0 : RR) (rs : list RR) n sig,
     x ∈ sets -> snd x = r0 :: rs ->
     Sign n (cfg_PrivKey s) (signSet_sig1 s r0 incep expir) (r0 :: rs)
     = (sig, None) ->
     P sig) ->
  exists st' sigs,
    signSets s now incep expir sets sec st
      = Some (st', sec ++ map RR_RRSIG sigs) /\
    single_m (inflight st') = ∅ /\
    (forall k sig, cache st' !! k = Some sig -> P sig) /\
    Forall P sigs.
Proof.
  induction sets as [|[k r] sets IH]; intros sec st Hsets Hidle Hcache Hmade.
  - exists st, []. simpl. rewrite app_nil_r.
    split; [reflexivity|]. split; [assumption|]. split; [assumption|].
    constructor.
  - inversion Hsets as [|? ? Hr Hsets']; subst. simpl in Hr.
    destruct r as [|r0 rs]; [congruence|].
    assert (forall x (r1 : RR) (rs1 : list RR) n sig,
              x ∈ sets -> snd x = r1 :: rs1 ->
              Sign n (cfg_PrivKey s) (signSet_sig1 s r1 incep expir)
                (r1 :: rs1) = (sig, None) ->
              P sig) as Hmade'.
    { intros x r1 rs1 n sig Hx. apply Hmade.
      now apply list_elem_of_further. }
    cbn [signSets head mbind option_bind].
    destruct (hdr_Rrtype (Header r0) =? TypeRRSIG); [now apply IH|].
    destruct (sigCache_key_cons r0 rs) as [key Hkey].
    destruct (cache_fresh (cache st) key now) eqn:Hfresh.
    + unfold cache_fresh, sigCache_search in Hfresh.
      destruct (cache st !! key) as [sig0|] eqn:Hsig0; [|discriminate].
      rewrite (signSet_hit s r0 rs now incep expir st key sig0)
        by assumption.
      cbn [mbind option_bind].
      destruct (IH (sec ++ [RR_RRSIG sig0]) st Hsets' Hidle Hcache Hmade')
        as (st' & sigs & Hrun & Hidle' & Hcache' & Hall).
      exists st', (sig0 :: sigs). rewrite Hrun, <- app_assoc.
      split; [reflexivity|]. split; [assumption|]. split; [assumption|].
      constructor; [|assumption]. now apply (Hcache key).
    + assert (single_m (inflight st) !! key = None) as Hidle_key.
      { rewrite Hidle. apply lookup_empty. }
      rewrite (signSet_signs s r0 rs now incep expir st key) by assumption.
      cbn zeta.
      destruct (Sign (signs st) (cfg_PrivKey s)
                  (signSet_sig1 s r0 incep expir) (r0 :: rs))
        as [sig [e|]] eqn:Hsign; cbn [fst snd mbind option_bind].
      * destruct (IH sec (after_sign st key sig (Some e)))
          as (st' & sigs & Hrun & Hidle' & Hcache' & Hall);
          try assumption.
        { intros k' sig' Hk'. simpl in Hk'.
          apply lookup_delete_Some in Hk' as [_ Hk']. now apply (Hcache k'). }
        exists st', sigs.
        split; [assumption|]. split; [assumption|]. split; assumption.
      * assert (P sig) as Hsig.
        { apply (Hmade (k, r0 :: rs) r0 rs (signs st) sig);
            [apply list_elem_of_here|reflexivity|assumption]. }
        destruct (IH (sec ++ [RR_RRSIG sig]) (after_sign st key sig None))
          as (st' & sigs & Hrun & Hidle' & Hcache' & Hall);
          try assumption.
        { intros k' sig' Hk'. simpl in Hk'.
          apply lookup_insert_Some in Hk' as [[_ <-]|[_ Hk']];
            [assumption|now apply (Hcache k')]. }
        exists st', (sig :: sigs). rewrite Hrun, <- app_assoc.
        split; [reflexivity|]. split; [assumption|]. split; [assumption|].
        now constructor.
Qed.

Lemma signSets_appended s m (now : Z) st0 (sec0 : list RR) :
  Sign_stamps ->
  sec0 ∈ [msg_Answer m; msg_Ns m; msg_Extra m] ->
  forall sec st,
  single_m (inflight st) = ∅ ->
  (forall k sig, cache st !! k = Some sig -> appended s m now st0 sig) ->
  exists st' sigs,
    signSets s now (inception now) (expiration now)
      (rangeMap (rrSets sec0)) sec st
      = Some (st', sec ++ map RR_RRSIG sigs) /\
    single_m (inflight st') = ∅ /\
    (forall k sig, cache st' !! k = Some sig -> appended s m now st0 sig) /\
    Forall (appended s m now st0) sigs.
Proof.
  intros Hlib Hsec sec st Hidle Hcache.
  apply signSets_invariant; try assumption.
  - apply rangeMap_rrSets_nonempty.
  - intros [k r] r0 rs n sig Hx Hr Hsign. simpl in Hr. subst r.
    right. exists sec0, k, r0, rs. split; [assumption|]. split.
    + rewrite rangeMap_perm in Hx. now apply elem_of_map_to_list in Hx.
    + now apply (Sign_makes s now r0 rs n).
Qed.

(** C4, as the code has it.  With no call in flight and a signing
    operation that treats the stamped fields as [Sign] of package [dns]
    does, [sign] at time [now] returns a message in which each section is
    the section received followed by signature records, each of them one
    that the cache held before the call or one made for an RRset of the
    message: with inception [now] minus three hours and expiration [now]
    plus seven days (as 32-bit values), the TTL of the first record of the
    RRset in its header, and as original TTL the TTL of the configuration,
    or the TTL of the first record when the RRset is of type TXT (or the
    configuration has no TTL).  When the answer section is one RRset whose
    key has no signature in the cache that is valid a day later, and the
    signing operation succeeds on it, the answer section returned is that
    RRset followed by one signature with these fields. *)
Theorem sign_signature_fields s m (bufsize now : Z) st :
  Sign_stamps ->
  single_m (inflight st) = ∅ ->
  (exists st' m' sa sn se,
     sign s m bufsize now st = Some (st', m') /\
     msg_Answer m' = msg_Answer m ++ map RR_RRSIG sa /\
     msg_Ns m' = msg_Ns m ++ map RR_RRSIG sn /\
     msg_Extra m' = msg_Extra m ++ map RR_RRSIG se ++ [optRecord] /\
     Forall (appended s m now st) (sa ++ sn ++ se)) /\
  (forall (r0 : RR) (rs : list RR) key,
     msg_Answer m = r0 :: rs ->
     Forall (fun r => rrset_key r = rrset_key r0) rs ->
     hdr_Rrtype (Header r0) <> TypeRRSIG ->
     sigCache_key (r0 :: rs) = Some key ->
     cache_fresh (cache st) key now = false ->
     (forall n sig1, snd (Sign n (cfg_PrivKey s) sig1 (r0 :: rs)) = None) ->
     exists st' m' sig,
       sign s m bufsize now st = Some (st', m') /\
       msg_Answer m' = r0 :: rs ++ [RR_RRSIG sig] /\
       rrsig_Inception sig = (now - 3 * 3600) mod 2 ^ 32 /\
       rrsig_Expiration sig = (now + 7 * 24 * 3600) mod 2 ^ 32 /\
       hdr_Ttl (rrsig_Hdr sig) = hdr_Ttl (Header r0) /\
       rrsig_OrigTtl sig =
         (if (hdr_Rrtype (Header r0) =? TypeTXT) || (cfg_Ttl s =? 0)
          then hdr_Ttl (Header r0) else cfg_Ttl s)).
Proof.
  intros Hlib Hidle. split.
  - unfold sign.
    destruct (signSets_appended s m now st (msg_Answer m) Hlib
                ltac:(set_solver) (msg_Answer m) st Hidle)
      as (st1 & sa & -> & Hidle1 & Hcache1 & Ha).
    { intros k sig Hk. left. now exists k. }
    cbn [mbind option_bind].
    destruct (signSets_appended s m now st (msg_Ns m) Hlib
                ltac:(set_solver) (msg_Ns m) st1 Hidle1 Hcache1)
      as (st2 & sn & -> & Hidle2 & Hcache2 & Hn).
    cbn [mbind option_bind].
    destruct (signSets_appended s m now st (msg_Extra m) Hlib
                ltac:(set_solver) (msg_Extra m) st2 Hidle2 Hcache2)
      as (st3 & se & -> & Hidle3 & Hcache3 & He).
    cbn [mbind option_bind].
    eexists st3, _, sa, sn, se. split; [reflexivity|].
    cbn [msg_Answer msg_Ns msg_Extra]. rewrite <- app_assoc.
    do 3 (split; [reflexivity|]).
    apply Forall_app. split; [assumption|].
    apply Forall_app. split; assumption.
  - intros r0 rs key Hans Hsame Htype Hkey Hfresh Hok. unfold sign.
    rewrite Hans, (rrSets_single r0 rs Hsame).
    cbn [signSets head mbind option_bind].
    destruct (Z.eqb_spec (hdr_Rrtype (Header r0)) TypeRRSIG) as [Heq|_];
      [contradiction|].
    assert (single_m (inflight st) !! key = None) as Hidle_key.
    { rewrite Hidle. apply lookup_empty. }
    rewrite (signSet_signs s r0 rs now (inception now) (expiration now) st
               key) by assumption.
    cbn zeta.
    destruct (Sign (signs st) (cfg_PrivKey s)
                (signSet_sig1 s r0 (inception now) (expiration now))
                (r0 :: rs)) as [sig err] eqn:Hsign.
    pose proof (Hok (signs st)
                  (signSet_sig1 s r0 (inception now) (expiration now)))
      as Herr.
    rewrite Hsign in Herr. simpl in Herr. subst err.
    cbn [fst snd mbind option_bind].
    destruct (signSets_total s now (inception now) (expiration now)
                (rangeMap (rrSets (msg_Ns m))) (msg_Ns m)
                (after_sign st key sig None))
      as (st2 & ns & -> & Hidle2);
      [apply rangeMap_rrSets_nonempty|assumption|].
    cbn [mbind option_bind].
    destruct (signSets_total s now (inception now) (expiration now)
                (rangeMap (rrSets (msg_Extra m))) (msg_Extra m) st2)
      as (st3 & extra & -> & Hidle3);
      [apply rangeMap_rrSets_nonempty|assumption|].
    cbn [mbind option_bind].
    eexists st3, _, sig. split; [reflexivity|].
    cbn [msg_Answer]. split; [reflexivity|].
    exact (Sign_makes s now r0 rs (signs st) sig Hlib Hsign).
Qed.

End SignatureFields.

Lemma exampleSign_stamps : @Sign_stamps exampleExtern.
Proof.
  intros n k sig1 r0 rs sig Hsign. simpl in Hsign. unfold exampleSign in Hsign.
  destruct k as [k|]; [|discriminate].
  injection Hsign as <-. repeat split.
Qed.

Lemma sign_signature_fields_witness :
  let m := mkMsg RcodeSuccess false
             [mkQuestion "www.example.com." TypeTXT ClassINET]
             [exampleTXT 60] [exampleSOA] [] in
  exists st' m' sig,
    sign (exampleConfig (Some "k")) m 4096 exampleNow exampleState
    = Some (st', m') /\
    msg_Answer m' = [exampleTXT 60; RR_RRSIG sig] /\
    rrsig_Inception sig = 1399989200 /\
    rrsig_Expiration sig = 1400604800 /\
    hdr_Ttl (rrsig_Hdr sig) = 60 /\
    rrsig_OrigTtl sig = 60.
Proof.
  intros m.
  destruct (sign_signature_fields (exampleConfig (Some "k")) m 4096
              exampleNow exampleState exampleSign_stamps eq_refl)
    as [_ Hone].
  exact (Hone (exampleTXT 60) [] (keyOf [exampleTXT 60]) eq_refl
           (List.Forall_nil _) ltac:(discriminate) eq_refl eq_refl
           (fun n sig1 => eq_refl)).
Defined.

(** C4, as stated, fails.  In a zone whose configured TTL is 3600, the
    signature [sign] appends for an address record with TTL 60 has TTL 60 in
    its header and original TTL 3600, not the TTL of the record; the one it
    appends for a text record with TTL 60 has original TTL 60, not zero. *)
Lemma OrigTtl_of_signatures :
  (exists st' m' sig,
     sign (exampleConfig (Some "k"))
       (mkMsg RcodeSuccess false
          [mkQuestion "www.example.com." TypeA ClassINET]
          [exampleA 60] [] [])
       4096 exampleNow exampleState = Some (st', m') /\
     msg_Answer m' = [exampleA 60; RR_RRSIG sig] /\
     hdr_Ttl (Header (exampleA 60)) = 60 /\
     hdr_Ttl (rrsig_Hdr sig) = 60 /\
     rrsig_OrigTtl sig = 3600) /\
  (exists st' m' sig,
     sign (exampleConfig (Some "k"))
       (mkMsg RcodeSuccess false
          [mkQuestion "www.example.com." TypeTXT ClassINET]
          [exampleTXT 60] [] [])
       4096 exampleNow exampleState = Some (st', m') /\
     msg_Answer m' = [exampleTXT 60; RR_RRSIG sig] /\
     hdr_Ttl (Header (exampleTXT 60)) = 60 /\
     rrsig_OrigTtl sig = 60).
Proof.
  split; eexists _, _, _; (split; [vm_compute; reflexivity|]);
    repeat split.
Qed.
